(** * plottwist: the scene-graph generation and consistency engine

    A shallow embedding of [backend/vn_generator.py]: the placeholder
    scene builder, the outline planner, the scene synthesizer with its
    in-progress guard, the graph validator and repairer, the scene graph
    index and the runtime scene resolver, followed by the properties of
    the specification that concern them.

    Conventions.
    - A Python dict with a fixed shape is a record; a key the code tests
      for presence ([in], [.get]) is an [option] field, a key the code
      reads with [d[k]] is a plain field.
    - A raised exception is the [Raise] result of the [Result] monad.
    - [STORY_CACHE] is the record [World.t]; a dict used as a map is a
      [gmap], the in-progress set is a [gset].
    - A coroutine is a [Task.t]: the code between two [await]s is one
      atomic segment, executed on the world it is resumed with.
    - The iteration order of a Python [set], the random generator and the
      text utilities ([str.lower], [re], [json], the Gemini client) are
      interfaces: the classes [PySet], [Random] and [TextLib].
    - A Python [str] is the string of its UTF-8 bytes, on which equality
      and the substring test are those of Python.
    - A script is the list of its scenes as values: an update in place is
      an update of the list entry it is made through. *)

From Stdlib Require Import Ascii.
From stdpp Require Import gmap strings list fin_maps pretty.

Open Scope string_scope.
Open Scope list_scope.
Open Scope nat_scope.

Set Warnings "-abstract-large-number".

(** ** Exceptions *)

Inductive Exn : Type :=
| KeyError | AttributeError | TypeError | NameError | IndexError
| ValueError | JSONDecodeError | StopIteration
| UpstreamError   (* any exception raised by the Gemini client *)
| Diverges.       (* not a Python exception: a modelled loop ran out of fuel *)

Inductive Result (A : Type) : Type :=
| Ok (a : A)
| Raise (e : Exn).
Arguments Ok {A} a.
Arguments Raise {A} e.

#[global] Instance Result_ret : MRet Result := fun _ a => Ok a.
#[global] Instance Result_bind : MBind Result := fun _ _ f m =>
  match m with
  | Ok a => f a
  | Raise e => Raise e
  end.

#[global] Instance Result_fmap : FMap Result := fun _ _ f m =>
  match m with
  | Ok a => Ok (f a)
  | Raise e => Raise e
  end.

(** ** Data model *)

Module Choice.
Record t : Type := mk { text : string; nextScene : option string }.
Definition with_nextScene (c : t) (n : string) : t :=
  {| text := text c; nextScene := Some n |}.
End Choice.

Module Dialogue.
Record t : Type := mk {
  speaker : string;
  text : string;
  character : option string;
  choices : option (list Choice.t)
}.
Definition with_choices (d : t) (cs : list Choice.t) : t :=
  {| speaker := speaker d; text := text d; character := character d;
     choices := Some cs |}.
End Dialogue.

Module SceneCharacter.
Record t : Type := mk { id : string; image : string }.
End SceneCharacter.

Module Scene.
Record t : Type := mk {
  id : string;
  background : string;
  characters : list SceneCharacter.t;
  dialogue : list Dialogue.t;
  generated_with : option string
}.
Definition with_dialogue (s : t) (ds : list Dialogue.t) : t :=
  {| id := id s; background := background s; characters := characters s;
     dialogue := ds; generated_with := generated_with s |}.
Definition with_generated_with (s : t) (m : string) : t :=
  {| id := id s; background := background s; characters := characters s;
     dialogue := dialogue s; generated_with := Some m |}.
End Scene.

Module Script.
Record t : Type := mk { title : string; scenes : list Scene.t }.
Definition with_scenes (s : t) (l : list Scene.t) : t :=
  {| title := title s; scenes := l |}.
End Script.

Module Outline.
(** One entry of the planner's output; every key is read with [.get]. *)
Record t : Type := mk {
  id : option string;
  description : option string;
  characters : option (list string);
  setting : option string;
  atmosphere : option string;
  dialogue_count : option nat;
  connects_to : option (list string)
}.
End Outline.

Module BookCharacter.
(** A character record of the book analysis. The keys that are only
    interpolated into prompts (role, personality, ...) are left out. *)
Record t : Type := mk { id : option string; name : option string }.
End BookCharacter.

Module BookAnalysis.
Record t : Type := mk {
  metadata : option (option string);   (* ['metadata'], then its 'title' *)
  characters : option (list BookCharacter.t);
  plot_summary : option string
}.
End BookAnalysis.

(** ** Strings *)

(** What [str.lower()] does to ASCII text: the letters A..Z are lowered. *)
Definition lower_ascii (c : ascii) : ascii :=
  let n := nat_of_ascii c in
  if (65 <=? n) && (n <=? 90) then ascii_of_nat (n + 32) else c.

Fixpoint ascii_lower (s : string) : string :=
  match s with
  | EmptyString => EmptyString
  | String c r => String (lower_ascii c) (ascii_lower r)
  end.

(** [str.isascii()] *)
Fixpoint isascii (s : string) : bool :=
  match s with
  | EmptyString => true
  | String c r => (nat_of_ascii c <? 128) && isascii r
  end.

(** Python's [a in b] on two strings: [a] occurs in [b]. *)
Fixpoint str_in (a b : string) : bool :=
  String.prefix a b ||
  match b with
  | EmptyString => false
  | String _ b' => str_in a b'
  end.

(** [", ".join(l)] *)
Fixpoint join (sep : string) (l : list string) : string :=
  match l with
  | [] => EmptyString
  | [x] => x
  | x :: rest => x +:+ sep +:+ join sep rest
  end.

(** ** The text library *)

(** What [json.loads] may hand back where a scene is expected: a
    non-empty object read as a scene, the empty object (falsy), or a value
    that is not an object (a list, a number, ...; truthy or not). *)
Inductive SceneData : Type :=
| SceneObj (scene : Scene.t)
| EmptyObj
| NonObj (truthy : bool).

(** Where an outline is expected: an object, with or without the key
    ["scenes"], or a value that is not an object. *)
Inductive OutlineData : Type :=
| OutlineObj (scenes : option (list Outline.t))
| OutlineNonObj.

(** The outcome of [model.generate_content]. *)
Inductive Response : Type :=
| Failed                (* the call raised *)
| NoText                (* a response without the attribute [text] *)
| Text (text : string).

(** [str.lower], [re], [json] and the constructor of the Gemini client. *)
Class TextLib : Type := {
  (* str.lower(): it follows the Unicode tables of the interpreter; on
     ASCII text it lowers the letters A..Z *)
  lower : string → string;
  lower_isascii : ∀ s, isascii s = true → lower s = ascii_lower s;
  (* re.search for a fenced code block; its content when there is one *)
  search_code_block : string → option string;
  (* json.loads; None is JSONDecodeError *)
  json_loads_outline : string → option OutlineData;
  json_loads_scene : string → option SceneData;
  (* the re.sub that closes a string left open at the end of the text *)
  sub_unclosed_quote : string → string;
  (* genai.GenerativeModel(model_name=...) returns *)
  GenerativeModel : string → bool
}.

(** ** create_placeholder_scene *)

(** The generator condition
    [c.get("id") == char_id or c.get("name").lower() == char_id.lower()];
    [None.lower()] raises when the character has no name. *)
Definition char_matches `{TextLib} (char_id : string) (c : BookCharacter.t)
  : Result bool :=
  if decide (BookCharacter.id c = Some char_id) then Ok true
  else match BookCharacter.name c with
       | None => Raise AttributeError
       | Some n => Ok (String.eqb (lower n) (lower char_id))
       end.

(** [next((c for c in chars if ...), None)] *)
Fixpoint find_character `{TextLib} (char_id : string) (chars : list BookCharacter.t)
  : Result (option BookCharacter.t) :=
  match chars with
  | [] => Ok None
  | c :: rest =>
      b ← char_matches char_id c;
      if b : bool then Ok (Some c) else find_character char_id rest
  end.

(** [book_analysis.get("characters", [])]; the resolver may pass the
    [None] stored in a fresh cache, on which [.get] raises. *)
Definition analysis_characters (book_analysis : option BookAnalysis.t)
  : Result (list BookCharacter.t) :=
  match book_analysis with
  | None => Raise AttributeError
  | Some ba => Ok (default [] (BookAnalysis.characters ba))
  end.

(** The first loop of [create_placeholder_scene]. *)
Fixpoint placeholder_characters `{TextLib} (book_analysis : option BookAnalysis.t)
    (char_ids : list string) : Result (list SceneCharacter.t) :=
  match char_ids with
  | [] => Ok []
  | char_id :: rest =>
      chars ← analysis_characters book_analysis;
      found ← find_character char_id chars;
      others ← placeholder_characters book_analysis rest;
      match found with
      | Some char =>
          Ok ({| SceneCharacter.id := default char_id (BookCharacter.id char);
                 SceneCharacter.image :=
                   "A character representing " +:+
                   default "a person" (BookCharacter.name char) |} :: others)
      | None => Ok others
      end
  end.

Definition generic_character : SceneCharacter.t :=
  {| SceneCharacter.id := "character";
     SceneCharacter.image := "A person relevant to this scene" |}.

Definition connection_choice (conn : string) : Choice.t :=
  {| Choice.text := "Continue to " +:+ conn; Choice.nextScene := Some conn |}.

Definition generic_choice : Choice.t :=
  {| Choice.text := "Continue"; Choice.nextScene := Some "scene_next" |}.

Definition narrator (text : string) : Dialogue.t :=
  {| Dialogue.speaker := "Narrator"; Dialogue.text := text;
     Dialogue.character := None; Dialogue.choices := None |}.

Definition character_line (char : SceneCharacter.t) : Dialogue.t :=
  {| Dialogue.speaker := SceneCharacter.id char;
     Dialogue.text := "We need to proceed carefully in this situation.";
     Dialogue.character := Some (SceneCharacter.id char);
     Dialogue.choices := None |}.

Definition choice_prompt (choices : list Choice.t) : Dialogue.t :=
  {| Dialogue.speaker := "Narrator"; Dialogue.text := "What will you do next?";
     Dialogue.character := None; Dialogue.choices := Some choices |}.

Definition create_placeholder_scene `{TextLib} (scene_id : string)
    (scene_outline : Outline.t) (book_analysis : option BookAnalysis.t)
  : Result Scene.t :=
  found ← placeholder_characters book_analysis
            (default [] (Outline.characters scene_outline));
  let characters :=
    match found with [] => [generic_character] | _ => found end in
  let description :=
    default "A scene in the story" (Outline.description scene_outline) in
  let setting :=
    default "An important location" (Outline.setting scene_outline) in
  let atmosphere :=
    default "Creates a specific mood" (Outline.atmosphere scene_outline) in
  let dialogue :=
    [narrator (setting +:+ ". " +:+ atmosphere +:+ "."); narrator description] in
  let dialogue :=
    match characters with
    | char :: _ => dialogue ++ [character_line char]
    | [] => dialogue
    end in
  let connections := default [] (Outline.connects_to scene_outline) in
  let choices := connection_choice <$> connections in
  let choices := match choices with [] => [generic_choice] | _ => choices end in
  let dialogue := dialogue ++ [choice_prompt choices] in
  Ok {| Scene.id := scene_id; Scene.background := setting;
        Scene.characters := characters; Scene.dialogue := dialogue;
        Scene.generated_with := None |}.

(** The condition of the specification on the character line of a
    placeholder: a line that is not the narrator's is there only if a
    character is attached to the outline. *)
Definition character_line_only_if_attached (scene_outline : Outline.t)
    (scene : Scene.t) : Prop :=
  (∃ d, d ∈ Scene.dialogue scene ∧ Dialogue.speaker d ≠ "Narrator") →
  default [] (Outline.characters scene_outline) ≠ [].

(** Who speaks the character line, in the words of the specification:
    the first character of the outline that resolves in the book analysis.
    A book character answers to an outline character id when it has that
    id, or that name up to case; the id resolves to the first character of
    the analysis that answers to it. *)
Definition answers_to `{TextLib} (char_id : string) (c : BookCharacter.t) : Prop :=
  BookCharacter.id c = Some char_id ∨
  ∃ n, BookCharacter.name c = Some n ∧ lower n = lower char_id.

Definition resolves_to `{TextLib} (chars : list BookCharacter.t) (char_id : string)
    (c : BookCharacter.t) : Prop :=
  ∃ before after, chars = before ++ c :: after ∧ answers_to char_id c ∧
                  ∀ c', c' ∈ before → ¬ answers_to char_id c'.

Definition unresolved `{TextLib} (chars : list BookCharacter.t) (char_id : string) : Prop :=
  ∀ c, c ∈ chars → ¬ answers_to char_id c.

(** The characters of the book analysis, none when there is no analysis. *)
Definition book_characters (book_analysis : option BookAnalysis.t)
  : list BookCharacter.t :=
  match book_analysis with
  | Some ba => default [] (BookAnalysis.characters ba)
  | None => []
  end.

(** ** Interfaces of the runtime *)

(** A Python [set] of strings is kept as the list of its elements; the
    order in which the interpreter iterates over a set built from the
    elements [l] is [set_iter l], about which the code may assume only
    that it enumerates the set. *)
Class PySet : Type := {
  set_iter : list string → list string;
  set_iter_elem : ∀ l x, x ∈ set_iter l ↔ x ∈ l;
  set_iter_NoDup : ∀ l, NoDup (set_iter l)
}.

(** The module [random]: [entropy k] is the [k]-th raw draw. *)
Class Random : Type := { entropy : nat → nat }.

(** Two iteration orders: first occurrence first, and its reverse. *)
Definition first_seen_order : PySet :=
  {| set_iter := remove_dups;
     set_iter_elem := λ l x, elem_of_remove_dups l x;
     set_iter_NoDup := λ l, NoDup_remove_dups l |}.

Definition last_seen_order : PySet :=
  {| set_iter := λ l, reverse (remove_dups l);
     set_iter_elem := λ l x,
       ltac:(rewrite elem_of_reverse; apply elem_of_remove_dups);
     set_iter_NoDup := λ l,
       ltac:(rewrite reverse_Permutation; apply NoDup_remove_dups) |}.

Definition constant_draws (n : nat) : Random := {| entropy := λ _, n |}.

(** [random.choice(seq)], as draw number [k]. *)
Definition random_choice `{Random} (k : nat) (seq : list string) : Result string :=
  match seq !! (entropy k mod length seq) with
  | Some x => Ok x
  | None => Raise IndexError
  end.

(** [random.randint(a, b)], as draw number [k]. *)
Definition randint `{Random} (k : nat) (a b : nat) : nat :=
  a + entropy k mod (b - a + 1).

(** ** validate_and_fix_scene_connections *)

Module Ref.
Record t : Type := mk {
  source_scene : string;
  choice_text : string;
  next_scene : string
}.
End Ref.

Definition choice_refs (scene_id : string) (choice : Choice.t) : list Ref.t :=
  match Choice.nextScene choice with
  | Some n => [Ref.mk scene_id (Choice.text choice) n]
  | None => []
  end.

Definition dialogue_refs (scene_id : string) (dialogue : Dialogue.t) : list Ref.t :=
  match Dialogue.choices dialogue with
  | Some cs => cs ≫= choice_refs scene_id
  | None => []
  end.

Definition scene_refs (scene : Scene.t) : list Ref.t :=
  Scene.dialogue scene ≫= dialogue_refs (Scene.id scene).

(** The list [next_scene_refs], in the order of the three nested loops. *)
Definition collect_refs (scenes : list Scene.t) : list Ref.t :=
  scenes ≫= scene_refs.

(** [scene_ids = set(scene["id"] for scene in script_data["scenes"])] *)
Definition scene_ids_of `{PySet} (scenes : list Scene.t) : list string :=
  set_iter (Scene.id <$> scenes).

Definition valid_target (scene_ids : list string) (n : string) : Prop :=
  n ∈ scene_ids ∨ n = "exit".

Definition invalid_refs_of (scene_ids : list string) (refs : list Ref.t) : list Ref.t :=
  filter (λ ref, (Ref.next_scene ref ∉ scene_ids) ∧ Ref.next_scene ref ≠ "exit") refs.

Definition similar_ids_of (scene_ids : list string) (ref : Ref.t) : list string :=
  List.filter (λ sid, str_in (Ref.next_scene ref) sid || str_in sid (Ref.next_scene ref))
    scene_ids.

(** [similar_ids[0]] when there is one, else [list(scene_ids)[0]]. The
    expression is evaluated inside the loop over the scenes only, where
    [scene_ids] has an element; the default stands for the [IndexError]
    that cannot happen there. *)
Definition replacement_id (scene_ids : list string) (ref : Ref.t) : string :=
  match similar_ids_of scene_ids ref with
  | sid :: _ => sid
  | [] => default EmptyString (head scene_ids)
  end.

Definition fix_choice (scene_ids : list string) (ref : Ref.t) (choice : Choice.t) : Choice.t :=
  if decide (Choice.text choice = Ref.choice_text ref
             ∧ Choice.nextScene choice = Some (Ref.next_scene ref))
  then Choice.with_nextScene choice (replacement_id scene_ids ref)
  else choice.

Definition fix_dialogue (scene_ids : list string) (ref : Ref.t) (dialogue : Dialogue.t)
  : Dialogue.t :=
  match Dialogue.choices dialogue with
  | Some cs => Dialogue.with_choices dialogue (fix_choice scene_ids ref <$> cs)
  | None => dialogue
  end.

Definition fix_scene (scene_ids : list string) (ref : Ref.t) (scene : Scene.t) : Scene.t :=
  if decide (Scene.id scene = Ref.source_scene ref)
  then Scene.with_dialogue scene (fix_dialogue scene_ids ref <$> Scene.dialogue scene)
  else scene.

(** The body of [for ref in invalid_refs]. *)
Definition fix_reference (scene_ids : list string) (scenes : list Scene.t) (ref : Ref.t)
  : list Scene.t :=
  fix_scene scene_ids ref <$> scenes.

Definition repair_references (scene_ids : list string) (invalid_refs : list Ref.t)
    (scenes : list Scene.t) : list Scene.t :=
  foldl (fix_reference scene_ids) scenes invalid_refs.

(** [reachable.add(x)] *)
Definition set_add (x : string) (s : list string) : list string :=
  if decide (x ∈ s) then s else s ++ [x].

(** The starting set: both conventional entry ids, or one scene when
    neither of them is a scene; [next(iter(scene_ids))] raises on the
    empty set. *)
Definition entry_set (scene_ids : list string) : Result (list string) :=
  let reachable := ["scene_intro"; "scene_1"] in
  if existsb (λ id, bool_decide (id ∈ scene_ids)) reachable
  then Ok reachable
  else match scene_ids with
       | first :: _ => Ok [first]
       | [] => Raise StopIteration
       end.

(** One run of [for ref in next_scene_refs] inside the [while]. *)
Definition expand_pass (refs : list Ref.t) (reachable : list string) : list string :=
  foldl (λ reachable ref,
           if decide (Ref.source_scene ref ∈ reachable ∧ Ref.next_scene ref ≠ "exit")
           then set_add (Ref.next_scene ref) reachable
           else reachable)
        reachable refs.

(** [while len(reachable) > old_size]; [None] when the fuel runs out. *)
Fixpoint expand (fuel : nat) (refs : list Ref.t) (reachable : list string)
    (old_size : nat) : option (list string) :=
  if decide (old_size < length reachable) then
    match fuel with
    | 0 => None
    | S fuel' => expand fuel' refs (expand_pass refs reachable) (length reachable)
    end
  else Some reachable.

Definition reachable_set (scene_ids : list string) (refs : list Ref.t)
  : Result (list string) :=
  reachable ← entry_set scene_ids;
  match expand (length refs + 3) refs reachable 0 with
  | Some reachable => Ok reachable
  | None => Raise Diverges
  end.

Definition new_path_choice (scene_id : string) : Choice.t :=
  {| Choice.text := "Explore a different path"; Choice.nextScene := Some scene_id |}.

(** On the reversed dialogue: append to the first entry that has a
    choices list, then [break]. *)
Fixpoint append_first_choices (choice : Choice.t) (ds : list Dialogue.t)
  : list Dialogue.t :=
  match ds with
  | [] => []
  | d :: rest =>
      match Dialogue.choices d with
      | Some cs => Dialogue.with_choices d (cs ++ [choice]) :: rest
      | None => d :: append_first_choices choice rest
      end
  end.

(** [for dialogue in reversed(scene["dialogue"])] *)
Definition append_last_choices (choice : Choice.t) (ds : list Dialogue.t)
  : list Dialogue.t :=
  reverse (append_first_choices choice (reverse ds)).

Definition add_connection (source_scene_id scene_id : string) (scenes : list Scene.t)
  : list Scene.t :=
  (λ scene,
     if decide (Scene.id scene = source_scene_id)
     then Scene.with_dialogue scene
            (append_last_choices (new_path_choice scene_id) (Scene.dialogue scene))
     else scene) <$> scenes.

(** [for scene_id in unreachable], the draws numbered from [k]. *)
Fixpoint connect_unreachable `{PySet} `{Random} (k : nat) (reachable : list string)
    (unreachable : list string) (scenes : list Scene.t) : Result (list Scene.t) :=
  match unreachable with
  | [] => Ok scenes
  | scene_id :: rest =>
      source_scene_id ← random_choice k (set_iter reachable);
      connect_unreachable (S k) reachable rest
        (add_connection source_scene_id scene_id scenes)
  end.

(** [unreachable = scene_ids - reachable] *)
Definition unreachable_of `{PySet} (scene_ids reachable : list string) : list string :=
  set_iter (filter (λ id, id ∉ reachable) scene_ids).

Definition validate_and_fix_scene_connections `{PySet} `{Random}
    (script_data : Script.t) : Result Script.t :=
  let scenes := Script.scenes script_data in
  let scene_ids := scene_ids_of scenes in
  let next_scene_refs := collect_refs scenes in
  let invalid_refs := invalid_refs_of scene_ids next_scene_refs in
  let scenes := repair_references scene_ids invalid_refs scenes in
  reachable ← reachable_set scene_ids next_scene_refs;
  let unreachable := unreachable_of scene_ids reachable in
  scenes ← connect_unreachable 0 reachable unreachable scenes;
  Ok (Script.with_scenes script_data scenes).

(** *** The graph of a script *)

(** A forward edge: a choice of a scene [a] whose target [b] is not the
    sentinel. *)
Definition edge (scenes : list Scene.t) (a b : string) : Prop :=
  ∃ scene d cs c,
    scene ∈ scenes ∧ Scene.id scene = a ∧ d ∈ Scene.dialogue scene ∧
    Dialogue.choices d = Some cs ∧ c ∈ cs ∧ Choice.nextScene c = Some b ∧
    b ≠ "exit".

(** The seeds from which the validator starts its closure. *)
Definition seeds_of (scene_ids : list string) : list string :=
  match entry_set scene_ids with Ok seeds => seeds | Raise _ => [] end.

Inductive reachable_from (scenes : list Scene.t) (entry : string) : string → Prop :=
| reach_entry : reachable_from scenes entry entry
| reach_step a b :
    reachable_from scenes entry a → edge scenes a b →
    reachable_from scenes entry b.

(** The entry id in the words of the specification: [scene_intro] if
    present, else [scene_1], else an arbitrary scene. *)
Definition designated_entry (scene_ids : list string) : option string :=
  if decide ("scene_intro" ∈ scene_ids) then Some "scene_intro"
  else if decide ("scene_1" ∈ scene_ids) then Some "scene_1"
  else head scene_ids.

(** A scene of the script with id [sid] has a dialogue entry that
    carries a choices list: the repair pass can attach a choice to it. *)
Definition hosts_choices (scenes : list Scene.t) (sid : string) : Prop :=
  ∃ scene d, scene ∈ scenes ∧ Scene.id scene = sid ∧
             d ∈ Scene.dialogue scene ∧ is_Some (Dialogue.choices d).

(** *** What the validator may change *)

#[global] Instance valid_target_dec scene_ids n : Decision (valid_target scene_ids n).
Proof. unfold valid_target. apply _. Defined.

(** A choice after reference repair: the text is kept; a dangling target
    is replaced by a scene id, any other target is kept. *)
Definition repaired (scene_ids : list string) (c c' : Choice.t) : Prop :=
  Choice.text c' = Choice.text c ∧
  match Choice.nextScene c with
  | Some n =>
      if decide (valid_target scene_ids n)
      then Choice.nextScene c' = Some n
      else ∃ n', Choice.nextScene c' = Some n' ∧ n' ∈ scene_ids
  | None => Choice.nextScene c' = None
  end.

(** A choice added by reachability repair. *)
Definition is_new_path (scene_ids : list string) (c : Choice.t) : Prop :=
  ∃ scene_id, scene_id ∈ scene_ids ∧ c = new_path_choice scene_id.

(** Two scripts that differ only in their choices: each choice list of
    the second is the first one with its choices related by [R] (which
    may depend on the id of the scene), followed by choices satisfying
    [A]; an entry without a choices list stays without one. *)
Definition choices_rel (R : Choice.t → Choice.t → Prop) (A : Choice.t → Prop)
    (o o' : option (list Choice.t)) : Prop :=
  match o, o' with
  | None, None => True
  | Some cs, Some cs' =>
      ∃ kept added, cs' = kept ++ added ∧ Forall2 R cs kept ∧ Forall A added
  | _, _ => False
  end.

Definition dialogue_rel (R : Choice.t → Choice.t → Prop) (A : Choice.t → Prop)
    (d d' : Dialogue.t) : Prop :=
  Dialogue.speaker d' = Dialogue.speaker d ∧
  Dialogue.text d' = Dialogue.text d ∧
  Dialogue.character d' = Dialogue.character d ∧
  choices_rel R A (Dialogue.choices d) (Dialogue.choices d').

Definition scene_rel (R : string → Choice.t → Choice.t → Prop) (A : Choice.t → Prop)
    (s s' : Scene.t) : Prop :=
  Scene.id s' = Scene.id s ∧
  Scene.background s' = Scene.background s ∧
  Scene.characters s' = Scene.characters s ∧
  Scene.generated_with s' = Scene.generated_with s ∧
  Forall2 (dialogue_rel (R (Scene.id s)) A) (Scene.dialogue s) (Scene.dialogue s').

(** What [validate_and_fix_scene_connections] may change in a script
    whose scene ids are [scene_ids]. *)
Definition scene_frame (scene_ids : list string) : Scene.t → Scene.t → Prop :=
  scene_rel (λ _, repaired scene_ids) (is_new_path scene_ids).

Definition script_frame (scene_ids : list string) (s s' : Script.t) : Prop :=
  Script.title s' = Script.title s ∧
  Forall2 (scene_frame scene_ids) (Script.scenes s) (Script.scenes s').

(** The state of a choice of the scene [scene_id] while the references
    [rest] are still to be repaired: it is the original choice or its
    dangling target was replaced by a scene id, and if it still dangles
    its reference is among [rest]. *)
Definition pending (scene_ids : list string) (rest : list Ref.t)
    (scene_id : string) (c0 c : Choice.t) : Prop :=
  Choice.text c = Choice.text c0 ∧
  (c = c0 ∨ ∃ n n', Choice.nextScene c0 = Some n ∧ ¬ valid_target scene_ids n ∧
                    Choice.nextScene c = Some n' ∧ n' ∈ scene_ids) ∧
  (∀ n, Choice.nextScene c = Some n → ¬ valid_target scene_ids n →
        Ref.mk scene_id (Choice.text c) n ∈ rest).

(** The scene [a] offers the choice [c]. *)
Definition has_choice (scenes : list Scene.t) (a : string) (c : Choice.t) : Prop :=
  ∃ scene d cs, scene ∈ scenes ∧ Scene.id scene = a ∧ d ∈ Scene.dialogue scene ∧
                Dialogue.choices d = Some cs ∧ c ∈ cs.

(** The ids the reachability loop may add: what the collected references
    lead to from the starting set. *)
Inductive ref_reachable (refs : list Ref.t) (seeds : list string) : string → Prop :=
| ref_seed x : x ∈ seeds → ref_reachable refs seeds x
| ref_step ref :
    ref ∈ refs → ref_reachable refs seeds (Ref.source_scene ref) →
    Ref.next_scene ref ≠ "exit" → ref_reachable refs seeds (Ref.next_scene ref).

(** Every source drawn for an unreachable scene is a scene that has a
    dialogue entry with a choices list. *)
Definition drawn_sources_host_choices `{PySet} `{Random} (script_data : Script.t) : Prop :=
  let scenes := Script.scenes script_data in
  let scene_ids := scene_ids_of scenes in
  ∀ reachable k scene_id,
    reachable_set scene_ids (collect_refs scenes) = Ok reachable →
    unreachable_of scene_ids reachable !! k = Some scene_id →
    ∃ source_scene_id,
      random_choice k (set_iter reachable) = Ok source_scene_id ∧
      hosts_choices scenes source_scene_id.

(** ** The cache store and coroutines *)

Module Graph.
Record OutEdge : Type := mkOut { target : string; out_text : string }.
Record InEdge : Type := mkIn { source : string; in_text : string }.
Record Node : Type := mkNode { outgoing : list OutEdge; incoming : list InEdge }.
Definition empty : Node := {| outgoing := []; incoming := [] |}.
End Graph.

Module World.
(** [STORY_CACHE], the flag [GEMINI_AVAILABLE] and the number of random
    draws made so far. *)
Record t : Type := mk {
  book_analysis : option BookAnalysis.t;
  generated_scenes : gmap string SceneData;
  scene_graph : gmap string Graph.Node;
  in_progress_scenes : gset string;
  GEMINI_AVAILABLE : bool;
  draws : nat
}.

Definition with_generated_scenes (w : t) (m : gmap string SceneData) : t :=
  {| book_analysis := book_analysis w; generated_scenes := m;
     scene_graph := scene_graph w; in_progress_scenes := in_progress_scenes w;
     GEMINI_AVAILABLE := GEMINI_AVAILABLE w; draws := draws w |}.
Definition with_scene_graph (w : t) (g : gmap string Graph.Node) : t :=
  {| book_analysis := book_analysis w; generated_scenes := generated_scenes w;
     scene_graph := g; in_progress_scenes := in_progress_scenes w;
     GEMINI_AVAILABLE := GEMINI_AVAILABLE w; draws := draws w |}.
Definition with_in_progress_scenes (w : t) (s : gset string) : t :=
  {| book_analysis := book_analysis w; generated_scenes := generated_scenes w;
     scene_graph := scene_graph w; in_progress_scenes := s;
     GEMINI_AVAILABLE := GEMINI_AVAILABLE w; draws := draws w |}.
Definition with_draws (w : t) (n : nat) : t :=
  {| book_analysis := book_analysis w; generated_scenes := generated_scenes w;
     scene_graph := scene_graph w; in_progress_scenes := in_progress_scenes w;
     GEMINI_AVAILABLE := GEMINI_AVAILABLE w; draws := n |}.

(** The cache at import time. *)
Definition initial (gemini : bool) : t :=
  {| book_analysis := None; generated_scenes := ∅; scene_graph := ∅;
     in_progress_scenes := ∅; GEMINI_AVAILABLE := gemini; draws := 0 |}.

(** [STORY_CACHE["generated_scenes"][scene_id] = data] *)
Definition store (scene_id : string) (data : SceneData) (w : t) : t :=
  with_generated_scenes w (<[scene_id := data]> (generated_scenes w)).

(** [STORY_CACHE["in_progress_scenes"].add(scene_id)] *)
Definition claim (scene_id : string) (w : t) : t :=
  with_in_progress_scenes w ({[scene_id]} ∪ in_progress_scenes w).

(** [STORY_CACHE["in_progress_scenes"].remove(scene_id)] *)
Definition release (scene_id : string) (w : t) : Result t :=
  if decide (scene_id ∈ in_progress_scenes w)
  then Ok (with_in_progress_scenes w (in_progress_scenes w ∖ {[scene_id]}))
  else Raise KeyError.

(** [random.randint(a, b)] *)
Definition draw `{Random} (a b : nat) (w : t) : nat * t :=
  (randint (draws w) a b, with_draws w (S (draws w))).
End World.

Module Task.
(** A coroutine that ran up to its next [await] (or to its end) and
    left the world [w]; when it is resumed it continues on the world of
    that moment. *)
Inductive t (R : Type) : Type :=
| Return (w : World.t) (r : Result R)
| Sleep (w : World.t) (resume : World.t → t R)
| Generate (w : World.t) (prompt : string) (resume : Response → World.t → t R).
Arguments Return {R} w r.
Arguments Sleep {R} w resume.
Arguments Generate {R} w prompt resume.

Definition world {R} (task : t R) : World.t :=
  match task with
  | Return w _ | Sleep w _ | Generate w _ _ => w
  end.

Definition result {R} (task : t R) : option (Result R) :=
  match task with
  | Return _ r => Some r
  | _ => None
  end.

(** [await task] inside [try]: the continuation receives the value or
    the exception. *)
Fixpoint bind {A B} (task : t A) (k : Result A → World.t → t B) : t B :=
  match task with
  | Return w r => k r w
  | Sleep w resume => Sleep w (λ w', bind (resume w') k)
  | Generate w prompt resume =>
      Generate w prompt (λ response w', bind (resume response w') k)
  end.

(** The event loop resumes a task suspended in [asyncio.sleep]. *)
Definition wake {R} (task : t R) (w : World.t) : t R :=
  match task with
  | Sleep _ resume => resume w
  | _ => task
  end.

(** The event loop resumes a task suspended in [generate_content]. *)
Definition respond {R} (task : t R) (response : Response) (w : World.t) : t R :=
  match task with
  | Generate _ _ resume => resume response w
  | _ => task
  end.

(** The property [P] of the world holds whenever the task yields
    control or ends, as long as it holds whenever the task is resumed. *)
Inductive maintains {R} (P : World.t → Prop) : t R → Prop :=
| maintains_Return w r : P w → maintains P (Return w r)
| maintains_Sleep w resume :
    P w → (∀ w', P w' → maintains P (resume w')) → maintains P (Sleep w resume)
| maintains_Generate w prompt resume :
    P w → (∀ response w', P w' → maintains P (resume response w')) →
    maintains P (Generate w prompt resume).
End Task.

(** *** The invariant of the generation cache *)

(** No scene id is at once claimed in progress and a key of the scenes. *)
Definition claims_disjoint (w : World.t) : Prop :=
  ∀ scene_id, scene_id ∈ World.in_progress_scenes w →
              World.generated_scenes w !! scene_id = None.

(** ** attempt_json_repair *)

Fixpoint count_char (c : ascii) (s : string) : nat :=
  match s with
  | EmptyString => 0
  | String c' r => (if decide (c' = c) then 1 else 0) + count_char c r
  end.

Fixpoint repeat_char (c : ascii) (n : nat) : string :=
  match n with
  | 0 => EmptyString
  | S n' => String c (repeat_char c n')
  end.

Definition close_missing (opening closing : ascii) (json_text : string) : string :=
  let opened := count_char opening json_text in
  let closed := count_char closing json_text in
  if decide (closed < opened)
  then json_text +:+ repeat_char closing (opened - closed)
  else json_text.

Definition attempt_json_repair `{TextLib} (json_text : string) : string :=
  let json_text := sub_unclosed_quote json_text in
  let json_text := close_missing "{" "}" json_text in
  close_missing "[" "]" json_text.

(** ** generate_script_outline_with_gemini *)

(** The prompt, reduced to the values it interpolates from its
    arguments. It is built before the [try]; of its accesses only
    [book_analysis['metadata']] can raise. *)
Definition outline_prompt (book_analysis : BookAnalysis.t) (scene_limit : nat)
  : Result string :=
  match BookAnalysis.metadata book_analysis with
  | None => Raise KeyError
  | Some title =>
      Ok ("TITLE: " +:+ default "Untitled" title +:+
          " PLOT SUMMARY: " +:+
          default "A story with characters and challenges."
                  (BookAnalysis.plot_summary book_analysis) +:+
          " Create exactly " +:+ pretty scene_limit +:+ " scenes")
  end.

Definition fallback_outline : OutlineData :=
  OutlineObj (Some [
    {| Outline.id := Some "scene_1";
       Outline.description := Some "Introduction to the story and main characters";
       Outline.characters := Some ["protagonist"];
       Outline.setting := Some "The main setting of the story";
       Outline.atmosphere := Some "Establishes the tone of the narrative";
       Outline.dialogue_count := Some 8;
       Outline.connects_to := Some ["scene_2a"; "scene_2b"] |};
    {| Outline.id := Some "scene_2a";
       Outline.description := Some "The protagonist takes an active approach";
       Outline.characters := Some ["protagonist"; "supporting"];
       Outline.setting := Some "A location that presents challenges";
       Outline.atmosphere := Some "Tense and action-oriented";
       Outline.dialogue_count := Some 7;
       Outline.connects_to := Some ["scene_3"] |} ]).

(** The [try] block from the response on; its exceptions stay inside
    [generate_script_outline_with_gemini]. *)
Definition parse_outline `{TextLib} (response : Response) : Result OutlineData :=
  match response with
  | Failed => Raise UpstreamError
  | NoText => Raise ValueError
  | Text outline_text =>
      let outline_text := default outline_text (search_code_block outline_text) in
      match json_loads_outline outline_text with
      | Some (OutlineObj scenes) => Ok (OutlineObj scenes)
      | Some OutlineNonObj => Raise AttributeError      (* outline_data.get *)
      | None =>
          match json_loads_outline (attempt_json_repair outline_text) with
          | Some outline_data => Ok outline_data
          | None => Raise JSONDecodeError
          end
      end
  end.

Definition generate_script_outline_with_gemini `{TextLib}
    (book_analysis : BookAnalysis.t) (scene_limit : nat) (w : World.t)
  : Task.t OutlineData :=
  match outline_prompt book_analysis scene_limit with
  | Raise e => Task.Return w (Raise e)
  | Ok prompt =>
      if World.GEMINI_AVAILABLE w
         && (GenerativeModel "gemini-1.5-pro" || GenerativeModel "gemini-pro")
      then Task.Generate w prompt (λ response w',
             match parse_outline response with
             | Ok outline_data => Task.Return w' (Ok outline_data)
             | Raise _ => Task.Return w' (Ok fallback_outline)
             end)
      else Task.Return w (Ok fallback_outline)
  end.

(** [outline.get("scenes", [])] *)
Definition outline_scenes (outline : OutlineData) : Result (list Outline.t) :=
  match outline with
  | OutlineObj scenes => Ok (default [] scenes)
  | OutlineNonObj => Raise AttributeError
  end.

(** The outlines [generate_initial_script_with_gemini] turns into
    synthesis tasks: [outline.get("scenes", [])[:5]], after it asked the
    planner for [scene_limit=5]. *)
Definition scheduled_outlines (outline : OutlineData) : Result (list Outline.t) :=
  take 5 <$> outline_scenes outline.

(** ** generate_scene_from_outline_with_gemini *)

(** The character loop at the head of the [try] block. *)
Fixpoint scene_characters `{TextLib} (book_analysis : option BookAnalysis.t)
    (char_ids : list string) : Result (list BookCharacter.t) :=
  match char_ids with
  | [] => Ok []
  | char_id :: rest =>
      chars ← analysis_characters book_analysis;
      char_data ← find_character char_id chars;
      others ← scene_characters book_analysis rest;
      match char_data with
      | Some char => Ok (char :: others)
      | None => Ok others
      end
  end.

(** The prompt, reduced to the values it interpolates. *)
Definition scene_prompt (scene_id : string) (scene_outline : Outline.t)
    (characters : list BookCharacter.t) (dialogue_count : nat) : string :=
  let character_info :=
    match characters with
    | [] => "No specific characters identified for this scene."
    | _ => join ", " ((λ c, default "Unknown" (BookCharacter.name c)) <$> characters)
    end in
  let connections := default [] (Outline.connects_to scene_outline) in
  let connections_info :=
    match connections with [] => "None specified" | _ => join ", " connections end in
  "ID: " +:+ scene_id +:+
  " Description: " +:+ default "A scene in the story" (Outline.description scene_outline) +:+
  " Setting: " +:+ default "An important location" (Outline.setting scene_outline) +:+
  " Atmosphere: " +:+ default "Creates a specific mood" (Outline.atmosphere scene_outline) +:+
  " CHARACTERS PRESENT: " +:+ character_info +:+
  " CONNECTIONS: " +:+ connections_info +:+
  " CREATE EXACTLY " +:+ pretty dialogue_count +:+ " DIALOGUE EXCHANGES".

Section Synthesizer.
Context `{Random} `{TextLib}.
Variables (scene_id : string) (scene_outline : Outline.t)
          (book_analysis : option BookAnalysis.t).

(** The handler [except Exception] of the outer [try]. *)
Definition recover (w : World.t) : Task.t SceneData :=
  match create_placeholder_scene scene_id scene_outline book_analysis with
  | Raise e => Task.Return w (Raise e)
  | Ok placeholder_scene =>
      let w := World.store scene_id (SceneObj placeholder_scene) w in
      let w := match World.release scene_id w with Ok w' => w' | Raise _ => w end in
      Task.Return w (Ok (SceneObj placeholder_scene))
  end.

(** "Save to cache", "Remove from in-progress set", [return]; a
    [KeyError] of [remove] goes to [on_key_error]. *)
Definition publish (data : SceneData) (on_key_error : World.t → Task.t SceneData)
    (w : World.t) : Task.t SceneData :=
  let w := World.store scene_id data w in
  match World.release scene_id w with
  | Ok w' => Task.Return w' (Ok data)
  | Raise _ => on_key_error w
  end.

(** The end of the handler [except json.JSONDecodeError]. *)
Definition publish_placeholder (w : World.t) : Task.t SceneData :=
  match create_placeholder_scene scene_id scene_outline book_analysis with
  | Raise _ => recover w
  | Ok placeholder_scene => publish (SceneObj placeholder_scene) recover w
  end.

(** The code after [await asyncio.to_thread(model.generate_content, prompt)]. *)
Definition on_response (response : Response) (w : World.t) : Task.t SceneData :=
  match response with
  | Failed | NoText => recover w
  | Text scene_text =>
      let scene_text := default scene_text (search_code_block scene_text) in
      match json_loads_scene scene_text with
      | Some (NonObj _) => recover w                    (* scene_data.get *)
      | Some scene_data => publish scene_data recover w
      | None =>
          let fixed_text := attempt_json_repair scene_text in
          if decide (fixed_text ≠ scene_text) then
            match json_loads_scene fixed_text with
            | Some scene_data => publish scene_data publish_placeholder w
            | None => publish_placeholder w
            end
          else publish_placeholder w
      end
  end.

(** "Mark as in progress", then the [try] block up to the [await]. *)
Definition claim_and_generate (w : World.t) : Task.t SceneData :=
  let w := World.claim scene_id w in
  match scene_characters book_analysis
          (default [] (Outline.characters scene_outline)) with
  | Raise _ => recover w
  | Ok characters =>
      let '(n, w) := World.draw 6 10 w in
      let dialogue_count := default n (Outline.dialogue_count scene_outline) in
      let prompt := scene_prompt scene_id scene_outline characters dialogue_count in
      if World.GEMINI_AVAILABLE w && GenerativeModel "gemini-1.5-pro"
      then Task.Generate w prompt on_response
      else recover w
  end.

(** [for _ in range(n): await asyncio.sleep(1); if scene_id in cache: return] *)
Fixpoint wait_for_scene (n : nat) (w : World.t) : Task.t SceneData :=
  match n with
  | 0 => claim_and_generate w
  | S n' =>
      Task.Sleep w (λ w',
        match World.generated_scenes w' !! scene_id with
        | Some cached => Task.Return w' (Ok cached)
        | None => wait_for_scene n' w'
        end)
  end.

(** "Prevent duplicate generation", "Check if already being generated",
    "Mark as in progress". *)
Definition synthesize (w : World.t) : Task.t SceneData :=
  match World.generated_scenes w !! scene_id with
  | Some cached => Task.Return w (Ok cached)
  | None =>
      if decide (scene_id ∈ World.in_progress_scenes w)
      then wait_for_scene 30 w
      else claim_and_generate w
  end.
End Synthesizer.

(** The default of [scene_outline.get("id", ...)] is evaluated, and a
    number drawn, whether or not the outline has an id. *)
Definition generate_scene_from_outline_with_gemini `{Random} `{TextLib}
    (scene_outline : Outline.t) (book_analysis : option BookAnalysis.t)
    (w : World.t) : Task.t SceneData :=
  let '(n, w) := World.draw 1000 9999 w in
  let scene_id := default ("scene_" +:+ pretty n) (Outline.id scene_outline) in
  synthesize scene_id scene_outline book_analysis w.

(** ** update_scene_graph *)

Definition ensure_node (scene_id : string) (scene_graph : gmap string Graph.Node)
  : gmap string Graph.Node :=
  match scene_graph !! scene_id with
  | Some _ => scene_graph
  | None => <[scene_id := Graph.empty]> scene_graph
  end.

(** The entry [scene_graph[scene_id]] exists where the code reads it:
    it is created before the loops. *)
Definition add_outgoing (scene_id target text : string)
    (scene_graph : gmap string Graph.Node) : gmap string Graph.Node :=
  match scene_graph !! scene_id with
  | Some node =>
      if decide (target ∈ Graph.target <$> Graph.outgoing node) then scene_graph
      else <[scene_id :=
               {| Graph.outgoing := Graph.outgoing node ++ [Graph.mkOut target text];
                  Graph.incoming := Graph.incoming node |}]> scene_graph
  | None => scene_graph
  end.

Definition add_incoming (target scene_id text : string)
    (scene_graph : gmap string Graph.Node) : gmap string Graph.Node :=
  match scene_graph !! target with
  | Some node =>
      if decide (scene_id ∈ Graph.source <$> Graph.incoming node) then scene_graph
      else <[target :=
               {| Graph.outgoing := Graph.outgoing node;
                  Graph.incoming := Graph.incoming node ++ [Graph.mkIn scene_id text] |}]>
             scene_graph
  | None => scene_graph
  end.

(** The body of [for choice in dialogue["choices"]]. *)
Definition connect (scene_id : string) (scene_graph : gmap string Graph.Node)
    (choice : Choice.t) : gmap string Graph.Node :=
  match Choice.nextScene choice with
  | Some next =>
      if decide (next ≠ "exit") then
        let scene_graph := add_outgoing scene_id next (Choice.text choice) scene_graph in
        let scene_graph := ensure_node next scene_graph in
        add_incoming next scene_id (Choice.text choice) scene_graph
      else scene_graph
  | None => scene_graph
  end.

Definition connect_dialogue (scene_id : string) (scene_graph : gmap string Graph.Node)
    (dialogue : Dialogue.t) : gmap string Graph.Node :=
  match Dialogue.choices dialogue with
  | Some cs => foldl (connect scene_id) scene_graph cs
  | None => scene_graph
  end.

(** The body of [for scene in script_data["scenes"]]. *)
Definition index_scene (w : World.t) (scene : Scene.t) : World.t :=
  let scene_id := Scene.id scene in
  let w := World.store scene_id (SceneObj scene) w in
  let scene_graph := ensure_node scene_id (World.scene_graph w) in
  World.with_scene_graph w
    (foldl (connect_dialogue scene_id) scene_graph (Scene.dialogue scene)).

Definition update_scene_graph (script_data : Script.t) (w : World.t) : World.t :=
  foldl index_scene w (Script.scenes script_data).

(** *** Reading the scene graph *)

Definition out_edge (g : gmap string Graph.Node) (scene_id next : string) : Prop :=
  ∃ node, g !! scene_id = Some node ∧ next ∈ Graph.target <$> Graph.outgoing node.

Definition in_edge (g : gmap string Graph.Node) (next scene_id : string) : Prop :=
  ∃ node, g !! next = Some node ∧ scene_id ∈ Graph.source <$> Graph.incoming node.

(** The index already records the choice [c] of the scene [scene_id]. *)
Definition recorded (g : gmap string Graph.Node) (scene_id : string) (c : Choice.t) : Prop :=
  match Choice.nextScene c with
  | Some next => next ≠ "exit" → out_edge g scene_id next ∧ in_edge g next scene_id
  | None => True
  end.

Definition scene_recorded (g : gmap string Graph.Node) (scene : Scene.t) : Prop :=
  is_Some (g !! Scene.id scene) ∧
  ∀ d cs c, d ∈ Scene.dialogue scene → Dialogue.choices d = Some cs → c ∈ cs →
            recorded g (Scene.id scene) c.

(** Every entry of [g] is still in [g'], its edge lists extended at the
    end only. *)
Definition graph_extends (g g' : gmap string Graph.Node) : Prop :=
  ∀ scene_id node, g !! scene_id = Some node →
    ∃ node', g' !! scene_id = Some node' ∧
             Graph.outgoing node `prefix_of` Graph.outgoing node' ∧
             Graph.incoming node `prefix_of` Graph.incoming node'.

(** No node lists the same target twice among its outgoing edges, or the
    same source twice among its incoming edges. *)
Definition graph_deduplicated (g : gmap string Graph.Node) : Prop :=
  ∀ scene_id node, g !! scene_id = Some node →
    NoDup (Graph.target <$> Graph.outgoing node) ∧
    NoDup (Graph.source <$> Graph.incoming node).

(** The two parts of the cache [update_scene_graph] writes. *)
Definition index_graph (g : gmap string Graph.Node) (scene : Scene.t)
  : gmap string Graph.Node :=
  foldl (connect_dialogue (Scene.id scene)) (ensure_node (Scene.id scene) g)
        (Scene.dialogue scene).

Definition store_scenes (m : gmap string SceneData) (scenes : list Scene.t)
  : gmap string SceneData :=
  foldl (λ m scene, <[Scene.id scene := SceneObj scene]> m) m scenes.

(** ** generate_placeholder_scene *)

Definition generate_placeholder_scene `{Random} (scene_id : string)
    (book_analysis : option BookAnalysis.t) (w : World.t) : Task.t SceneData :=
  match analysis_characters book_analysis with
  | Raise e => Task.Return w (Raise e)
  | Ok characters =>
      let char_ids :=
        imap (λ i char, default ("char_" +:+ pretty i) (BookCharacter.id char))
             (take 2 characters) in
      let '(n1, w) := World.draw 1000 9999 w in
      let '(n2, w) := World.draw 1000 9999 w in
      let scene :=
        {| Scene.id := scene_id;
           Scene.background := "library";
           Scene.characters :=
             (λ char_id, {| SceneCharacter.id := char_id;
                            SceneCharacter.image := "default" |}) <$> char_ids;
           Scene.dialogue := [
             {| Dialogue.speaker := "Narrator";
                Dialogue.text := "The story continues...";
                Dialogue.character := None; Dialogue.choices := None |};
             {| Dialogue.speaker :=
                  match characters with
                  | c :: _ => default "Character" (BookCharacter.name c)
                  | [] => "Character"
                  end;
                Dialogue.text := "We should proceed carefully from here.";
                Dialogue.character := Some (default "protagonist" (char_ids !! 0));
                Dialogue.choices := None |};
             {| Dialogue.speaker :=
                  match characters with
                  | _ :: c :: _ => default "Friend" (BookCharacter.name c)
                  | _ => "Friend"
                  end;
                Dialogue.text := "I agree. Let's consider our options.";
                Dialogue.character := Some (default "supporting" (char_ids !! 1));
                Dialogue.choices := None |};
             {| Dialogue.speaker := "Narrator";
                Dialogue.text := "What will you do?";
                Dialogue.character := None;
                Dialogue.choices := Some [
                  {| Choice.text := "Continue the adventure";
                     Choice.nextScene := Some ("scene_" +:+ pretty n1) |};
                  {| Choice.text := "Take a different path";
                     Choice.nextScene := Some ("scene_" +:+ pretty n2) |} ] |} ];
           Scene.generated_with := Some "Placeholder" |} in
      Task.Return (World.store scene_id (SceneObj scene) w) (Ok (SceneObj scene))
  end.

(** ** generate_next_scene *)

(** [source_scene.get("characters", [])] *)
Definition data_characters (data : SceneData) : Result (list SceneCharacter.t) :=
  match data with
  | SceneObj scene => Ok (Scene.characters scene)
  | EmptyObj => Ok []
  | NonObj _ => Raise AttributeError
  end.

(** The inner loop: the ids that are not empty and not yet listed. *)
Definition add_character_ids (listed : list string) (chars : list SceneCharacter.t)
  : list string :=
  foldl (λ listed char,
           let char_id := SceneCharacter.id char in
           if decide (char_id ≠ EmptyString ∧ char_id ∉ listed) then listed ++ [char_id]
           else listed)
        listed chars.

(** "Try to determine characters based on incoming scenes". *)
Fixpoint infer_characters (generated_scenes : gmap string SceneData)
    (incoming : list Graph.InEdge) (listed : list string) : Result (list string) :=
  match incoming with
  | [] => Ok listed
  | conn :: rest =>
      match generated_scenes !! Graph.source conn with
      | Some source_scene =>
          chars ← data_characters source_scene;
          infer_characters generated_scenes rest (add_character_ids listed chars)
      | None => infer_characters generated_scenes rest listed
      end
  end.

Definition generic_outline (next_scene_id : string) : Outline.t :=
  {| Outline.id := Some next_scene_id;
     Outline.description := Some "Continuation of the adventure";
     Outline.characters := Some [];
     Outline.setting := Some "A location within the story world";
     Outline.atmosphere := Some "Consistent with the narrative";
     Outline.dialogue_count := Some 8;
     Outline.connects_to := Some ["scene_next"; "scene_alt"] |}.

Definition context_outline (next_scene_id : string) (incoming : list Graph.InEdge)
    (dialogue_count : nat) (characters : list string) : Outline.t :=
  {| Outline.id := Some next_scene_id;
     Outline.description :=
       Some ("Continuation of the story from " +:+
             join ", " (Graph.source <$> incoming));
     Outline.characters := Some characters;
     Outline.setting := Some "A location appropriate to the story progression";
     Outline.atmosphere := Some "Consistent with the narrative tone";
     Outline.dialogue_count := Some dialogue_count;
     Outline.connects_to := Some [] |}.

Section Resolver.
Context `{Random} `{TextLib}.

(** What follows [await generate_scene_from_outline_with_gemini(...)]
    inside the [try]: a truthy scene is tagged in place (it is the object
    the cache holds under its id) and returned; otherwise, and on any
    exception, the placeholder path is taken. *)
Definition after_synthesis (next_scene_id : string)
    (book_analysis : option BookAnalysis.t)
    (r : Result SceneData) (w : World.t) : Task.t SceneData :=
  match r with
  | Ok (SceneObj scene) =>
      let scene := SceneObj (Scene.with_generated_with scene "Gemini") in
      Task.Return (World.store next_scene_id scene w) (Ok scene)
  | Ok EmptyObj | Ok (NonObj _) | Raise _ =>
      generate_placeholder_scene next_scene_id book_analysis w
  end.

(** [if GEMINI_AVAILABLE: try: ... except: ... else: ...] *)
Definition synthesize_or_placeholder (next_scene_id : string)
    (scene_outline : Outline.t) (w : World.t) : Task.t SceneData :=
  let book_analysis := World.book_analysis w in
  if World.GEMINI_AVAILABLE w then
    Task.bind (generate_scene_from_outline_with_gemini scene_outline book_analysis w)
              (after_synthesis next_scene_id book_analysis)
  else generate_placeholder_scene next_scene_id book_analysis w.

Definition generate_next_scene (next_scene_id : string) (w : World.t)
  : Task.t SceneData :=
  match World.generated_scenes w !! next_scene_id with
  | Some cached => Task.Return w (Ok cached)
  | None =>
      match World.scene_graph w !! next_scene_id with
      | Some node =>
          let incoming := Graph.incoming node in
          let '(n, w) := World.draw 7 10 w in
          match infer_characters (World.generated_scenes w) incoming [] with
          | Raise e => Task.Return w (Raise e)
          | Ok characters =>
              synthesize_or_placeholder next_scene_id
                (context_outline next_scene_id incoming n characters) w
          end
      | None =>
          synthesize_or_placeholder next_scene_id (generic_outline next_scene_id) w
      end
  end.
End Resolver.

(** ** Sample data and scenarios *)

Definition silent_scene (scene_id : string) : Scene.t :=
  {| Scene.id := scene_id; Scene.background := "A quiet room";
     Scene.characters := [];
     Scene.dialogue := [narrator "Nothing happens here."];
     Scene.generated_with := None |}.

Definition choice_scene (scene_id : string) (choices : list Choice.t) : Scene.t :=
  {| Scene.id := scene_id; Scene.background := "A crossroads";
     Scene.characters := [];
     Scene.dialogue := [narrator "The road forks."; choice_prompt choices];
     Scene.generated_with := None |}.

(** Two scenes, none of which offers a choice. *)
Definition silent_script : Script.t :=
  {| Script.title := "Silence"; Script.scenes := [silent_scene "scene_1"; silent_scene "scene_2"] |}.

(** Two scenes that each end on an empty choices list; [scene_intro] is
    not among them. *)
Definition open_script : Script.t :=
  {| Script.title := "Open";
     Script.scenes := [choice_scene "scene_1" []; choice_scene "scene_3" []] |}.

(** The end-to-end example of the specification: [scene_1] points to the
    undeclared [scene_2], [scene_3] has no inbound choice. *)
Definition dangling_script : Script.t :=
  {| Script.title := "Dangling";
     Script.scenes := [choice_scene "scene_1" [connection_choice "scene_2"];
                       choice_scene "scene_3" []] |}.

(** An outline without characters and without connections. *)
Definition bare_outline : Outline.t :=
  {| Outline.id := Some "scene_9";
     Outline.description := Some "A pause in the story";
     Outline.characters := Some [];
     Outline.setting := Some "An empty hall";
     Outline.atmosphere := Some "Still";
     Outline.dialogue_count := Some 6;
     Outline.connects_to := Some [] |}.

(** An outline that names one character and two successors. *)
Definition hero_outline : Outline.t :=
  {| Outline.id := Some "scene_1";
     Outline.description := Some "The hero sets out";
     Outline.characters := Some ["hero"];
     Outline.setting := Some "The village gate";
     Outline.atmosphere := Some "Hopeful";
     Outline.dialogue_count := Some 8;
     Outline.connects_to := Some ["scene_2a"; "scene_2b"] |}.

Definition empty_analysis : BookAnalysis.t :=
  {| BookAnalysis.metadata := Some (Some "A Tale"); BookAnalysis.characters := Some [];
     BookAnalysis.plot_summary := None |}.

(** A book analysis without the key ['metadata']. *)
Definition analysis_without_metadata : BookAnalysis.t :=
  {| BookAnalysis.metadata := None; BookAnalysis.characters := Some [];
     BookAnalysis.plot_summary := None |}.

(** A book analysis whose only character has an id and no name. *)
Definition analysis_with_nameless_character : BookAnalysis.t :=
  {| BookAnalysis.metadata := Some (Some "A Tale");
     BookAnalysis.characters :=
       Some [ {| BookCharacter.id := Some "villain"; BookCharacter.name := None |} ];
     BookAnalysis.plot_summary := None |}.

(** A scene as the text backend may return it. *)
Definition generated_scene (scene_id : string) : Scene.t :=
  {| Scene.id := scene_id; Scene.background := "A generated place";
     Scene.characters := [];
     Scene.dialogue := [narrator "Generated narration."];
     Scene.generated_with := None |}.

(** A stand-in for [re], [json] and the Gemini client that recognises a
    few texts. *)
Definition stub_textlib : TextLib :=
  {| lower := ascii_lower;
     lower_isascii := λ _ _, eq_refl;
     search_code_block := λ _, None;
     json_loads_outline := λ text,
       if decide (text = "three outlines")
       then Some (OutlineObj (Some [hero_outline; bare_outline; bare_outline]))
       else None;
     json_loads_scene := λ text,
       if decide (text = "first scene") then Some (SceneObj (generated_scene "scene_1"))
       else if decide (text = "second scene")
            then Some (SceneObj (generated_scene "scene_1 again"))
       else if decide (text = "{}") then Some EmptyObj
       else None;
     sub_unclosed_quote := λ text, text;
     GenerativeModel := λ _, true |}.

(** The cache after the reset at the head of [generate_visual_novel]. *)
Definition session (book_analysis : BookAnalysis.t) (gemini : bool) : World.t :=
  {| World.book_analysis := Some book_analysis; World.generated_scenes := ∅;
     World.scene_graph := ∅; World.in_progress_scenes := ∅;
     World.GEMINI_AVAILABLE := gemini; World.draws := 0 |}.

(** Two requests for the outline [hero_outline] race: the first claims
    the id and waits for the backend; the second finds the claim, polls
    thirty times in vain and generates on its own; the first completes with
    one scene, then the second with another. The worlds after the two
    completions. *)
Definition stale_claim_race : World.t * World.t :=
  let rnd := constant_draws 0 in
  let lib := stub_textlib in
  let w0 := session empty_analysis true in
  let first := generate_scene_from_outline_with_gemini hero_outline (Some empty_analysis) w0 in
  let second :=
    generate_scene_from_outline_with_gemini hero_outline (Some empty_analysis)
      (Task.world first) in
  let second := Nat.iter 30 (λ task, Task.wake task (Task.world task)) second in
  let first := Task.respond first (Text "first scene") (Task.world second) in
  let second := Task.respond second (Text "second scene") (Task.world first) in
  (Task.world first, Task.world second).

(** The world in which a request for the outline [hero_outline] has
    claimed [scene_1] and awaits the backend. *)
Definition claimed_scene_1 : World.t :=
  let rnd := constant_draws 0 in
  let lib := stub_textlib in
  Task.world
    (generate_scene_from_outline_with_gemini hero_outline (Some empty_analysis)
       (session empty_analysis true)).

(** A script whose scene [scene_1] shows the character ["hero"] and
    offers a choice leading to the scene [scene_x], not generated yet. *)
Definition script_with_pending_target : Script.t :=
  {| Script.title := "Pending";
     Script.scenes := [
       {| Scene.id := "scene_1"; Scene.background := "The village gate";
          Scene.characters := [ {| SceneCharacter.id := "hero";
                                   SceneCharacter.image := "A hero" |} ];
          Scene.dialogue := [choice_prompt [connection_choice "scene_x"]];
          Scene.generated_with := None |} ] |}.


(** ** generate_placeholder_script *)

Module Profile.
(** A character record of the book analysis, with the keys that
    [generate_placeholder_script] reads by subscript. *)
Record t : Type := mk {
  id : option string;
  name : option string;
  description : option string
}.
End Profile.

Module Book.
(** The book analysis, its character records with their descriptions. *)
Record t : Type := mk {
  metadata : option (option string);   (* ['metadata'], then its 'title' *)
  characters : option (list Profile.t);
  plot_summary : option string
}.
End Book.

(** [d[key]] on a dict that may lack the key. *)
Definition subscript {A} (value : option A) : Result A :=
  match value with
  | Some x => Ok x
  | None => Raise KeyError
  end.

Definition colors : list string :=
  ["f9d5e5"; "b06ab3"; "6a0572"; "d1d1e0"; "800000";
   "333333"; "e6ccb2"; "7b7554"; "c0d6df"; "4a6fa5"].

(** [colors[i]], for the indices the code reduces modulo the length. *)
Definition color (i : nat) : string := default EmptyString (colors !! i).

(** The SVG figure of the character number [i], reduced to the three
    colours it interpolates. *)
Definition character_svg (i : nat) : string :=
  let color_idx := i mod length colors in
  "data:image/svg+xml;utf8,<svg figure " +:+ color color_idx +:+ " " +:+
  color ((color_idx + 1) mod length colors) +:+ " " +:+
  color ((color_idx + 2) mod length colors) +:+ ">".

(** The three SVG backgrounds, their markup abbreviated. *)
Definition backgrounds_main : string := "data:image/svg+xml;utf8,<svg main>".
Definition backgrounds_secondary : string := "data:image/svg+xml;utf8,<svg secondary>".
Definition backgrounds_dark : string := "data:image/svg+xml;utf8,<svg dark>".

(** The cast used [if not characters]. *)
Definition default_characters : list Profile.t :=
  [ {| Profile.id := Some "protagonist"; Profile.name := Some "Protagonist";
       Profile.description := Some "The main character" |};
    {| Profile.id := Some "supporting"; Profile.name := Some "Supporting Character";
       Profile.description := Some "A helpful friend" |};
    {| Profile.id := Some "antagonist"; Profile.name := Some "Antagonist";
       Profile.description := Some "The opposition" |} ].

(** [book_analysis.get("characters", [])], replaced by the default cast
    when it is empty. *)
Definition placeholder_cast (book_analysis : Book.t) : list Profile.t :=
  match default [] (Book.characters book_analysis) with
  | [] => default_characters
  | characters => characters
  end.

(** [for i, character in enumerate(characters):
       character_images[character["id"]] = ...] *)
Fixpoint character_images_from (i : nat) (characters : list Profile.t)
    (character_images : gmap string string) : Result (gmap string string) :=
  match characters with
  | [] => Ok character_images
  | character :: rest =>
      char_id ← subscript (Profile.id character);
      character_images_from (S i) rest (<[char_id := character_svg i]> character_images)
  end.

(** [{char["id"]: char["name"] for char in characters}] *)
Fixpoint character_names_from (characters : list Profile.t)
    (character_names : gmap string string) : Result (gmap string string) :=
  match characters with
  | [] => Ok character_names
  | char :: rest =>
      char_id ← subscript (Profile.id char);
      name ← subscript (Profile.name char);
      character_names_from rest (<[char_id := name]> character_names)
  end.

(** The line appended to the intro scene for one character. *)
Definition character_intro (character : Profile.t) : Result Dialogue.t :=
  name ← subscript (Profile.name character);
  description ← subscript (Profile.description character);
  Ok (narrator ("Meet " +:+ name +:+ ", " +:+ description +:+ ".")).

(** [for character in characters[:2]: intro_scene["dialogue"].append(...)] *)
Fixpoint character_intros (characters : list Profile.t) : Result (list Dialogue.t) :=
  match characters with
  | [] => Ok []
  | character :: rest =>
      line ← character_intro character;
      lines ← character_intros rest;
      Ok (line :: lines)
  end.

Definition choice (text next : string) : Choice.t :=
  {| Choice.text := text; Choice.nextScene := Some next |}.

Definition spoken (speaker text char_id : string) (choices : option (list Choice.t))
  : Dialogue.t :=
  {| Dialogue.speaker := speaker; Dialogue.text := text;
     Dialogue.character := Some char_id; Dialogue.choices := choices |}.

Definition narrated_choices (text : string) (choices : list Choice.t) : Dialogue.t :=
  {| Dialogue.speaker := "Narrator"; Dialogue.text := text;
     Dialogue.character := None; Dialogue.choices := Some choices |}.

(** The scenes [scene_2] and [scene_3], which show the main character. *)
Definition path_scene (scene_id background main_id main_image speaker : string)
    (opening narration question : string) (choices : list Choice.t) : Scene.t :=
  {| Scene.id := scene_id; Scene.background := background;
     Scene.characters := [ {| SceneCharacter.id := main_id;
                              SceneCharacter.image := main_image |} ];
     Scene.dialogue := [ spoken speaker opening main_id None;
                         narrator narration;
                         spoken speaker question main_id (Some choices) ];
     Scene.generated_with := None |}.

(** The body of [for i, scene_info in enumerate(basic_scenes)]. *)
Definition basic_scene (characters : list Profile.t)
    (character_images character_names : gmap string string)
    (i : nat) (scene_info : string * string) : Result Scene.t :=
  let dialogue :=
    [ narrator "Your journey continues along this path...";
      narrated_choices "What would you like to do next?"
        [ choice "Return to the beginning" "scene_1";
          choice "Continue on this path" "scene_1" ] ] in
  if decide (i mod 2 = 0 ∧ characters ≠ []) then
    match characters !! (i mod length characters) with
    | None => Raise IndexError
    | Some char =>
        char_id ← subscript (Profile.id char);
        image ← subscript (character_images !! char_id);
        Ok {| Scene.id := scene_info.1; Scene.background := scene_info.2;
              Scene.characters := [ {| SceneCharacter.id := char_id;
                                       SceneCharacter.image := image |} ];
              Scene.dialogue :=
                take 1 dialogue ++
                [ spoken (default "Character" (character_names !! char_id))
                         "This path has its own challenges and rewards." char_id None ] ++
                drop 1 dialogue;
              Scene.generated_with := None |}
    end
  else
    Ok {| Scene.id := scene_info.1; Scene.background := scene_info.2;
          Scene.characters := []; Scene.dialogue := dialogue;
          Scene.generated_with := None |}.

Fixpoint populate_basic_scenes (characters : list Profile.t)
    (character_images character_names : gmap string string)
    (i : nat) (basic_scenes : list (string * string)) : Result (list Scene.t) :=
  match basic_scenes with
  | [] => Ok []
  | scene_info :: rest =>
      scene ← basic_scene characters character_images character_names i scene_info;
      scenes ← populate_basic_scenes characters character_images character_names (S i) rest;
      Ok (scene :: scenes)
  end.

Arguments populate_basic_scenes : simpl never.

Definition basic_scenes : list (string * string) :=
  [ ("scene_5", backgrounds_main); ("scene_6", backgrounds_secondary);
    ("scene_7", backgrounds_dark); ("scene_8", backgrounds_secondary);
    ("scene_9", backgrounds_main); ("scene_10", backgrounds_dark) ].

(** The coroutine has no [await]: it is a function of the book analysis. *)
Definition generate_placeholder_script (book_analysis : Book.t) : Result Script.t :=
  metadata ← subscript (Book.metadata book_analysis);
  let title := default "Adventure" metadata in
  let characters := placeholder_cast book_analysis in
  character_images ← character_images_from 0 characters ∅;
  character_names ← character_names_from characters ∅;
  introductions ← character_intros (take 2 characters);
  let intro_scene :=
    {| Scene.id := "scene_1"; Scene.background := backgrounds_main;
       Scene.characters := [];
       Scene.dialogue :=
         [ narrator ("Welcome to the world of " +:+ title +:+ ".");
           narrator (default "An exciting adventure awaits!"
                             (Book.plot_summary book_analysis)) ] ++
         introductions ++
         [ narrated_choices "How would you like to begin this adventure?"
             [ choice "With courage and determination" "scene_2";
               choice "With caution and planning" "scene_3";
               choice "Let fate decide my path" "scene_4" ] ];
       Scene.generated_with := None |} in
  let main_char :=
    match characters with
    | char :: _ => char
    | [] => {| Profile.id := Some "protagonist"; Profile.name := Some "Protagonist";
               Profile.description := None |}
    end in
  main_id ← subscript (Profile.id main_char);
  main_image ← subscript (character_images !! main_id);
  let main_speaker := default "Protagonist" (character_names !! main_id) in
  let main_scene :=
    path_scene "scene_2" backgrounds_main main_id main_image main_speaker
      "I need to face this challenge head-on."
      "With determination guiding your steps, you move forward."
      "What path should I take?"
      [ choice "The direct approach" "scene_5";
        choice "Seek allies first" "scene_6";
        choice "Gather more information" "scene_7" ] in
  let planning_scene :=
    path_scene "scene_3" backgrounds_secondary main_id main_image main_speaker
      "I need to plan carefully before proceeding."
      "Taking your time to consider options might reveal hidden paths."
      "What should I focus on first?"
      [ choice "Study the situation" "scene_8";
        choice "Prepare equipment" "scene_9";
        choice "Consult with others" "scene_10" ] in
  let fate_scene :=
    {| Scene.id := "scene_4"; Scene.background := backgrounds_dark;
       Scene.characters := [];
       Scene.dialogue :=
         [ narrator "You surrender to the flow of the story, letting fate guide your journey.";
           narrator "Sometimes the most interesting paths are those we don't choose ourselves.";
           narrated_choices
             "As you drift with the current of the narrative, you find yourself drawn to..."
             [ choice "A mysterious encounter" "scene_7";
               choice "An unexpected opportunity" "scene_8";
               choice "A moment of revelation" "scene_9" ] ];
       Scene.generated_with := None |} in
  scenes ← populate_basic_scenes characters character_images character_names 0 basic_scenes;
  Ok {| Script.title := title +:+ ": An Interactive Adventure";
        Script.scenes := [intro_scene; main_scene; planning_scene; fate_scene] ++ scenes |}.

(** The keys [generate_placeholder_script] reads by subscript are there:
    ['metadata'], the ['id'] and ['name'] of every character and the
    ['description'] of the first two. *)
Definition keys_present (book_analysis : Book.t) : Prop :=
  is_Some (Book.metadata book_analysis) ∧
  (∀ c, c ∈ placeholder_cast book_analysis →
        is_Some (Profile.id c) ∧ is_Some (Profile.name c)) ∧
  (∀ c, c ∈ take 2 (placeholder_cast book_analysis) → is_Some (Profile.description c)).

(** The choices of the placeholder script, as [collect_refs] lists them. *)
Definition placeholder_refs : list Ref.t :=
  [ Ref.mk "scene_1" "With courage and determination" "scene_2";
    Ref.mk "scene_1" "With caution and planning" "scene_3";
    Ref.mk "scene_1" "Let fate decide my path" "scene_4";
    Ref.mk "scene_2" "The direct approach" "scene_5";
    Ref.mk "scene_2" "Seek allies first" "scene_6";
    Ref.mk "scene_2" "Gather more information" "scene_7";
    Ref.mk "scene_3" "Study the situation" "scene_8";
    Ref.mk "scene_3" "Prepare equipment" "scene_9";
    Ref.mk "scene_3" "Consult with others" "scene_10";
    Ref.mk "scene_4" "A mysterious encounter" "scene_7";
    Ref.mk "scene_4" "An unexpected opportunity" "scene_8";
    Ref.mk "scene_4" "A moment of revelation" "scene_9" ] ++
  (basic_scenes ≫= λ scene_info,
     [ Ref.mk scene_info.1 "Return to the beginning" "scene_1";
       Ref.mk scene_info.1 "Continue on this path" "scene_1" ]).

(** Every line of dialogue that names a character names one the scene
    shows. *)
Definition speakers_shown (scene : Scene.t) : Prop :=
  ∀ d char_id, d ∈ Scene.dialogue scene → Dialogue.character d = Some char_id →
               char_id ∈ SceneCharacter.id <$> Scene.characters scene.

(** A book with a title and no characters, and one whose only character
    has no name. *)
Definition untold_book : Book.t :=
  {| Book.metadata := Some (Some "A Tale"); Book.characters := None;
     Book.plot_summary := None |}.

Definition book_with_nameless_character : Book.t :=
  {| Book.metadata := Some (Some "A Tale");
     Book.characters := Some [ {| Profile.id := Some "villain"; Profile.name := None;
                                  Profile.description := Some "The opposition" |} ];
     Book.plot_summary := None |}.

(** *** What a coroutine ends with *)

(** However the task is resumed (on whatever worlds, with whatever
    responses), it ends in a world and with a result that satisfy [Q]. *)
Inductive ends_with {R} (Q : World.t → Result R → Prop) : Task.t R → Prop :=
| ends_with_Return w r : Q w r → ends_with Q (Task.Return w r)
| ends_with_Sleep w resume :
    (∀ w', ends_with Q (resume w')) → ends_with Q (Task.Sleep w resume)
| ends_with_Generate w prompt resume :
    (∀ response w', ends_with Q (resume response w')) →
    ends_with Q (Task.Generate w prompt resume).

(** However the task is resumed, it suspends at most [sleeps] times in
    [asyncio.sleep] and at most [calls] times in a call of the text
    backend before it ends. *)
Inductive awaits_at_most {R} : nat → nat → Task.t R → Prop :=
| awaits_Return sleeps calls w r : awaits_at_most sleeps calls (Task.Return w r)
| awaits_Sleep sleeps calls w resume :
    (∀ w', awaits_at_most sleeps calls (resume w')) →
    awaits_at_most (S sleeps) calls (Task.Sleep w resume)
| awaits_Generate sleeps calls w prompt resume :
    (∀ response w', awaits_at_most sleeps calls (resume response w')) →
    awaits_at_most sleeps (S calls) (Task.Generate w prompt resume).

(** The scene id the synthesizer works under. *)
Definition synthesis_id `{Random} (scene_outline : Outline.t) (w : World.t) : string :=
  default ("scene_" +:+ pretty (randint (World.draws w) 1000 9999))
          (Outline.id scene_outline).

(** What the synthesizer ends with: the scene returned is the entry of
    the cache under [scene_id]; an exception is the one
    [create_placeholder_scene] raises on these arguments. *)
Definition synthesized `{TextLib} (scene_id : string) (scene_outline : Outline.t)
    (book_analysis : option BookAnalysis.t) (w : World.t) (r : Result SceneData) : Prop :=
  match r with
  | Ok data => World.generated_scenes w !! scene_id = Some data
  | Raise e =>
      e = AttributeError ∧
      create_placeholder_scene scene_id scene_outline book_analysis = Raise AttributeError
  end.

(** What the resolver ends with: the scene returned is the entry of the
    cache under the requested id; the only exception is [AttributeError]. *)
Definition resolved (next_scene_id : string) (w : World.t) (r : Result SceneData) : Prop :=
  match r with
  | Ok data => World.generated_scenes w !! next_scene_id = Some data
  | Raise e => e = AttributeError
  end.

(** Every character of the book analysis has a name. *)
Definition characters_named (book_analysis : BookAnalysis.t) : Prop :=
  ∀ c, c ∈ default [] (BookAnalysis.characters book_analysis) →
       is_Some (BookCharacter.name c).

(** A world of which the scenes cache holds scene objects only. *)
Definition caches_objects (w : World.t) : Prop :=
  ∀ k truthy, World.generated_scenes w !! k ≠ Some (NonObj truthy).

(** A session on a book whose villain has a name. *)
Definition analysis_with_named_character : BookAnalysis.t :=
  {| BookAnalysis.metadata := Some (Some "A Tale");
     BookAnalysis.characters :=
       Some [ {| BookCharacter.id := Some "villain"; BookCharacter.name := Some "Vil" |} ];
     BookAnalysis.plot_summary := None |}.

(** *** The validator, more precisely *)

(** A choice of the scene [scene_id] after reference repair, the new
    target named: a dangling target is replaced by [replacement_id]. *)
Definition repaired_to (scene_ids : list string) (scene_id : string)
    (c c' : Choice.t) : Prop :=
  Choice.text c' = Choice.text c ∧
  match Choice.nextScene c with
  | Some n =>
      if decide (valid_target scene_ids n)
      then Choice.nextScene c' = Some n
      else Choice.nextScene c' =
             Some (replacement_id scene_ids (Ref.mk scene_id (Choice.text c) n))
  | None => Choice.nextScene c' = None
  end.

(** [pending], with the new target named. *)
Definition pending_to (scene_ids : list string) (rest : list Ref.t)
    (scene_id : string) (c0 c : Choice.t) : Prop :=
  Choice.text c = Choice.text c0 ∧
  (c = c0 ∨ ∃ n, Choice.nextScene c0 = Some n ∧ ¬ valid_target scene_ids n ∧
                 Choice.nextScene c =
                   Some (replacement_id scene_ids (Ref.mk scene_id (Choice.text c0) n))) ∧
  (∀ n, Choice.nextScene c = Some n → ¬ valid_target scene_ids n →
        Ref.mk scene_id (Choice.text c) n ∈ rest).

(** The reachable set is closed under the collected references. *)
Definition closed_under (refs : list Ref.t) (reachable : list string) : Prop :=
  ∀ ref, ref ∈ refs → Ref.source_scene ref ∈ reachable →
         Ref.next_scene ref ≠ "exit" → Ref.next_scene ref ∈ reachable.

(** Two scenes in a row: [scene_1] leads to [scene_3]. *)
Definition linear_script : Script.t :=
  {| Script.title := "Linear";
     Script.scenes := [choice_scene "scene_1" [connection_choice "scene_3"];
                       choice_scene "scene_3" []] |}.

(** Outgoing and incoming lists of the index agree: [a] lists [b] as a
    target exactly when [b] lists [a] as a source. *)
Definition graph_symmetric (g : gmap string Graph.Node) : Prop :=
  ∀ a b, out_edge g a b ↔ in_edge g b a.

(** A text backend whose quote repair closes a string left open. *)
Definition quoting_textlib : TextLib :=
  {| lower := ascii_lower;
     lower_isascii := λ _ _, eq_refl;
     search_code_block := λ _, None;
     json_loads_outline := λ _, None;
     json_loads_scene := λ _, None;
     sub_unclosed_quote := λ text, text +:+ "'";
     GenerativeModel := λ _, true |}.

(** * Properties *)

(** ** The relations between scripts *)

Lemma choices_rel_mono (R R' : Choice.t → Choice.t → Prop) (A A' : Choice.t → Prop) o o' :
  (∀ c c', R c c' → R' c c') → (∀ c, A c → A' c) →
  choices_rel R A o o' → choices_rel R' A' o o'.
Proof.
  intros HR HA. destruct o as [cs|], o' as [cs'|]; simpl; try done.
  intros (kept & added & -> & Hk & Ha). exists kept, added. split; [done|]. split.
  - eapply Forall2_impl; eauto.
  - eapply Forall_impl; eauto.
Qed.

Lemma dialogue_rel_mono (R R' : Choice.t → Choice.t → Prop) (A A' : Choice.t → Prop) d d' :
  (∀ c c', R c c' → R' c c') → (∀ c, A c → A' c) →
  dialogue_rel R A d d' → dialogue_rel R' A' d d'.
Proof.
  intros HR HA (? & ? & ? & Hc). repeat split; try done.
  eapply choices_rel_mono; eauto.
Qed.

Lemma scene_rel_mono (R R' : string → Choice.t → Choice.t → Prop) (A A' : Choice.t → Prop) s s' :
  (∀ sid c c', R sid c c' → R' sid c c') → (∀ c, A c → A' c) →
  scene_rel R A s s' → scene_rel R' A' s s'.
Proof.
  intros HR HA (? & ? & ? & ? & Hd). repeat split; try done.
  eapply Forall2_impl; [exact Hd|]. intros d d'. apply dialogue_rel_mono; auto.
Qed.

Lemma scene_rel_diag (R : string → Choice.t → Choice.t → Prop) (A : Choice.t → Prop) s :
  (∀ d cs c, d ∈ Scene.dialogue s → Dialogue.choices d = Some cs → c ∈ cs →
             R (Scene.id s) c c) →
  scene_rel R A s s.
Proof.
  intros HR. repeat split; try done.
  apply Forall_Forall2_diag, Forall_forall. intros d Hd.
  repeat split; try done. unfold choices_rel.
  destruct (Dialogue.choices d) as [cs|] eqn:Hcs; [|done].
  exists cs, []. rewrite app_nil_r. repeat split; [|constructor].
  apply Forall_Forall2_diag, Forall_forall. intros c Hc. eauto.
Qed.

Lemma scenes_rel_ids (R : string → Choice.t → Choice.t → Prop) (A : Choice.t → Prop) ss ss' :
  Forall2 (scene_rel R A) ss ss' → Scene.id <$> ss' = Scene.id <$> ss.
Proof.
  induction 1 as [|s s' ss ss' (Hid & _) _ IH]; [done|].
  rewrite !fmap_cons. by f_equal.
Qed.

(** A choice offered before is offered after, up to [R]. *)
Lemma scenes_rel_has_choice (R : string → Choice.t → Choice.t → Prop) (A : Choice.t → Prop)
    ss ss' a c :
  Forall2 (scene_rel R A) ss ss' → has_choice ss a c →
  ∃ c', has_choice ss' a c' ∧ R a c c'.
Proof.
  intros Hrel (s & d & cs & Hs & Hid & Hd & Hcs & Hc).
  apply list_elem_of_lookup in Hs as [i Hi].
  destruct (Forall2_lookup_l _ _ _ _ _ Hrel Hi) as (s' & Hi' & Hid' & _ & _ & _ & Hds).
  apply list_elem_of_lookup in Hd as [j Hj].
  destruct (Forall2_lookup_l _ _ _ _ _ Hds Hj) as (d' & Hj' & _ & _ & _ & Hch).
  unfold choices_rel in Hch. rewrite Hcs in Hch.
  destruct (Dialogue.choices d') as [cs'|] eqn:Hcs'; [|done].
  destruct Hch as (kept & added & -> & Hk & _).
  apply list_elem_of_lookup in Hc as [k Hk'].
  destruct (Forall2_lookup_l _ _ _ _ _ Hk Hk') as (c' & Hc' & HR).
  exists c'. split; [|by rewrite <- Hid].
  exists s', d', (kept ++ added). repeat split.
  - eapply list_elem_of_lookup_2; eauto.
  - congruence.
  - eapply list_elem_of_lookup_2; eauto.
  - done.
  - apply elem_of_app. left. eapply list_elem_of_lookup_2; eauto.
Qed.

Lemma scenes_rel_hosts (R : string → Choice.t → Choice.t → Prop) (A : Choice.t → Prop)
    ss ss' a :
  Forall2 (scene_rel R A) ss ss' → hosts_choices ss a → hosts_choices ss' a.
Proof.
  intros Hrel (s & d & Hs & Hid & Hd & [cs Hcs]).
  apply list_elem_of_lookup in Hs as [i Hi].
  destruct (Forall2_lookup_l _ _ _ _ _ Hrel Hi) as (s' & Hi' & Hid' & _ & _ & _ & Hds).
  apply list_elem_of_lookup in Hd as [j Hj].
  destruct (Forall2_lookup_l _ _ _ _ _ Hds Hj) as (d' & Hj' & _ & _ & _ & Hch).
  unfold choices_rel in Hch. rewrite Hcs in Hch.
  destruct (Dialogue.choices d') as [cs'|] eqn:Hcs'; [|done].
  exists s', d'. repeat split; eauto using list_elem_of_lookup_2; congruence.
Qed.

(** ** Reference repair *)

Lemma collect_refs_elem scenes ref :
  ref ∈ collect_refs scenes ↔
  ∃ c, has_choice scenes (Ref.source_scene ref) c ∧
       Choice.text c = Ref.choice_text ref ∧
       Choice.nextScene c = Some (Ref.next_scene ref).
Proof.
  unfold collect_refs, scene_refs, dialogue_refs, choice_refs, has_choice. split.
  - intros Hin. apply list_elem_of_bind in Hin as (s & Hin & Hs).
    apply list_elem_of_bind in Hin as (d & Hin & Hd).
    destruct (Dialogue.choices d) as [cs|] eqn:Hcs; [|by apply elem_of_nil in Hin].
    apply list_elem_of_bind in Hin as (c & Hin & Hc).
    destruct (Choice.nextScene c) as [n|] eqn:Hn; [|by apply elem_of_nil in Hin].
    apply list_elem_of_singleton in Hin as ->. simpl.
    exists c. split; [|done]. by exists s, d, cs.
  - intros (c & (s & d & cs & Hs & Hid & Hd & Hcs & Hc) & Ht & Hn).
    apply list_elem_of_bind. exists s. split; [|done].
    apply list_elem_of_bind. exists d. split; [|done]. rewrite Hcs.
    apply list_elem_of_bind. exists c. split; [|done]. rewrite Hn.
    apply list_elem_of_singleton. destruct ref; simpl in *. congruence.
Qed.

Lemma collect_refs_source scenes ref :
  ref ∈ collect_refs scenes → Ref.source_scene ref ∈ Scene.id <$> scenes.
Proof.
  intros Hin. apply collect_refs_elem in Hin as (c & (s & d & cs & Hs & Hid & _) & _).
  apply list_elem_of_fmap. by exists s.
Qed.

Lemma replacement_id_elem scene_ids ref :
  scene_ids ≠ [] → replacement_id scene_ids ref ∈ scene_ids.
Proof.
  intros Hne. unfold replacement_id, similar_ids_of.
  destruct (List.filter _ scene_ids) as [|sid l] eqn:Hf.
  - destruct scene_ids; [done|]. simpl. apply list_elem_of_here.
  - assert (Hin : In sid (List.filter
      (λ sid, str_in (Ref.next_scene ref) sid || str_in sid (Ref.next_scene ref))
      scene_ids)) by (rewrite Hf; by left).
    apply filter_In in Hin as [Hin _]. by apply list_elem_of_In.
Qed.

Lemma pending_step scene_ids ref rest sid c0 c :
  scene_ids ≠ [] → ¬ valid_target scene_ids (Ref.next_scene ref) →
  pending scene_ids (ref :: rest) sid c0 c →
  pending scene_ids rest sid c0
    (if decide (sid = Ref.source_scene ref) then fix_choice scene_ids ref c else c).
Proof.
  intros Hne Hinv (Ht & Hc & Hp).
  assert (Hkeep : ref ≠ Ref.mk sid (Choice.text c) (Ref.next_scene ref) ∨
                  Choice.nextScene c ≠ Some (Ref.next_scene ref) →
                  pending scene_ids rest sid c0 c).
  { intros Hneq. split; [done|]. split; [done|]. intros n Hn Hbad.
    specialize (Hp n Hn Hbad). apply elem_of_cons in Hp as [Heq|]; [|done].
    exfalso. subst ref. simpl in *. destruct Hneq; congruence. }
  destruct (decide (sid = Ref.source_scene ref)) as [->|Hsid].
  - unfold fix_choice.
    destruct (decide (Choice.text c = Ref.choice_text ref
                      ∧ Choice.nextScene c = Some (Ref.next_scene ref))) as [[Htx Hnx]|Hno].
    + pose proof (replacement_id_elem scene_ids ref Hne) as Hrep.
      split; [done|]. split.
      * right. destruct Hc as [->|(n & n' & Hn0 & Hbad & Hn & Hok)].
        -- exists (Ref.next_scene ref), (replacement_id scene_ids ref). done.
        -- exfalso. rewrite Hnx in Hn. injection Hn as <-. apply Hinv. by left.
      * simpl. intros n [= <-] Hbad. exfalso. apply Hbad. by left.
    + apply Hkeep. destruct (decide (Choice.nextScene c = Some (Ref.next_scene ref)));
        [left|by right].
      intros Heq. apply (f_equal Ref.choice_text) in Heq. simpl in Heq. by apply Hno.
  - apply Hkeep. left. intros Heq. apply (f_equal Ref.source_scene) in Heq. by simpl in Heq.
Qed.

Lemma fix_reference_rel scene_ids ref (R R' : string → Choice.t → Choice.t → Prop) ss0 ss :
  (∀ sid c0 c, R sid c0 c →
     R' sid c0 (if decide (sid = Ref.source_scene ref)
                then fix_choice scene_ids ref c else c)) →
  Forall2 (scene_rel R (λ _, False)) ss0 ss →
  Forall2 (scene_rel R' (λ _, False)) ss0 (fix_reference scene_ids ss ref).
Proof.
  intros Hstep Hrel. unfold fix_reference. apply Forall2_fmap_r.
  eapply Forall2_impl; [exact Hrel|]. clear Hrel.
  intros s0 s (Hid & Hbg & Hch & Hgw & Hds).
  assert (Hdlg : ∀ f : Choice.t → Choice.t,
    (∀ c0 c, R (Scene.id s0) c0 c → R' (Scene.id s0) c0 (f c)) →
    Forall2 (dialogue_rel (R' (Scene.id s0)) (λ _, False)) (Scene.dialogue s0)
      ((λ d, match Dialogue.choices d with
             | Some cs => Dialogue.with_choices d (f <$> cs)
             | None => d
             end) <$> Scene.dialogue s)).
  { intros f Hf. apply Forall2_fmap_r. eapply Forall2_impl; [exact Hds|].
    intros d0 d (Hsp & Htx & Hcr & Hcs). unfold choices_rel in Hcs. unfold compose.
    destruct (Dialogue.choices d0) as [cs0|] eqn:Hcs0,
             (Dialogue.choices d) as [cs|] eqn:Hcs1; try done.
    - destruct Hcs as (kept & added & -> & Hk & Ha).
      destruct added as [|a added]; [|by inversion Ha]. rewrite app_nil_r in *.
      repeat split; simpl; try done. unfold choices_rel. rewrite Hcs0.
      exists (f <$> kept), []. rewrite app_nil_r. repeat split; [|constructor].
      apply Forall2_fmap_r. eapply Forall2_impl; eauto.
    - repeat split; try done. unfold choices_rel. by rewrite Hcs0, Hcs1. }
  unfold compose, fix_scene. rewrite Hid.
  destruct (decide (Scene.id s0 = Ref.source_scene ref)) as [Heq|Hneq].
  - repeat split; simpl; try done.
    apply (Hdlg (fix_choice scene_ids ref)). intros c0 c HR.
    specialize (Hstep _ _ _ HR). by rewrite decide_True in Hstep.
  - repeat split; try done.
    specialize (Hdlg (λ c, c)).
    assert (Hsame : ∀ l : list Dialogue.t,
      (λ d, match Dialogue.choices d with
            | Some cs => Dialogue.with_choices d ((λ c, c) <$> cs)
            | None => d
            end) <$> l = l).
    { induction l as [|d l IHl]; [done|]. rewrite fmap_cons, IHl. f_equal.
      destruct (Dialogue.choices d) eqn:Hc; [|done].
      rewrite list_fmap_id. destruct d; simpl in *. by rewrite Hc. }
    rewrite Hsame in Hdlg. apply Hdlg. intros c0 c HR.
    specialize (Hstep _ _ _ HR). by rewrite decide_False in Hstep.
Qed.

Lemma repair_references_rel scene_ids ss0 refs : ∀ ss,
  scene_ids ≠ [] →
  Forall (λ ref, ¬ valid_target scene_ids (Ref.next_scene ref)) refs →
  Forall2 (scene_rel (pending scene_ids refs) (λ _, False)) ss0 ss →
  Forall2 (scene_rel (pending scene_ids []) (λ _, False)) ss0
    (repair_references scene_ids refs ss).
Proof.
  unfold repair_references.
  induction refs as [|ref refs IH]; intros ss Hne Hbad Hrel; [done|].
  simpl. apply Forall_cons in Hbad as [Hb Hbad]. apply IH; [done..|].
  eapply fix_reference_rel; [|exact Hrel].
  intros sid c0 c. by apply pending_step.
Qed.

Lemma invalid_refs_of_bad scene_ids refs :
  Forall (λ ref, ¬ valid_target scene_ids (Ref.next_scene ref))
         (invalid_refs_of scene_ids refs).
Proof.
  apply Forall_forall. intros ref Hin. apply list_elem_of_filter in Hin as [[H1 H2] _].
  intros [|]; done.
Qed.

Lemma pending_initial scene_ids ss :
  Forall2 (scene_rel (pending scene_ids (invalid_refs_of scene_ids (collect_refs ss)))
                     (λ _, False)) ss ss.
Proof.
  apply Forall_Forall2_diag, Forall_forall. intros s Hs.
  apply scene_rel_diag. intros d cs c Hd Hcs Hc.
  split; [done|]. split; [by left|]. intros n Hn Hbad.
  apply list_elem_of_filter. split.
  - simpl. split; intros ?; apply Hbad; [by left|by right].
  - apply collect_refs_elem. exists c. simpl. split; [|done]. by exists s, d, cs.
Qed.

Lemma pending_done scene_ids sid c0 c :
  pending scene_ids [] sid c0 c → repaired scene_ids c0 c.
Proof.
  intros (Ht & Hc & Hp). split; [done|].
  destruct (Choice.nextScene c0) as [n|] eqn:Hn0.
  - destruct (decide (valid_target scene_ids n)) as [Hv|Hv].
    + destruct Hc as [->|(m & m' & Hm & Hbad & _)]; [done|]. congruence.
    + destruct Hc as [->|(m & m' & Hm & Hbad & Hm' & Hok)].
      * specialize (Hp n Hn0 Hv). by apply elem_of_nil in Hp.
      * by exists m'.
  - destruct Hc as [->|(m & m' & Hm & _)]; [done|]. congruence.
Qed.

(** The first pass relates every choice to its repaired form; no choice
    is added. *)
Lemma reference_repair_rel scene_ids ss :
  scene_ids ≠ [] →
  Forall2 (scene_rel (λ _, repaired scene_ids) (λ _, False)) ss
    (repair_references scene_ids (invalid_refs_of scene_ids (collect_refs ss)) ss).
Proof.
  intros Hne.
  eapply Forall2_impl.
  - apply repair_references_rel; [done|apply invalid_refs_of_bad|apply pending_initial].
  - intros s s'. apply scene_rel_mono; [|done]. intros sid c c'. apply pending_done.
Qed.

(** ** Reachability repair *)

Lemma append_first_choices_rel (R : Choice.t → Choice.t → Prop) (A : Choice.t → Prop) c ds0 ds :
  A c → Forall2 (dialogue_rel R A) ds0 ds →
  Forall2 (dialogue_rel R A) ds0 (append_first_choices c ds).
Proof.
  intros HA. induction 1 as [|d0 d ds0 ds Hd Hds IH]; simpl; [constructor|].
  destruct (Dialogue.choices d) as [cs|] eqn:Hcs.
  - constructor; [|done]. destruct Hd as (? & ? & ? & Hch).
    repeat split; simpl; try done. unfold choices_rel in *. rewrite Hcs in Hch.
    destruct (Dialogue.choices d0) as [cs0|]; [|done].
    destruct Hch as (kept & added & -> & Hk & Ha).
    exists kept, (added ++ [c]). rewrite app_assoc. repeat split; [done|].
    apply Forall_app. split; [done|]. by repeat constructor.
  - by constructor.
Qed.

Lemma append_last_choices_rel (R : Choice.t → Choice.t → Prop) (A : Choice.t → Prop) c ds0 ds :
  A c → Forall2 (dialogue_rel R A) ds0 ds →
  Forall2 (dialogue_rel R A) ds0 (append_last_choices c ds).
Proof.
  intros HA Hrel. unfold append_last_choices.
  rewrite <- (reverse_involutive ds0). apply Forall2_reverse.
  apply append_first_choices_rel; [done|]. by apply Forall2_reverse.
Qed.

Lemma add_connection_rel (R : string → Choice.t → Choice.t → Prop) (A : Choice.t → Prop)
    source_scene_id scene_id ss0 ss :
  A (new_path_choice scene_id) → Forall2 (scene_rel R A) ss0 ss →
  Forall2 (scene_rel R A) ss0 (add_connection source_scene_id scene_id ss).
Proof.
  intros HA Hrel. unfold add_connection. apply Forall2_fmap_r.
  eapply Forall2_impl; [exact Hrel|]. intros s0 s (Hid & Hbg & Hch & Hgw & Hds).
  unfold compose. destruct (decide (Scene.id s = source_scene_id)); [|done].
  repeat split; simpl; try done. by apply append_last_choices_rel.
Qed.

Lemma random_choice_elem `{Random} k seq x : random_choice k seq = Ok x → x ∈ seq.
Proof.
  unfold random_choice. destruct (seq !! _) eqn:Hl; [|done].
  intros [= <-]. eapply list_elem_of_lookup_2; eauto.
Qed.

Lemma random_choice_Ok `{Random} k seq : seq ≠ [] → ∃ x, random_choice k seq = Ok x.
Proof.
  intros Hne. unfold random_choice.
  destruct (lookup_lt_is_Some_2 seq (entropy k mod length seq)) as [x Hx].
  - apply Nat.mod_upper_bound. by destruct seq.
  - exists x. by rewrite Hx.
Qed.

Lemma connect_unreachable_rel `{PySet} `{Random}
    (R : string → Choice.t → Choice.t → Prop) (A : Choice.t → Prop)
    reachable ss0 unreachable : ∀ k ss out,
  Forall (λ scene_id, A (new_path_choice scene_id)) unreachable →
  Forall2 (scene_rel R A) ss0 ss →
  connect_unreachable k reachable unreachable ss = Ok out →
  Forall2 (scene_rel R A) ss0 out.
Proof.
  induction unreachable as [|x rest IH]; intros k ss out HA Hrel Hrun; simpl in Hrun.
  - by injection Hrun as <-.
  - apply Forall_cons in HA as [Hx HA].
    destruct (random_choice k (set_iter reachable)) as [src|] eqn:Hsrc; [|done].
    simpl in Hrun. eapply IH; [done| |exact Hrun]. by apply add_connection_rel.
Qed.

Lemma connect_unreachable_Ok `{PySet} `{Random} reachable unreachable : ∀ k ss,
  reachable ≠ [] → ∃ out, connect_unreachable k reachable unreachable ss = Ok out.
Proof.
  induction unreachable as [|x rest IH]; intros k ss Hne; simpl; [by eexists|].
  destruct (random_choice_Ok k (set_iter reachable)) as [src ->].
  - intros Hnil. destruct reachable as [|r l]; [done|].
    assert (Hin : r ∈ set_iter (r :: l)) by (apply set_iter_elem, list_elem_of_here).
    rewrite Hnil in Hin. by apply elem_of_nil in Hin.
  - simpl. by apply IH.
Qed.

Lemma append_first_choices_new c ds :
  (∃ d, d ∈ ds ∧ is_Some (Dialogue.choices d)) →
  ∃ d' cs, d' ∈ append_first_choices c ds ∧ Dialogue.choices d' = Some cs ∧ c ∈ cs.
Proof.
  induction ds as [|d ds IH]; intros (d1 & Hin & Hsome).
  - by apply elem_of_nil in Hin.
  - simpl. destruct (Dialogue.choices d) as [cs|] eqn:Hcs.
    + exists (Dialogue.with_choices d (cs ++ [c])), (cs ++ [c]).
      split; [apply list_elem_of_here|]. split; [done|].
      apply elem_of_app. right. apply list_elem_of_here.
    + apply elem_of_cons in Hin as [->|Hin].
      * rewrite Hcs in Hsome. by destruct Hsome.
      * destruct IH as (d' & cs' & Hd' & Hcs' & Hc); [by exists d1|].
        exists d', cs'. split; [by apply list_elem_of_further|done].
Qed.

Lemma add_connection_new source_scene_id scene_id ss :
  hosts_choices ss source_scene_id →
  has_choice (add_connection source_scene_id scene_id ss) source_scene_id
             (new_path_choice scene_id).
Proof.
  intros (s & d & Hs & Hid & Hd & Hsome).
  destruct (append_first_choices_new (new_path_choice scene_id)
              (reverse (Scene.dialogue s))) as (d' & cs & Hd' & Hcs & Hc).
  { exists d. split; [by apply elem_of_reverse|done]. }
  exists (Scene.with_dialogue s
            (append_last_choices (new_path_choice scene_id) (Scene.dialogue s))), d', cs.
  repeat split; try done.
  - unfold add_connection. apply list_elem_of_fmap. exists s. split; [|done].
    by rewrite decide_True.
  - simpl. unfold append_last_choices. by apply elem_of_reverse.
Qed.

(** The choice added for an unreachable scene is there at the end, when
    the source drawn for it hosts choices. *)
Lemma connect_unreachable_new `{PySet} `{Random} reachable unreachable : ∀ k ss out i x src,
  connect_unreachable k reachable unreachable ss = Ok out →
  unreachable !! i = Some x →
  random_choice (k + i) (set_iter reachable) = Ok src →
  hosts_choices ss src →
  has_choice out src (new_path_choice x).
Proof.
  induction unreachable as [|y rest IH]; intros k ss out i x src Hrun Hi Hsrc Hhost;
    [done|].
  simpl in Hrun.
  destruct (random_choice k (set_iter reachable)) as [src0|] eqn:Hsrc0; [|done].
  simpl in Hrun. destruct i as [|i]; simpl in Hi.
  - injection Hi as ->. rewrite Nat.add_0_r in Hsrc. rewrite Hsrc in Hsrc0.
    injection Hsrc0 as <-.
    pose proof (add_connection_new src x ss Hhost) as Hnew.
    assert (Hrel : Forall2 (scene_rel (λ _, eq) (λ _, True))
                     (add_connection src x ss) out).
    { eapply connect_unreachable_rel; [|  |exact Hrun].
      - by apply Forall_forall.
      - apply Forall_Forall2_diag, Forall_forall. intros s _. by apply scene_rel_diag. }
    destruct (scenes_rel_has_choice _ _ _ _ _ _ Hrel Hnew) as (c' & Hc' & <-). done.
  - eapply (IH (S k) _ out i x src Hrun Hi).
    + by replace (S k + i) with (k + S i) by lia.
    + eapply scenes_rel_hosts; [|exact Hhost].
      apply (add_connection_rel (λ _, eq) (λ _, True)); [done|].
      apply Forall_Forall2_diag, Forall_forall. intros s _. by apply scene_rel_diag.
Qed.

(** ** The reachability loop *)

Lemma set_add_elem x y s : y ∈ set_add x s ↔ y = x ∨ y ∈ s.
Proof.
  unfold set_add. destruct (decide (x ∈ s)).
  - split; [by right|]. by intros [->|].
  - rewrite elem_of_app, list_elem_of_singleton. tauto.
Qed.

Lemma set_add_NoDup x s : NoDup s → NoDup (set_add x s).
Proof.
  intros Hs. unfold set_add. destruct (decide (x ∈ s)); [done|].
  apply NoDup_app. split; [done|]. split; [|apply NoDup_singleton].
  intros y Hy ->%list_elem_of_singleton. done.
Qed.

Lemma expand_pass_incl refs : ∀ reachable x,
  x ∈ reachable → x ∈ expand_pass refs reachable.
Proof.
  unfold expand_pass. induction refs as [|ref refs IH]; intros r x Hx; simpl; [done|].
  apply IH. destruct (decide _); [|done]. apply set_add_elem. by right.
Qed.

Lemma expand_pass_NoDup refs : ∀ reachable,
  NoDup reachable → NoDup (expand_pass refs reachable).
Proof.
  unfold expand_pass. induction refs as [|ref refs IH]; intros r Hr; simpl; [done|].
  apply IH. destruct (decide _); [|done]. by apply set_add_NoDup.
Qed.

Lemma expand_pass_bound refs (U : list string) : ∀ reachable,
  (∀ x, x ∈ reachable → x ∈ U) →
  (∀ ref, ref ∈ refs → Ref.next_scene ref ∈ U) →
  ∀ x, x ∈ expand_pass refs reachable → x ∈ U.
Proof.
  unfold expand_pass. induction refs as [|ref refs IH]; intros r Hr Hrefs x; simpl; [auto|].
  apply IH.
  - intros y. destruct (decide _); [|auto]. rewrite set_add_elem.
    intros [->|]; [|auto]. apply Hrefs, list_elem_of_here.
  - intros ref' Hin. by apply Hrefs, list_elem_of_further.
Qed.

Lemma expand_pass_sound refs seeds part : ∀ reachable,
  (∀ ref, ref ∈ part → ref ∈ refs) →
  Forall (ref_reachable refs seeds) reachable →
  Forall (ref_reachable refs seeds) (expand_pass part reachable).
Proof.
  unfold expand_pass. induction part as [|ref part IH]; intros r Hsub Hr; simpl; [done|].
  apply IH; [intros ??; by apply Hsub, list_elem_of_further|].
  destruct (decide _) as [[Hsrc Hnx]|]; [|done].
  apply Forall_forall. intros x. rewrite set_add_elem. intros [->|Hx].
  - apply ref_step; [apply Hsub, list_elem_of_here| |done].
    by apply (proj1 (Forall_forall _ _) Hr).
  - by apply (proj1 (Forall_forall _ _) Hr).
Qed.

Lemma expand_terminates refs (U : list string) : ∀ fuel reachable old_size,
  NoDup reachable →
  (∀ x, x ∈ reachable → x ∈ U) →
  (∀ ref, ref ∈ refs → Ref.next_scene ref ∈ U) →
  length U + 1 ≤ fuel + old_size →
  ∃ result, expand fuel refs reachable old_size = Some result.
Proof.
  induction fuel as [|fuel IH]; intros r old Hnd Hr Hrefs Hfuel; simpl.
  - assert (length r ≤ length U)
      by (apply submseteq_length, NoDup_submseteq; auto).
    destruct (decide (old < length r)); [lia|by eexists].
  - destruct (decide (old < length r)); [|by eexists].
    assert (length r ≤ length U)
      by (apply submseteq_length, NoDup_submseteq; auto).
    apply IH; [by apply expand_pass_NoDup| |done|lia].
    by apply expand_pass_bound.
Qed.

Lemma expand_sound refs seeds : ∀ fuel reachable old_size result,
  Forall (ref_reachable refs seeds) reachable →
  expand fuel refs reachable old_size = Some result →
  Forall (ref_reachable refs seeds) result.
Proof.
  induction fuel as [|fuel IH]; intros r old res Hr; simpl;
    destruct (decide (old < length r)); try done; try by intros [= <-].
  apply IH. by apply expand_pass_sound.
Qed.

Lemma expand_incl refs : ∀ fuel reachable old_size result x,
  expand fuel refs reachable old_size = Some result → x ∈ reachable → x ∈ result.
Proof.
  induction fuel as [|fuel IH]; intros r old res x; simpl;
    destruct (decide (old < length r)); try done; try by intros [= <-].
  intros Hrun Hx. eapply IH; [exact Hrun|]. by apply expand_pass_incl.
Qed.

Lemma entry_set_Ok scene_ids :
  scene_ids ≠ [] → ∃ seeds, entry_set scene_ids = Ok seeds.
Proof.
  intros Hne. unfold entry_set. destruct (existsb _ _); [by eexists|].
  destruct scene_ids; [done|by eexists].
Qed.

Lemma entry_set_shape scene_ids seeds :
  entry_set scene_ids = Ok seeds →
  seeds ≠ [] ∧ NoDup seeds ∧ length seeds ≤ 2.
Proof.
  unfold entry_set. destruct (existsb _ _).
  - intros [= <-]. split; [done|]. split; [|simpl; lia].
    apply NoDup_cons. split; [|apply NoDup_singleton].
    intros Hin%list_elem_of_singleton. done.
  - destruct scene_ids as [|first l]; [done|]. intros [= <-].
    split; [done|]. split; [apply NoDup_singleton|simpl; lia].
Qed.

Lemma reachable_set_Ok scene_ids refs :
  scene_ids ≠ [] → ∃ reachable, reachable_set scene_ids refs = Ok reachable.
Proof.
  intros Hne. unfold reachable_set.
  destruct (entry_set_Ok scene_ids Hne) as [seeds Hseeds]. rewrite Hseeds. simpl.
  destruct (entry_set_shape _ _ Hseeds) as (_ & Hnd & Hlen).
  destruct (expand_terminates refs (seeds ++ (Ref.next_scene <$> refs))
              (length refs + 3) seeds 0) as [res ->]; [done| | | |by eexists].
  - intros x Hx. apply elem_of_app. by left.
  - intros ref Hin. apply elem_of_app. right. by apply list_elem_of_fmap_2.
  - rewrite length_app, length_fmap. lia.
Qed.

Lemma reachable_set_sound scene_ids refs reachable :
  reachable_set scene_ids refs = Ok reachable →
  reachable ≠ [] ∧ Forall (ref_reachable refs (seeds_of scene_ids)) reachable.
Proof.
  unfold reachable_set, seeds_of.
  destruct (entry_set scene_ids) as [seeds|] eqn:Hseeds; [|done]. simpl.
  destruct (expand _ _ _ _) as [res|] eqn:Hrun; [|done]. intros [= <-].
  destruct (entry_set_shape _ _ Hseeds) as (Hne & _). split.
  - destruct seeds as [|x l]; [done|].
    assert (Hin : x ∈ res)
      by (eapply expand_incl; [exact Hrun|apply list_elem_of_here]).
    intros ->. by apply elem_of_nil in Hin.
  - eapply expand_sound; [|exact Hrun]. apply Forall_forall. intros x Hx.
    by apply ref_seed.
Qed.

(** ** The validator as a whole *)

Section Validator.
Context `{PySet} `{Random}.

Lemma scene_ids_of_elem scenes x :
  x ∈ scene_ids_of scenes ↔ x ∈ Scene.id <$> scenes.
Proof. apply set_iter_elem. Qed.

Lemma scene_ids_of_nonempty scenes : scenes ≠ [] → scene_ids_of scenes ≠ [].
Proof.
  intros Hne Hnil. destruct scenes as [|s l]; [done|].
  assert (Hin : Scene.id s ∈ scene_ids_of (s :: l))
    by (apply scene_ids_of_elem; rewrite fmap_cons; apply list_elem_of_here).
  rewrite Hnil in Hin. by apply elem_of_nil in Hin.
Qed.

Lemma scene_ids_of_nil : scene_ids_of [] = [].
Proof.
  unfold scene_ids_of. rewrite fmap_nil.
  pose proof (set_iter_elem []) as Hs. destruct (set_iter []) as [|x l]; [done|].
  pose proof (proj1 (Hs x) (list_elem_of_here x l)) as Hin. by apply elem_of_nil in Hin.
Qed.

(** The validator returns on every script that has a scene, and its
    result is that of the two passes. *)
Lemma validate_returns script_data :
  Script.scenes script_data ≠ [] →
  let scenes := Script.scenes script_data in
  let scene_ids := scene_ids_of scenes in
  ∃ reachable repaired_scenes,
    reachable_set scene_ids (collect_refs scenes) = Ok reachable ∧
    connect_unreachable 0 reachable (unreachable_of scene_ids reachable)
      (repair_references scene_ids (invalid_refs_of scene_ids (collect_refs scenes)) scenes)
      = Ok repaired_scenes ∧
    validate_and_fix_scene_connections script_data
      = Ok (Script.with_scenes script_data repaired_scenes).
Proof.
  intros Hne scenes scene_ids.
  destruct (reachable_set_Ok scene_ids (collect_refs scenes)) as [reachable Hr];
    [by apply scene_ids_of_nonempty|].
  destruct (reachable_set_sound _ _ _ Hr) as [Hrne _].
  destruct (connect_unreachable_Ok reachable (unreachable_of scene_ids reachable) 0
    (repair_references scene_ids (invalid_refs_of scene_ids (collect_refs scenes)) scenes)
    Hrne) as [out Hout].
  exists reachable, out. split; [done|]. split; [done|].
  unfold validate_and_fix_scene_connections. fold scenes. fold scene_ids.
  rewrite Hr. simpl. rewrite Hout. done.
Qed.

Lemma validate_raises script_data :
  Script.scenes script_data = [] →
  validate_and_fix_scene_connections script_data = Raise StopIteration.
Proof.
  intros Hnil. unfold validate_and_fix_scene_connections. rewrite Hnil.
  rewrite scene_ids_of_nil. done.
Qed.

Lemma unreachable_of_elem scene_ids reachable x :
  x ∈ unreachable_of scene_ids reachable ↔ x ∈ scene_ids ∧ x ∉ reachable.
Proof.
  unfold unreachable_of. rewrite set_iter_elem, list_elem_of_filter. tauto.
Qed.

Lemma passes_frame scenes reachable out :
  scenes ≠ [] →
  let scene_ids := scene_ids_of scenes in
  connect_unreachable 0 reachable (unreachable_of scene_ids reachable)
    (repair_references scene_ids (invalid_refs_of scene_ids (collect_refs scenes)) scenes)
    = Ok out →
  Forall2 (scene_frame scene_ids) scenes out.
Proof.
  intros Hne scene_ids Hrun. unfold scene_frame.
  eapply connect_unreachable_rel; [| |exact Hrun].
  - apply Forall_forall. intros x Hx. apply unreachable_of_elem in Hx as [Hx _].
    by exists x.
  - eapply Forall2_impl.
    + apply reference_repair_rel. by apply scene_ids_of_nonempty.
    + intros s s'. by apply scene_rel_mono.
Qed.

Lemma ref_reachable_transfer scenes out seeds x :
  Forall2 (scene_frame (scene_ids_of scenes)) scenes out →
  ref_reachable (collect_refs scenes) seeds x →
  x ∈ Scene.id <$> scenes →
  ∃ seed, seed ∈ seeds ∧ reachable_from out seed x.
Proof.
  intros Hrel. induction 1 as [x Hseed|ref Hin Hsrc IH Hnx]; intros Hid.
  - exists x. split; [done|constructor].
  - destruct IH as (seed & Hseed & Hreach); [by eapply collect_refs_source|].
    exists seed. split; [done|]. eapply reach_step; [exact Hreach|].
    apply collect_refs_elem in Hin as (c & Hc & _ & Hn).
    destruct (scenes_rel_has_choice _ _ _ _ _ _ Hrel Hc) as (c' & Hc' & _ & Hrep).
    rewrite Hn in Hrep. rewrite decide_True in Hrep
      by (left; by apply scene_ids_of_elem).
    destruct Hc' as (s & d & cs & ? & ? & ? & ? & ?).
    by exists s, d, cs, c'.
Qed.
End Validator.

(** ** C10, C1, C2 *)

Section ValidatorClaims.
Context `{PySet} `{Random}.

(** C10. The validator never removes anything: when it returns, the
    output has the same scenes with the same ids in the same order, every
    dialogue entry keeps its speaker, text and character, an entry without
    a choices list stays without one, every existing choice is kept with
    its text, its target is rewritten only if it was dangling, and all
    other changes are choices appended to an entry that already carries a
    choices list. It raises only on a script without scenes. *)
Theorem validate_only_repairs script_data :
  match validate_and_fix_scene_connections script_data with
  | Ok out =>
      script_frame (scene_ids_of (Script.scenes script_data)) script_data out
  | Raise e => Script.scenes script_data = [] ∧ e = StopIteration
  end.
Proof.
  destruct (decide (Script.scenes script_data = [])) as [Hnil|Hne].
  - by rewrite (validate_raises _ Hnil).
  - destruct (validate_returns _ Hne) as (reachable & out & Hr & Hrun & ->).
    split; [done|]. simpl. by eapply passes_frame.
Qed.

(** C1. On a script with at least one scene the validator returns, and
    in its output every choice that names a next scene names ["exit"] or
    the id of a scene of the output. *)
Theorem no_dangling_references script_data :
  Script.scenes script_data ≠ [] →
  ∃ out,
    validate_and_fix_scene_connections script_data = Ok out ∧
    ∀ scene d cs c n,
      scene ∈ Script.scenes out → d ∈ Scene.dialogue scene →
      Dialogue.choices d = Some cs → c ∈ cs → Choice.nextScene c = Some n →
      n = "exit" ∨ n ∈ Scene.id <$> Script.scenes out.
Proof.
  intros Hne.
  destruct (validate_returns _ Hne) as (reachable & out & Hr & Hrun & ->).
  eexists. split; [done|]. simpl.
  pose proof (passes_frame _ _ _ Hne Hrun) as Hrel.
  set (scene_ids := scene_ids_of (Script.scenes script_data)) in *.
  assert (Hids : ∀ n, n ∈ scene_ids → n ∈ Scene.id <$> out).
  { intros n Hn. rewrite (scenes_rel_ids _ _ _ _ Hrel). by apply scene_ids_of_elem. }
  intros s d cs c n Hs Hd Hcs Hc Hn.
  apply list_elem_of_lookup in Hs as [i Hi].
  destruct (Forall2_lookup_r _ _ _ _ _ Hrel Hi) as (s0 & _ & _ & _ & _ & _ & Hds).
  apply list_elem_of_lookup in Hd as [j Hj].
  destruct (Forall2_lookup_r _ _ _ _ _ Hds Hj) as (d0 & _ & _ & _ & _ & Hch).
  unfold choices_rel in Hch. rewrite Hcs in Hch.
  destruct (Dialogue.choices d0) as [cs0|]; [|done].
  destruct Hch as (kept & added & -> & Hk & Ha).
  apply elem_of_app in Hc as [Hc|Hc].
  - apply list_elem_of_lookup in Hc as [k Hk'].
    destruct (Forall2_lookup_r _ _ _ _ _ Hk Hk') as (c0 & _ & _ & Hrep).
    destruct (Choice.nextScene c0) as [n0|]; [|congruence].
    destruct (decide (valid_target scene_ids n0)) as [Hv|Hv].
    + rewrite Hn in Hrep. injection Hrep as ->. destruct Hv; auto.
    + destruct Hrep as (n' & Hn' & Hin). rewrite Hn in Hn'. injection Hn' as ->. auto.
  - apply (proj1 (Forall_forall _ _) Ha) in Hc as (x & Hx & ->).
    simpl in Hn. injection Hn as <-. auto.
Qed.

(** X17. What the reachability repair does achieve. On a script with at
    least one scene the validator returns, and every scene id other than
    ["exit"] is then reachable over forward choice edges from one of the
    ids the validator starts from ([scene_intro] and [scene_1] when one of
    them is a scene, else one scene), provided every source it draws for an
    unreachable scene is a scene with a dialogue entry that carries a
    choices list. *)
Theorem reachable_after_repair script_data :
  Script.scenes script_data ≠ [] →
  drawn_sources_host_choices script_data →
  ∃ out,
    validate_and_fix_scene_connections script_data = Ok out ∧
    ∀ scene_id,
      scene_id ∈ Scene.id <$> Script.scenes out → scene_id ≠ "exit" →
      ∃ seed, seed ∈ seeds_of (scene_ids_of (Script.scenes script_data)) ∧
              reachable_from (Script.scenes out) seed scene_id.
Proof.
  intros Hne Hdraw.
  destruct (validate_returns _ Hne) as (reachable & out & Hr & Hrun & ->).
  eexists. split; [done|]. simpl.
  pose proof (passes_frame _ _ _ Hne Hrun) as Hrel.
  destruct (reachable_set_sound _ _ _ Hr) as [_ Hsound].
  set (scenes := Script.scenes script_data) in *.
  set (scene_ids := scene_ids_of scenes) in *.
  intros x Hx Hexit. rewrite (scenes_rel_ids _ _ _ _ Hrel) in Hx.
  destruct (decide (x ∈ reachable)) as [Hin|Hout].
  - eapply ref_reachable_transfer; [exact Hrel| |done].
    by apply (proj1 (Forall_forall _ _) Hsound).
  - assert (Hun : x ∈ unreachable_of scene_ids reachable)
      by (apply unreachable_of_elem; split; [by apply scene_ids_of_elem|done]).
    apply list_elem_of_lookup in Hun as [i Hi].
    destruct (Hdraw reachable i x Hr Hi) as (src & Hsrc & Hhost).
    assert (Hnew : has_choice out src (new_path_choice x)).
    { eapply (connect_unreachable_new _ _ 0); [exact Hrun|exact Hi|exact Hsrc|].
      eapply scenes_rel_hosts; [|exact Hhost].
      apply reference_repair_rel. by apply scene_ids_of_nonempty. }
    destruct (ref_reachable_transfer scenes out (seeds_of scene_ids) src Hrel)
      as (seed & Hseed & Hreach).
    + apply (proj1 (Forall_forall _ _) Hsound).
      apply random_choice_elem in Hsrc. exact (proj1 (set_iter_elem _ _) Hsrc).
    + destruct Hhost as (s & _ & Hs & <- & _). by apply list_elem_of_fmap_2.
    + exists seed. split; [done|]. eapply reach_step; [exact Hreach|].
      destruct Hnew as (s & d & cs & ? & ? & ? & ? & ?).
      by exists s, d, cs, (new_path_choice x).
Qed.
End ValidatorClaims.

Lemma no_dangling_references_witness :
  ∃ out,
    @validate_and_fix_scene_connections first_seen_order (constant_draws 1)
      dangling_script = Ok out ∧
    ∀ scene d cs c n,
      scene ∈ Script.scenes out → d ∈ Scene.dialogue scene →
      Dialogue.choices d = Some cs → c ∈ cs → Choice.nextScene c = Some n →
      n = "exit" ∨ n ∈ Scene.id <$> Script.scenes out.
Proof.
  apply (@no_dangling_references first_seen_order (constant_draws 1) dangling_script).
  simpl. discriminate.
Defined.

Lemma dangling_script_sources_host :
  @drawn_sources_host_choices first_seen_order (constant_draws 1) dangling_script.
Proof.
  intros reachable k scene_id Hr Hk. vm_compute in Hr. injection Hr as <-.
  exists "scene_1". split.
  - reflexivity.
  - exists (choice_scene "scene_1" [connection_choice "scene_2"]),
           (choice_prompt [connection_choice "scene_2"]).
    repeat split.
    + apply list_elem_of_here.
    + apply list_elem_of_further, list_elem_of_here.
    + by eexists.
Qed.

Lemma reachable_after_repair_witness :
  ∃ out,
    @validate_and_fix_scene_connections first_seen_order (constant_draws 1)
      dangling_script = Ok out ∧
    ∀ scene_id,
      scene_id ∈ Scene.id <$> Script.scenes out → scene_id ≠ "exit" →
      ∃ seed, seed ∈ seeds_of (@scene_ids_of first_seen_order (Script.scenes dangling_script)) ∧
              reachable_from (Script.scenes out) seed scene_id.
Proof.
  apply (@reachable_after_repair first_seen_order (constant_draws 1) dangling_script).
  - simpl. discriminate.
  - apply dangling_script_sources_host.
Defined.

Lemma no_edge_no_path scenes entry x :
  (∀ a b, ¬ edge scenes a b) → reachable_from scenes entry x → x = entry.
Proof.
  intros Hno. induction 1 as [|a b _ _ Hedge]; [done|]. by destruct (Hno a b).
Qed.

Lemma silent_scene_frame scene_ids scene_id scene :
  scene_frame scene_ids (silent_scene scene_id) scene → scene = silent_scene scene_id.
Proof.
  intros (Hid & Hbg & Hch & Hgw & Hds). destruct scene as [i b c ds g]. simpl in *.
  subst. unfold silent_scene. f_equal.
  apply Forall2_cons_inv_l in Hds as (d & ds' & (Hsp & Htx & Hcr & Hcs) & Hnil & ->).
  apply Forall2_nil_inv_l in Hnil as ->.
  destruct d as [sp tx cr cs]. simpl in *. subst. by destruct cs.
Qed.

(** Whatever the iteration order of sets and the random draws, the
    validator hands back the two silent scenes as they are. *)
Lemma silent_script_unchanged `{PySet} `{Random} :
  validate_and_fix_scene_connections silent_script = Ok silent_script.
Proof.
  destruct (validate_returns silent_script) as (reachable & out & _ & Hrun & ->); [done|].
  apply passes_frame in Hrun; [|done]. simpl in Hrun.
  apply Forall2_cons_inv_l in Hrun as (s1 & l1 & H1 & Hrun & ->).
  apply Forall2_cons_inv_l in Hrun as (s2 & l2 & H2 & Hrun & ->).
  apply Forall2_nil_inv_l in Hrun as ->.
  apply silent_scene_frame in H1 as ->. apply silent_scene_frame in H2 as ->. done.
Qed.

(** The end-to-end example of the specification. Iterating sets in
    first-seen order, the dangling choice of [scene_1] falls back to
    [scene_1] itself and [scene_3] gets its inbound choice from the repair
    pass; in the reverse order the dangling choice falls back to [scene_3],
    which the stale references still count as unreachable. *)
Example validate_dangling_script_first_seen :
  @validate_and_fix_scene_connections first_seen_order (constant_draws 1) dangling_script
  = Ok (Script.with_scenes dangling_script
          [choice_scene "scene_1" [Choice.mk "Continue to scene_2" (Some "scene_1");
                                   new_path_choice "scene_3"];
           choice_scene "scene_3" []]).
Proof. reflexivity. Qed.

Example validate_dangling_script_last_seen :
  @validate_and_fix_scene_connections last_seen_order (constant_draws 1) dangling_script
  = Ok (Script.with_scenes dangling_script
          [choice_scene "scene_1" [Choice.mk "Continue to scene_2" (Some "scene_3");
                                   new_path_choice "scene_3"];
           choice_scene "scene_3" []]).
Proof. reflexivity. Qed.

Lemma singleton_list (l : list string) x :
  NoDup l → (∀ y, y ∈ l ↔ y = x) → l = [x].
Proof.
  intros Hnd Hl. destruct l as [|a [|b l]].
  - pose proof (proj2 (Hl x) eq_refl) as Hx. by apply elem_of_nil in Hx.
  - f_equal. apply Hl, list_elem_of_here.
  - exfalso. apply NoDup_cons in Hnd as [Hab _].
    assert (a = x) as -> by apply Hl, list_elem_of_here.
    assert (b = x) as -> by apply Hl, list_elem_of_further, list_elem_of_here.
    apply Hab, list_elem_of_here.
Qed.

(** C2, on the code. The docstring of the validator promises that all
    scenes are reachable, and its repair loop that the source it draws is
    a reachable scene; the code keeps neither promise. Whatever the
    iteration order of sets and the random draws, the two silent scenes
    come back unchanged: [scene_1] is the designated entry, and [scene_2]
    cannot be reached from it, no scene having a choices list to extend.
    And whenever the draw falls on [scene_intro], which the validator
    counts as reachable although it is no scene of the script, nothing is
    appended, although [scene_1] has a choices list: [scene_3] stays out of
    reach. *)
Theorem unreachable_scenes_remain `{PySet} `{Random} :
  (validate_and_fix_scene_connections silent_script = Ok silent_script ∧
   designated_entry (scene_ids_of (Script.scenes silent_script)) = Some "scene_1" ∧
   "scene_2" ∈ Scene.id <$> Script.scenes silent_script ∧
   ¬ reachable_from (Script.scenes silent_script) "scene_1" "scene_2") ∧
  (random_choice 0 (set_iter ["scene_intro"; "scene_1"]) = Ok "scene_intro" →
   validate_and_fix_scene_connections open_script = Ok open_script ∧
   designated_entry (scene_ids_of (Script.scenes open_script)) = Some "scene_1" ∧
   hosts_choices (Script.scenes open_script) "scene_1" ∧
   ("scene_intro" ∉ Scene.id <$> Script.scenes open_script) ∧
   "scene_3" ∈ Scene.id <$> Script.scenes open_script ∧
   ¬ reachable_from (Script.scenes open_script) "scene_1" "scene_3").
Proof.
  assert (Hentry : ∀ other,
    other ≠ "scene_intro" →
    designated_entry (set_iter ["scene_1"; other]) = Some "scene_1").
  { intros other Hother. unfold designated_entry.
    rewrite decide_False, decide_True; [done| |].
    - apply set_iter_elem, list_elem_of_here.
    - rewrite set_iter_elem, !elem_of_cons, elem_of_nil. by intros [?|[?|[]]]. }
  split.
  - split; [apply silent_script_unchanged|]. split; [by apply Hentry|]. split.
    + simpl. apply list_elem_of_further, list_elem_of_here.
    + intros Hreach. apply no_edge_no_path in Hreach; [done|].
      intros a b (s & d & cs & c & Hs & _ & Hd & Hcs & _).
      simpl in Hs. apply elem_of_cons in Hs as [->|Hs].
      * simpl in Hd. apply list_elem_of_singleton in Hd as ->. done.
      * apply list_elem_of_singleton in Hs as ->.
        simpl in Hd. apply list_elem_of_singleton in Hd as ->. done.
  - intros Hdraw. split; [|split; [by apply Hentry|split; [|split; [|split]]]].
    + unfold validate_and_fix_scene_connections.
      change (collect_refs (Script.scenes open_script)) with (@nil Ref.t).
      set (scene_ids := scene_ids_of (Script.scenes open_script)).
      assert (Hids : ∀ y, y ∈ scene_ids ↔ y = "scene_1" ∨ y = "scene_3").
      { intros y. unfold scene_ids. rewrite scene_ids_of_elem. simpl.
        rewrite elem_of_cons, list_elem_of_singleton. done. }
      assert (Hreach : reachable_set scene_ids [] = Ok ["scene_intro"; "scene_1"]).
      { unfold reachable_set, entry_set. simpl.
        rewrite (bool_decide_eq_true_2 ("scene_1" ∈ scene_ids)) by (apply Hids; by left).
        by rewrite orb_true_r. }
      rewrite Hreach. simpl.
      assert (Hun : unreachable_of scene_ids ["scene_intro"; "scene_1"] = ["scene_3"]).
      { unfold unreachable_of. apply singleton_list; [apply set_iter_NoDup|].
        intros y. rewrite set_iter_elem, list_elem_of_filter, Hids. split.
        - intros [Hout [-> | ->]]; [|done]. destruct Hout.
          apply list_elem_of_further, list_elem_of_here.
        - intros ->. split; [|by right].
          rewrite !elem_of_cons, elem_of_nil. by intros [?|[?|[]]]. }
      rewrite Hun. simpl. rewrite Hdraw. done.
    + exists (choice_scene "scene_1" []), (choice_prompt []).
      split; [apply list_elem_of_here|]. split; [done|].
      split; [apply list_elem_of_further, list_elem_of_here|by eexists].
    + simpl. rewrite !elem_of_cons, elem_of_nil. by intros [?|[?|[]]].
    + simpl. apply list_elem_of_further, list_elem_of_here.
    + intros Hreach. apply no_edge_no_path in Hreach; [done|].
      intros a b (s & d & cs & c & Hs & _ & Hd & Hcs & Hc & _).
      simpl in Hs. apply elem_of_cons in Hs as [->|Hs].
      * simpl in Hd. apply elem_of_cons in Hd as [->|Hd]; [done|].
        apply list_elem_of_singleton in Hd as ->. simpl in Hcs.
        injection Hcs as <-. by apply elem_of_nil in Hc.
      * apply list_elem_of_singleton in Hs as ->.
        simpl in Hd. apply elem_of_cons in Hd as [->|Hd]; [done|].
        apply list_elem_of_singleton in Hd as ->. simpl in Hcs.
        injection Hcs as <-. by apply elem_of_nil in Hc.
Qed.

Lemma unreachable_scenes_remain_witness :
  @random_choice (constant_draws 0) 0 (@set_iter first_seen_order ["scene_intro"; "scene_1"])
    = Ok "scene_intro" ∧
  @validate_and_fix_scene_connections first_seen_order (constant_draws 0) open_script
    = Ok open_script ∧
  ¬ reachable_from (Script.scenes open_script) "scene_1" "scene_3".
Proof.
  assert (Hdraw : @random_choice (constant_draws 0) 0
                    (@set_iter first_seen_order ["scene_intro"; "scene_1"])
                  = Ok "scene_intro") by reflexivity.
  split; [exact Hdraw|].
  destruct (proj2 (@unreachable_scenes_remain first_seen_order (constant_draws 0)) Hdraw)
    as (Hrun & _ & _ & _ & _ & Hout).
  split; [exact Hrun|exact Hout].
Defined.

(** ** C4, C9: create_placeholder_scene *)

Lemma find_character_raises `{TextLib} char_id chars e :
  find_character char_id chars = Raise e → e = AttributeError.
Proof.
  induction chars as [|c chars IH]; simpl; [done|].
  unfold char_matches. destruct (decide _); simpl; [done|].
  destruct (BookCharacter.name c); simpl; [|by intros [= <-]].
  destruct (String.eqb _ _); [done|apply IH].
Qed.

Lemma placeholder_characters_raises `{TextLib} book_analysis char_ids e :
  placeholder_characters book_analysis char_ids = Raise e →
  e = AttributeError ∧ char_ids ≠ [].
Proof.
  induction char_ids as [|char_id rest IH]; simpl; [done|]. intros Hr. split; [|done].
  destruct book_analysis as [ba|]; simpl in Hr; [|by injection Hr as <-].
  destruct (find_character char_id _) as [found|e'] eqn:Hf; simpl in Hr.
  - destruct (placeholder_characters _ rest) as [others|e'']; simpl in Hr.
    + by destruct found.
    + injection Hr as <-. by apply IH.
  - injection Hr as <-. by eapply find_character_raises.
Qed.

Lemma find_character_spec `{TextLib} char_id chars found :
  find_character char_id chars = Ok found →
  match found with
  | Some c => resolves_to chars char_id c
  | None => unresolved chars char_id
  end.
Proof.
  revert found. induction chars as [|c chars IH]; intros found; simpl.
  - intros [= <-]. intros c Hc. by apply elem_of_nil in Hc.
  - unfold char_matches. destruct (decide (BookCharacter.id c = Some char_id)) as [Hid|Hid]; simpl.
    + intros [= <-]. exists [], chars. split; [done|]. split; [by left|].
      intros c' Hc'. by apply elem_of_nil in Hc'.
    + destruct (BookCharacter.name c) as [n|] eqn:Hname; simpl; [|done].
      destruct (String.eqb (lower n) (lower char_id)) eqn:Heq.
      * intros [= <-]. apply String.eqb_eq in Heq.
        exists [], chars. split; [done|]. split; [right; by exists n|].
        intros c' Hc'. by apply elem_of_nil in Hc'.
      * apply String.eqb_neq in Heq.
        assert (Hc : ¬ answers_to char_id c).
        { intros [?|(n' & Hn' & ?)]; [done|]. congruence. }
        intros Hfind. specialize (IH _ Hfind). destruct found as [c'|].
        -- destruct IH as (before & after & -> & Hans & Hbefore).
           exists (c :: before), after. split; [done|]. split; [done|].
           intros x [->|Hx]%elem_of_cons; [done|by apply Hbefore].
        -- intros x [->|Hx]%elem_of_cons; [done|by apply IH].
Qed.

Lemma placeholder_characters_spec `{TextLib} book_analysis char_ids found :
  placeholder_characters book_analysis char_ids = Ok found →
  (found = [] ∧ ∀ x, x ∈ char_ids → unresolved (book_characters book_analysis) x) ∨
  ∃ skipped char_id rest c others,
    char_ids = skipped ++ char_id :: rest ∧
    (∀ x, x ∈ skipped → unresolved (book_characters book_analysis) x) ∧
    resolves_to (book_characters book_analysis) char_id c ∧
    found = {| SceneCharacter.id := default char_id (BookCharacter.id c);
               SceneCharacter.image :=
                 "A character representing " +:+
                 default "a person" (BookCharacter.name c) |} :: others.
Proof.
  revert found. induction char_ids as [|char_id char_ids IH]; intros found; simpl.
  - intros [= <-]. left. split; [done|]. intros x Hx. by apply elem_of_nil in Hx.
  - destruct book_analysis as [ba|]; simpl; [|done].
    destruct (find_character char_id _) as [[c|]|e] eqn:Hfind; simpl; [| |done].
    + apply find_character_spec in Hfind.
      destruct (placeholder_characters (Some ba) char_ids) as [others|e]; simpl; [|done].
      intros [= <-]. right. exists [], char_id, char_ids, c, others.
      split; [done|]. split; [|done]. intros x Hx. by apply elem_of_nil in Hx.
    + apply find_character_spec in Hfind.
      destruct (placeholder_characters (Some ba) char_ids) as [others|e]; simpl; [|done].
      intros [= <-]. destruct (IH others eq_refl) as [[-> Hun]|Hres].
      * left. split; [done|]. intros x [->|Hx]%elem_of_cons; [done|by apply Hun].
      * destruct Hres as (skipped & char_id' & rest & c & others' & -> & Hsk & Hres & ->).
        right. exists (char_id :: skipped), char_id', rest, c, others'.
        split; [done|]. split; [|done].
        intros x [->|Hx]%elem_of_cons; [done|by apply Hsk].
Qed.

(** C4, amended. When [create_placeholder_scene] returns, the scene has
    the given id, its background is the setting of the outline (or the
    default setting), and its dialogue is: the narrator line of setting and
    atmosphere, the narrator line of the description, one character line,
    always, and a last entry with one choice per [connects_to] target, or
    the single ["Continue"] choice when there is none. The character line
    is spoken by the first character of the outline that resolves in the
    book analysis (under the id of the book character it resolves to, or
    the outline's when that character has no id), and by the generic
    ["character"] when no character of the outline resolves. It raises only
    [AttributeError], and only for an outline that names characters. *)
Theorem placeholder_scene_shape `{TextLib} scene_id scene_outline book_analysis :
  let setting := default "An important location" (Outline.setting scene_outline) in
  let atmosphere := default "Creates a specific mood" (Outline.atmosphere scene_outline) in
  let description := default "A scene in the story" (Outline.description scene_outline) in
  let connections := default [] (Outline.connects_to scene_outline) in
  let char_ids := default [] (Outline.characters scene_outline) in
  let chars := book_characters book_analysis in
  match create_placeholder_scene scene_id scene_outline book_analysis with
  | Ok scene =>
      Scene.id scene = scene_id ∧
      Scene.background scene = setting ∧
      ∃ char others,
        Scene.characters scene = char :: others ∧
        ((char = generic_character ∧ others = [] ∧
          ∀ char_id, char_id ∈ char_ids → unresolved chars char_id) ∨
         (∃ skipped char_id rest c,
            char_ids = skipped ++ char_id :: rest ∧
            (∀ x, x ∈ skipped → unresolved chars x) ∧
            resolves_to chars char_id c ∧
            char = {| SceneCharacter.id := default char_id (BookCharacter.id c);
                      SceneCharacter.image :=
                        "A character representing " +:+
                        default "a person" (BookCharacter.name c) |})) ∧
        Scene.dialogue scene =
          [ narrator (setting +:+ ". " +:+ atmosphere +:+ ".");
            narrator description;
            {| Dialogue.speaker := SceneCharacter.id char;
               Dialogue.text := "We need to proceed carefully in this situation.";
               Dialogue.character := Some (SceneCharacter.id char);
               Dialogue.choices := None |};
            choice_prompt (match connections with
                           | [] => [generic_choice]
                           | _ => connection_choice <$> connections
                           end) ]
  | Raise e => e = AttributeError ∧ char_ids ≠ []
  end.
Proof.
  intros setting atmosphere description connections char_ids chars.
  unfold create_placeholder_scene. fold char_ids.
  destruct (placeholder_characters book_analysis char_ids) as [found|e] eqn:Hf; simpl.
  - fold setting atmosphere description connections.
    split; [done|]. split; [done|].
    assert (Hchoices :
      match connection_choice <$> connections with
      | [] => [generic_choice]
      | _ => connection_choice <$> connections
      end = match connections with
            | [] => [generic_choice]
            | _ => connection_choice <$> connections
            end) by (by destruct connections).
    rewrite Hchoices.
    destruct (placeholder_characters_spec _ _ _ Hf) as [[-> Hun]|Hres].
    + exists generic_character, []. split; [done|]. split; [|done]. left. done.
    + destruct Hres as (skipped & char_id & rest & c & others & Hids & Hsk & Hres & ->).
      eexists _, others. split; [done|]. split; [|done].
      right. by exists skipped, char_id, rest, c.
  - by apply (placeholder_characters_raises book_analysis).
Qed.

(** C4 fails as stated: the outline names no character, and the
    placeholder still has a line that is not the narrator's. *)
Lemma character_line_without_character :
  ∃ scene,
    @create_placeholder_scene stub_textlib "scene_9" bare_outline (Some empty_analysis)
      = Ok scene ∧
    Scene.dialogue scene !! 2 = Some (character_line generic_character) ∧
    ¬ character_line_only_if_attached bare_outline scene.
Proof.
  eexists. split; [reflexivity|]. split; [reflexivity|].
  intros Hspec. apply Hspec; [|done].
  exists (character_line generic_character). split; [|done].
  simpl. do 2 apply list_elem_of_further. apply list_elem_of_here.
Qed.

(** C9. [create_placeholder_scene] is a function of its three arguments
    alone: two calls with the same scene id, outline and book analysis give
    the same result (the same exception, or scenes with the same
    background, characters and dialogue, choices included), and the
    failure path of the synthesizer returns that result from every state
    of the cache. *)
Theorem create_placeholder_scene_deterministic `{TextLib}
    scene_id scene_id' scene_outline scene_outline' book_analysis book_analysis' :
  scene_id = scene_id' → scene_outline = scene_outline' →
  book_analysis = book_analysis' →
  create_placeholder_scene scene_id scene_outline book_analysis
    = create_placeholder_scene scene_id' scene_outline' book_analysis' ∧
  (∀ scene scene',
     create_placeholder_scene scene_id scene_outline book_analysis = Ok scene →
     create_placeholder_scene scene_id' scene_outline' book_analysis' = Ok scene' →
     Scene.background scene = Scene.background scene' ∧
     Scene.characters scene = Scene.characters scene' ∧
     Scene.dialogue scene = Scene.dialogue scene') ∧
  (∀ w w',
     Task.result (recover scene_id scene_outline book_analysis w)
       = Task.result (recover scene_id' scene_outline' book_analysis' w') ∧
     Task.result (recover scene_id scene_outline book_analysis w)
       = Some (SceneObj <$> create_placeholder_scene scene_id scene_outline book_analysis)).
Proof.
  intros <- <- <-. split; [done|]. split.
  - intros scene scene' Hs. rewrite Hs. by intros [= <-].
  - intros w w'. unfold recover.
    by destruct (create_placeholder_scene scene_id scene_outline book_analysis).
Qed.

Lemma create_placeholder_scene_deterministic_witness :
  @create_placeholder_scene stub_textlib "scene_1" hero_outline (Some empty_analysis)
    = @create_placeholder_scene stub_textlib "scene_1" hero_outline (Some empty_analysis) ∧
  (∀ scene scene',
     @create_placeholder_scene stub_textlib "scene_1" hero_outline (Some empty_analysis)
       = Ok scene →
     @create_placeholder_scene stub_textlib "scene_1" hero_outline (Some empty_analysis)
       = Ok scene' →
     Scene.background scene = Scene.background scene' ∧
     Scene.characters scene = Scene.characters scene' ∧
     Scene.dialogue scene = Scene.dialogue scene') ∧
  (∀ w w',
     Task.result (@recover stub_textlib "scene_1" hero_outline (Some empty_analysis) w)
       = Task.result (@recover stub_textlib "scene_1" hero_outline (Some empty_analysis) w') ∧
     Task.result (@recover stub_textlib "scene_1" hero_outline (Some empty_analysis) w)
       = Some (SceneObj <$> @create_placeholder_scene stub_textlib "scene_1" hero_outline
                              (Some empty_analysis))).
Proof.
  apply (@create_placeholder_scene_deterministic stub_textlib
           "scene_1" "scene_1" hero_outline hero_outline
           (Some empty_analysis) (Some empty_analysis)); reflexivity.
Defined.

(** ** C5, C6: the outline planner *)

(** C5, on the code: an exception escapes both components. The planner
    builds its prompt before its [try], so a book analysis without
    ['metadata'] makes it raise [KeyError]; the synthesizer's handler calls
    [create_placeholder_scene], which raises again on a character without a
    name, so the [AttributeError] escapes and the claim on the scene id is
    left in the in-progress set. *)
Theorem exceptions_escape `{Random} `{TextLib} gemini scene_limit :
  generate_script_outline_with_gemini analysis_without_metadata scene_limit
    (World.initial gemini)
    = Task.Return (World.initial gemini) (Raise KeyError) ∧
  ∃ w,
    generate_scene_from_outline_with_gemini hero_outline
      (Some analysis_with_nameless_character) (World.initial gemini)
      = Task.Return w (Raise AttributeError) ∧
    World.generated_scenes w = ∅ ∧
    World.in_progress_scenes w = {["scene_1"]} ∪ ∅.
Proof.
  split; [done|].
  unfold generate_scene_from_outline_with_gemini, synthesize. simpl.
  rewrite lookup_empty. rewrite decide_False by apply not_elem_of_empty.
  unfold claim_and_generate. simpl. eexists. split; [reflexivity|]. done.
Qed.

(** C6, amended. With ['metadata'] present, the planner returns the
    fixed fallback of two outlines at once when the client is unavailable,
    and otherwise awaits one call of the backend, after which it returns:
    the fallback when the call failed or the response has no text; the
    parsed value as it is, whatever the number of its outlines, when the
    text (or the code block in it) parses to an object; the fallback when
    it parses to a value that is not an object; the value parsed after
    repair, as it is, when only the repaired text parses; and the fallback
    when the text does not parse even after repair. The fallback has the
    two outlines [scene_1] and [scene_2a]; the number of outlines is
    bounded only where the caller takes the first five of them. *)
Theorem planner_returns_parsed_or_fallback `{TextLib} book_analysis scene_limit w :
  is_Some (BookAnalysis.metadata book_analysis) →
  let planner := generate_script_outline_with_gemini book_analysis scene_limit w in
  let available :=
    World.GEMINI_AVAILABLE w
    && (GenerativeModel "gemini-1.5-pro" || GenerativeModel "gemini-pro") in
  (available = false → planner = Task.Return w (Ok fallback_outline)) ∧
  (available = true →
   (∃ prompt resume, planner = Task.Generate w prompt resume) ∧
   ∀ w',
     Task.respond planner Failed w' = Task.Return w' (Ok fallback_outline) ∧
     Task.respond planner NoText w' = Task.Return w' (Ok fallback_outline) ∧
     ∀ text,
       let outline_text := default text (search_code_block text) in
       let fixed_text := attempt_json_repair outline_text in
       (∀ scenes,
          json_loads_outline outline_text = Some (OutlineObj scenes) →
          Task.respond planner (Text text) w'
            = Task.Return w' (Ok (OutlineObj scenes))) ∧
       (json_loads_outline outline_text = Some OutlineNonObj →
        Task.respond planner (Text text) w' = Task.Return w' (Ok fallback_outline)) ∧
       (∀ outline_data,
          json_loads_outline outline_text = None →
          json_loads_outline fixed_text = Some outline_data →
          Task.respond planner (Text text) w' = Task.Return w' (Ok outline_data)) ∧
       (json_loads_outline outline_text = None →
        json_loads_outline fixed_text = None →
        Task.respond planner (Text text) w' = Task.Return w' (Ok fallback_outline))) ∧
  (∃ first second,
     outline_scenes fallback_outline = Ok [first; second] ∧
     Outline.id first = Some "scene_1" ∧ Outline.id second = Some "scene_2a") ∧
  (∀ outline scenes,
     outline_scenes outline = Ok scenes →
     scheduled_outlines outline = Ok (take 5 scenes) ∧ length (take 5 scenes) ≤ 5).
Proof.
  intros [title Hmeta] planner available.
  assert (Hplanner : planner =
    if available
    then Task.Generate w
           ("TITLE: " +:+ default "Untitled" title +:+
            " PLOT SUMMARY: " +:+
            default "A story with characters and challenges."
                    (BookAnalysis.plot_summary book_analysis) +:+
            " Create exactly " +:+ pretty scene_limit +:+ " scenes")
           (λ response w',
              match parse_outline response with
              | Ok outline_data => Task.Return w' (Ok outline_data)
              | Raise _ => Task.Return w' (Ok fallback_outline)
              end)
    else Task.Return w (Ok fallback_outline)).
  { unfold planner, generate_script_outline_with_gemini, outline_prompt.
    by rewrite Hmeta. }
  split; [|split; [|split]].
  - intros Hoff. by rewrite Hplanner, Hoff.
  - intros Hon. rewrite Hplanner, Hon. split; [by eexists _, _|].
    intros w'. split; [done|]. split; [done|].
    intros text outline_text fixed_text. simpl. fold outline_text.
    repeat split.
    + intros scenes Hparse. by rewrite Hparse.
    + intros Hparse. by rewrite Hparse.
    + intros outline_data Hparse Hfixed. rewrite Hparse. fold fixed_text. by rewrite Hfixed.
    + intros Hparse Hfixed. rewrite Hparse. fold fixed_text. by rewrite Hfixed.
  - by eexists _, _.
  - intros outline scenes Hscenes. unfold scheduled_outlines. rewrite Hscenes.
    split; [done|]. rewrite length_take. lia.
Qed.

Lemma planner_returns_parsed_or_fallback_witness :
  (∀ w',
     Task.respond
       (@generate_script_outline_with_gemini stub_textlib empty_analysis 5
          (World.initial true)) Failed w'
     = Task.Return w' (Ok fallback_outline)) ∧
  (∀ w',
     Task.respond
       (@generate_script_outline_with_gemini stub_textlib empty_analysis 5
          (World.initial true)) (Text "three outlines") w'
     = Task.Return w' (Ok (OutlineObj (Some [hero_outline; bare_outline; bare_outline])))) ∧
  (∀ w',
     Task.respond
       (@generate_script_outline_with_gemini stub_textlib empty_analysis 5
          (World.initial true)) (Text "no outline") w'
     = Task.Return w' (Ok fallback_outline)).
Proof.
  assert (Hmeta : is_Some (BookAnalysis.metadata empty_analysis)) by (by eexists).
  destruct (@planner_returns_parsed_or_fallback stub_textlib empty_analysis 5
              (World.initial true) Hmeta) as (_ & Hon & _).
  specialize (Hon eq_refl). destruct Hon as [_ Hon].
  split; [|split]; intros w'.
  - exact (proj1 (Hon w')).
  - exact (proj1 (proj2 (proj2 (Hon w')) "three outlines") _ eq_refl).
  - exact (proj2 (proj2 (proj2 (proj2 (proj2 (Hon w')) "no outline"))) eq_refl eq_refl).
Defined.

(** C6 fails as stated: asked for two scenes, the planner returns the
    three outlines the backend sent; asked for one scene with the backend
    unavailable, it returns the fallback of two. *)
Lemma planner_exceeds_scene_limit :
  (∃ outlines,
     Task.result
       (Task.respond
          (@generate_script_outline_with_gemini stub_textlib empty_analysis 2
             (World.initial true))
          (Text "three outlines") (World.initial true))
     = Some (Ok (OutlineObj (Some outlines))) ∧
     ¬ length outlines ≤ 2) ∧
  (∃ outlines,
     Task.result
       (@generate_script_outline_with_gemini stub_textlib empty_analysis 1
          (World.initial false))
     = Some (Ok (OutlineObj (Some outlines))) ∧
     ¬ length outlines ≤ 1).
Proof.
  split; eexists; (split; [reflexivity|]); simpl; lia.
Qed.

(** ** C7: update_scene_graph *)

Lemma graph_extends_refl g : graph_extends g g.
Proof. intros k node Hk. by exists node. Qed.

Lemma graph_extends_trans g1 g2 g3 :
  graph_extends g1 g2 → graph_extends g2 g3 → graph_extends g1 g3.
Proof.
  intros H12 H23 k node Hk.
  destruct (H12 k node Hk) as (n2 & Hk2 & Ho & Hi).
  destruct (H23 k n2 Hk2) as (n3 & Hk3 & Ho' & Hi').
  exists n3. split; [done|]. split; by etrans.
Qed.

Lemma graph_extends_insert (g : gmap string Graph.Node) k node node' :
  g !! k = Some node →
  Graph.outgoing node `prefix_of` Graph.outgoing node' →
  Graph.incoming node `prefix_of` Graph.incoming node' →
  graph_extends g (<[k := node']> g).
Proof.
  intros Hk Ho Hi j n Hj. destruct (decide (k = j)) as [<-|Hne].
  - rewrite lookup_insert_eq. exists node'. rewrite Hk in Hj. by injection Hj as <-.
  - rewrite lookup_insert_ne by done. by exists n.
Qed.

Lemma ensure_node_extends g k : graph_extends g (ensure_node k g).
Proof.
  unfold ensure_node. destruct (g !! k) eqn:Hk; [apply graph_extends_refl|].
  intros j n Hj. exists n. split; [|done].
  rewrite lookup_insert_ne; [done|]. intros <-. congruence.
Qed.

Lemma ensure_node_is_Some g k : is_Some (ensure_node k g !! k).
Proof.
  unfold ensure_node. destruct (g !! k) eqn:Hk; [by rewrite Hk|].
  by rewrite lookup_insert_eq.
Qed.

Lemma add_outgoing_extends g k target text : graph_extends g (add_outgoing k target text g).
Proof.
  unfold add_outgoing. destruct (g !! k) as [node|] eqn:Hk; [|apply graph_extends_refl].
  destruct (decide _); [apply graph_extends_refl|].
  eapply graph_extends_insert; [done| |done]. simpl. by apply prefix_app_r.
Qed.

Lemma add_incoming_extends g k source text : graph_extends g (add_incoming k source text g).
Proof.
  unfold add_incoming. destruct (g !! k) as [node|] eqn:Hk; [|apply graph_extends_refl].
  destruct (decide _); [apply graph_extends_refl|].
  eapply graph_extends_insert; [done|done|]. simpl. by apply prefix_app_r.
Qed.

Lemma connect_extends scene_id g c : graph_extends g (connect scene_id g c).
Proof.
  unfold connect. destruct (Choice.nextScene c) as [next|]; [|apply graph_extends_refl].
  destruct (decide _); [|apply graph_extends_refl].
  eapply graph_extends_trans; [apply add_outgoing_extends|].
  eapply graph_extends_trans; [apply ensure_node_extends|apply add_incoming_extends].
Qed.

Lemma graph_extends_is_Some g g' k :
  graph_extends g g' → is_Some (g !! k) → is_Some (g' !! k).
Proof. intros Hext [node Hk]. destruct (Hext k node Hk) as (n' & -> & _). done. Qed.

Lemma prefix_elem_of_fmap {A B} (f : A → B) (l l' : list A) x :
  l `prefix_of` l' → x ∈ f <$> l → x ∈ f <$> l'.
Proof. intros [k ->] Hx. rewrite fmap_app. apply elem_of_app. by left. Qed.

Lemma out_edge_mono g g' a b : graph_extends g g' → out_edge g a b → out_edge g' a b.
Proof.
  intros Hext (node & Hk & Hin). destruct (Hext a node Hk) as (n' & Hk' & Ho & _).
  exists n'. split; [done|]. by eapply prefix_elem_of_fmap.
Qed.

Lemma in_edge_mono g g' a b : graph_extends g g' → in_edge g a b → in_edge g' a b.
Proof.
  intros Hext (node & Hk & Hin). destruct (Hext a node Hk) as (n' & Hk' & _ & Hi).
  exists n'. split; [done|]. by eapply prefix_elem_of_fmap.
Qed.

Lemma recorded_mono g g' scene_id c :
  graph_extends g g' → recorded g scene_id c → recorded g' scene_id c.
Proof.
  intros Hext. unfold recorded. destruct (Choice.nextScene c); [|done].
  intros Hrec Hne. destruct (Hrec Hne). split; [by eapply out_edge_mono|by eapply in_edge_mono].
Qed.

Lemma add_outgoing_out_edge g k target text :
  is_Some (g !! k) → out_edge (add_outgoing k target text g) k target.
Proof.
  intros [node Hk]. unfold add_outgoing. rewrite Hk.
  destruct (decide _) as [Hin|Hin]; [by exists node|].
  eexists. rewrite lookup_insert_eq. split; [done|]. simpl.
  rewrite fmap_app. apply elem_of_app. right. apply list_elem_of_here.
Qed.

Lemma add_incoming_in_edge g k source text :
  is_Some (g !! k) → in_edge (add_incoming k source text g) k source.
Proof.
  intros [node Hk]. unfold add_incoming. rewrite Hk.
  destruct (decide _) as [Hin|Hin]; [by exists node|].
  eexists. rewrite lookup_insert_eq. split; [done|]. simpl.
  rewrite fmap_app. apply elem_of_app. right. apply list_elem_of_here.
Qed.

Lemma connect_records scene_id g c :
  is_Some (g !! scene_id) → recorded (connect scene_id g c) scene_id c.
Proof.
  intros Hsome. unfold recorded, connect.
  destruct (Choice.nextScene c) as [next|]; [|done]. intros Hne.
  rewrite decide_True by done. split.
  - eapply out_edge_mono; [|by apply add_outgoing_out_edge].
    eapply graph_extends_trans; [apply ensure_node_extends|apply add_incoming_extends].
  - apply add_incoming_in_edge, ensure_node_is_Some.
Qed.

(** Adding an edge the index already has changes nothing. *)
Lemma connect_recorded scene_id g c : recorded g scene_id c → connect scene_id g c = g.
Proof.
  unfold recorded, connect. destruct (Choice.nextScene c) as [next|]; [|done].
  destruct (decide (next ≠ "exit")) as [Hne|]; [|done]. intros Hrec.
  destruct (Hrec Hne) as [(n1 & Hk1 & Hin1) (n2 & Hk2 & Hin2)].
  unfold add_outgoing. rewrite Hk1, decide_True by done.
  unfold ensure_node. rewrite Hk2.
  unfold add_incoming. by rewrite Hk2, decide_True.
Qed.

Lemma connect_choices_spec scene_id cs : ∀ g,
  graph_extends g (foldl (connect scene_id) g cs) ∧
  (is_Some (g !! scene_id) →
   Forall (recorded (foldl (connect scene_id) g cs) scene_id) cs).
Proof.
  induction cs as [|c cs IH]; intros g; simpl.
  - split; [apply graph_extends_refl|constructor].
  - destruct (IH (connect scene_id g c)) as [Hext Hrec]. split.
    + eapply graph_extends_trans; [apply connect_extends|done].
    + intros Hsome. constructor.
      * eapply recorded_mono; [exact Hext|]. by apply connect_records.
      * apply Hrec. eapply graph_extends_is_Some; [apply connect_extends|done].
Qed.

Lemma connect_dialogue_extends scene_id g d :
  graph_extends g (connect_dialogue scene_id g d).
Proof.
  unfold connect_dialogue. destruct (Dialogue.choices d); [|apply graph_extends_refl].
  apply connect_choices_spec.
Qed.

Lemma connect_dialogues_spec scene_id ds : ∀ g,
  graph_extends g (foldl (connect_dialogue scene_id) g ds) ∧
  (is_Some (g !! scene_id) →
   ∀ d cs c, d ∈ ds → Dialogue.choices d = Some cs → c ∈ cs →
             recorded (foldl (connect_dialogue scene_id) g ds) scene_id c).
Proof.
  induction ds as [|d ds IH]; intros g; simpl.
  - split; [apply graph_extends_refl|]. intros _ d cs c Hd. by apply elem_of_nil in Hd.
  - destruct (IH (connect_dialogue scene_id g d)) as [Hext Hrec]. split.
    + eapply graph_extends_trans; [apply connect_dialogue_extends|done].
    + intros Hsome d' cs c Hd Hcs Hc. apply elem_of_cons in Hd as [->|Hd].
      * eapply recorded_mono; [exact Hext|]. unfold connect_dialogue. rewrite Hcs.
        destruct (connect_choices_spec scene_id cs g) as [_ Hall].
        by apply (proj1 (Forall_forall _ _) (Hall Hsome)).
      * eapply Hrec; eauto.
        eapply graph_extends_is_Some; [apply connect_dialogue_extends|done].
Qed.

Lemma index_graph_extends g scene : graph_extends g (index_graph g scene).
Proof.
  unfold index_graph.
  eapply graph_extends_trans; [apply ensure_node_extends|apply connect_dialogues_spec].
Qed.

Lemma index_graph_records g scene : scene_recorded (index_graph g scene) scene.
Proof.
  unfold index_graph.
  destruct (connect_dialogues_spec (Scene.id scene) (Scene.dialogue scene)
              (ensure_node (Scene.id scene) g)) as [Hext Hrec]. split.
  - eapply graph_extends_is_Some; [exact Hext|apply ensure_node_is_Some].
  - apply Hrec, ensure_node_is_Some.
Qed.

Lemma scene_recorded_mono g g' scene :
  graph_extends g g' → scene_recorded g scene → scene_recorded g' scene.
Proof.
  intros Hext [Hsome Hrec]. split; [by eapply graph_extends_is_Some|].
  intros d cs c Hd Hcs Hc. eapply recorded_mono; eauto.
Qed.

Lemma index_graph_recorded g scene : scene_recorded g scene → index_graph g scene = g.
Proof.
  intros [[node Hk] Hrec]. unfold index_graph, ensure_node. rewrite Hk.
  assert (Hds : ∀ ds, (∀ d, d ∈ ds → d ∈ Scene.dialogue scene) →
                      foldl (connect_dialogue (Scene.id scene)) g ds = g).
  { induction ds as [|d ds IH]; intros Hsub; simpl; [done|].
    assert (Hd : connect_dialogue (Scene.id scene) g d = g).
    { unfold connect_dialogue. destruct (Dialogue.choices d) as [cs|] eqn:Hcs; [|done].
      assert (Hcs' : ∀ l, (∀ c, c ∈ l → c ∈ cs) → foldl (connect (Scene.id scene)) g l = g).
      { induction l as [|c l IHl]; intros Hl; simpl; [done|].
        rewrite connect_recorded.
        - apply IHl. intros c' Hc'. by apply Hl, list_elem_of_further.
        - eapply Hrec; [apply Hsub, list_elem_of_here|exact Hcs|].
          apply Hl, list_elem_of_here. }
      by apply Hcs'. }
    rewrite Hd. apply IH. intros d' Hd'. by apply Hsub, list_elem_of_further. }
  by apply Hds.
Qed.

Lemma index_graphs_spec scenes : ∀ g,
  graph_extends g (foldl index_graph g scenes) ∧
  Forall (scene_recorded (foldl index_graph g scenes)) scenes.
Proof.
  induction scenes as [|scene scenes IH]; intros g; simpl.
  - split; [apply graph_extends_refl|constructor].
  - destruct (IH (index_graph g scene)) as [Hext Hrec]. split.
    + eapply graph_extends_trans; [apply index_graph_extends|done].
    + constructor; [|done].
      eapply scene_recorded_mono; [exact Hext|apply index_graph_records].
Qed.

Lemma index_graphs_recorded scenes g :
  Forall (scene_recorded g) scenes → foldl index_graph g scenes = g.
Proof.
  induction 1 as [|scene scenes Hs _ IH]; simpl; [done|].
  by rewrite index_graph_recorded.
Qed.

Lemma store_scenes_union scenes : ∀ m,
  store_scenes m scenes = store_scenes ∅ scenes ∪ m.
Proof.
  unfold store_scenes. induction scenes as [|scene scenes IH]; intros m; simpl.
  - by rewrite (left_id_L ∅ (∪)).
  - rewrite (IH (<[_ := _]> m)), (IH (<[_ := _]> ∅)).
    rewrite <- (assoc_L (∪)). f_equal.
    rewrite insert_empty. by rewrite <- insert_union_singleton_l.
Qed.

Lemma store_scenes_idem scenes m :
  store_scenes (store_scenes m scenes) scenes = store_scenes m scenes.
Proof.
  rewrite (store_scenes_union scenes m), (store_scenes_union scenes (_ ∪ m)).
  rewrite (assoc_L (∪)). by rewrite (idemp_L (∪)).
Qed.

Lemma store_scenes_lookup scenes k : ∀ m,
  store_scenes m scenes !! k =
  match last (filter (λ scene, Scene.id scene = k) scenes) with
  | Some scene => Some (SceneObj scene)
  | None => m !! k
  end.
Proof.
  unfold store_scenes. induction scenes as [|scene scenes IH]; intros m; simpl; [done|].
  rewrite IH, filter_cons. destruct (decide (Scene.id scene = k)) as [<-|Hne].
  - rewrite last_cons. destruct (last (filter _ scenes)); [done|].
    by rewrite lookup_insert_eq.
  - destruct (last (filter _ scenes)); [done|]. by rewrite lookup_insert_ne.
Qed.

Lemma update_scene_graph_fields script_data w :
  update_scene_graph script_data w =
  {| World.book_analysis := World.book_analysis w;
     World.generated_scenes := store_scenes (World.generated_scenes w) (Script.scenes script_data);
     World.scene_graph := foldl index_graph (World.scene_graph w) (Script.scenes script_data);
     World.in_progress_scenes := World.in_progress_scenes w;
     World.GEMINI_AVAILABLE := World.GEMINI_AVAILABLE w;
     World.draws := World.draws w |}.
Proof.
  unfold update_scene_graph, store_scenes.
  generalize (Script.scenes script_data). intros scenes. revert w.
  induction scenes as [|scene scenes IH]; intros w; simpl; [by destruct w|].
  rewrite IH. done.
Qed.

Lemma NoDup_snoc_fmap {A B} (f : A → B) (l : list A) (x : A) :
  NoDup (f <$> l) → f x ∉ f <$> l → NoDup (f <$> l ++ [x]).
Proof.
  intros Hnd Hx. rewrite fmap_app. apply NoDup_app. split; [done|]. split.
  - intros y Hy Hy'. apply list_elem_of_singleton in Hy' as ->. done.
  - apply NoDup_singleton.
Qed.

Lemma graph_deduplicated_insert (g : gmap string Graph.Node) k node :
  graph_deduplicated g →
  NoDup (Graph.target <$> Graph.outgoing node) →
  NoDup (Graph.source <$> Graph.incoming node) →
  graph_deduplicated (<[k := node]> g).
Proof.
  intros Hg Ho Hi j n Hj. destruct (decide (k = j)) as [<-|Hne].
  - rewrite lookup_insert_eq in Hj. by injection Hj as <-.
  - rewrite lookup_insert_ne in Hj by done. by eapply Hg.
Qed.

Lemma connect_deduplicated scene_id g c :
  graph_deduplicated g → graph_deduplicated (connect scene_id g c).
Proof.
  intros Hg. unfold connect. destruct (Choice.nextScene c) as [next|]; [|done].
  destruct (decide _); [|done].
  assert (H1 : graph_deduplicated (add_outgoing scene_id next (Choice.text c) g)).
  { unfold add_outgoing. destruct (g !! scene_id) as [node|] eqn:Hk; [|done].
    destruct (decide _) as [|Hnew]; [done|]. destruct (Hg _ _ Hk) as [Ho Hi].
    apply graph_deduplicated_insert; [done| |done]. simpl.
    by apply (NoDup_snoc_fmap Graph.target _ (Graph.mkOut next (Choice.text c))). }
  assert (H2 : graph_deduplicated
                 (ensure_node next (add_outgoing scene_id next (Choice.text c) g))).
  { unfold ensure_node. destruct (_ !! next); [done|].
    apply graph_deduplicated_insert; [done|apply NoDup_nil_2|apply NoDup_nil_2]. }
  revert H2. generalize (ensure_node next (add_outgoing scene_id next (Choice.text c) g)).
  intros g2 H2. unfold add_incoming. destruct (g2 !! next) as [node|] eqn:Hk; [|done].
  destruct (decide _) as [|Hnew]; [done|]. destruct (H2 _ _ Hk) as [Ho Hi].
  apply graph_deduplicated_insert; [done|done|]. simpl.
  by apply (NoDup_snoc_fmap Graph.source _ (Graph.mkIn scene_id (Choice.text c))).
Qed.

Lemma index_graph_deduplicated g scene :
  graph_deduplicated g → graph_deduplicated (index_graph g scene).
Proof.
  intros Hg. unfold index_graph.
  assert (H1 : graph_deduplicated (ensure_node (Scene.id scene) g)).
  { unfold ensure_node. destruct (_ !! _); [done|].
    apply graph_deduplicated_insert; [done|apply NoDup_nil_2|apply NoDup_nil_2]. }
  revert H1. generalize (ensure_node (Scene.id scene) g).
  induction (Scene.dialogue scene) as [|d ds IH]; intros g1 H1; simpl; [done|].
  apply IH. unfold connect_dialogue. destruct (Dialogue.choices d) as [cs|]; [|done].
  clear IH. revert g1 H1. induction cs as [|c cs IHc]; intros g1 H1; simpl; [done|].
  by apply IHc, connect_deduplicated.
Qed.

Lemma index_graphs_deduplicated scenes : ∀ g,
  graph_deduplicated g → graph_deduplicated (foldl index_graph g scenes).
Proof.
  induction scenes as [|scene scenes IH]; intros g Hg; simpl; [done|].
  by apply IH, index_graph_deduplicated.
Qed.

(** C7. [update_scene_graph] is idempotent and merging: a second call on
    the same script changes nothing in the cache; adding a choice whose
    edge is recorded changes nothing; every entry the index had is kept,
    its outgoing and incoming lists extended at the end only, so the first
    edge recorded for a target (or a source) keeps its text; and an index
    without duplicate targets per source and duplicate sources per target
    stays so. *)
Theorem update_scene_graph_idempotent script_data w :
  update_scene_graph script_data (update_scene_graph script_data w)
    = update_scene_graph script_data w ∧
  graph_extends (World.scene_graph w)
                (World.scene_graph (update_scene_graph script_data w)) ∧
  Forall (scene_recorded (World.scene_graph (update_scene_graph script_data w)))
         (Script.scenes script_data) ∧
  (∀ scene_id c, connect scene_id (connect scene_id (ensure_node scene_id
                     (World.scene_graph w)) c) c
                 = connect scene_id (ensure_node scene_id (World.scene_graph w)) c) ∧
  (graph_deduplicated (World.scene_graph w) →
   graph_deduplicated (World.scene_graph (update_scene_graph script_data w))).
Proof.
  rewrite !update_scene_graph_fields; simpl.
  destruct (index_graphs_spec (Script.scenes script_data) (World.scene_graph w))
    as [Hext Hrec].
  split; [|split; [done|split; [done|split]]].
  - f_equal; [apply store_scenes_idem|by apply index_graphs_recorded].
  - intros scene_id c. apply connect_recorded, connect_records, ensure_node_is_Some.
  - apply index_graphs_deduplicated.
Qed.

(** The index of the end-to-end example, built from an empty cache. *)
Example update_scene_graph_dangling_script :
  World.scene_graph (update_scene_graph dangling_script (World.initial true))
  = <["scene_2" := Graph.mkNode [] [Graph.mkIn "scene_1" "Continue to scene_2"]]>
      (<["scene_1" := Graph.mkNode [Graph.mkOut "scene_2" "Continue to scene_2"] []]>
         (<["scene_3" := Graph.empty]> ∅)).
Proof. by vm_compute. Qed.

Lemma update_scene_graph_idempotent_witness :
  graph_deduplicated (World.scene_graph (World.initial true)) ∧
  graph_deduplicated
    (World.scene_graph (update_scene_graph dangling_script (World.initial true))).
Proof.
  assert (Hempty : graph_deduplicated (World.scene_graph (World.initial true)))
    by (intros k node Hk; simpl in Hk; by rewrite lookup_empty in Hk).
  split; [exact Hempty|].
  exact (proj2 (proj2 (proj2 (proj2
           (update_scene_graph_idempotent dangling_script (World.initial true))))) Hempty).
Defined.

(** ** C3: the generation cache *)

Lemma claims_disjoint_store scene_id data w :
  claims_disjoint w → scene_id ∉ World.in_progress_scenes w →
  claims_disjoint (World.store scene_id data w).
Proof.
  intros Hw Hout k Hk. simpl in *. rewrite lookup_insert_ne; [by apply Hw|].
  by intros <-.
Qed.

Lemma claims_disjoint_store_release scene_id data w w' :
  claims_disjoint w → World.release scene_id (World.store scene_id data w) = Ok w' →
  claims_disjoint w'.
Proof.
  intros Hw. unfold World.release. destruct (decide _); [|done]. intros [= <-].
  intros k Hk. simpl in *. apply elem_of_difference in Hk as [Hk Hne].
  rewrite lookup_insert_ne; [by apply Hw|]. intros <-. apply Hne. by apply elem_of_singleton.
Qed.

Lemma release_Raise scene_id w e :
  World.release scene_id w = Raise e → scene_id ∉ World.in_progress_scenes w.
Proof. unfold World.release. by destruct (decide _). Qed.

Lemma claims_disjoint_claim scene_id w :
  claims_disjoint w → World.generated_scenes w !! scene_id = None →
  claims_disjoint (World.claim scene_id w).
Proof.
  intros Hw Hnone k Hk. simpl in *. apply elem_of_union in Hk as [Hk|Hk]; [|by apply Hw].
  apply elem_of_singleton in Hk as ->. done.
Qed.

Section SynthesizerInvariant.
Context `{Random} `{TextLib}.
Variables (scene_id : string) (scene_outline : Outline.t)
          (book_analysis : option BookAnalysis.t).

Lemma recover_maintains w :
  claims_disjoint w →
  Task.maintains claims_disjoint (recover scene_id scene_outline book_analysis w).
Proof.
  intros Hw. unfold recover. destruct (create_placeholder_scene _ _ _) as [p|e].
  - constructor.
    destruct (World.release scene_id (World.store scene_id (SceneObj p) w)) as [w'|e] eqn:Hrel.
    + by eapply claims_disjoint_store_release.
    + apply claims_disjoint_store; [done|].
      apply release_Raise in Hrel. by simpl in Hrel.
  - by constructor.
Qed.

Lemma publish_maintains data on_key_error w :
  claims_disjoint w →
  (∀ w1, claims_disjoint w1 → Task.maintains claims_disjoint (on_key_error w1)) →
  Task.maintains claims_disjoint (publish scene_id data on_key_error w).
Proof.
  intros Hw Hk. unfold publish.
  destruct (World.release scene_id (World.store scene_id data w)) as [w'|e] eqn:Hrel.
  - constructor. by eapply claims_disjoint_store_release.
  - apply Hk. apply claims_disjoint_store; [done|].
    apply release_Raise in Hrel. by simpl in Hrel.
Qed.

Lemma publish_placeholder_maintains w :
  claims_disjoint w →
  Task.maintains claims_disjoint
    (publish_placeholder scene_id scene_outline book_analysis w).
Proof.
  intros Hw. unfold publish_placeholder.
  destruct (create_placeholder_scene _ _ _) as [p|e].
  - apply publish_maintains; [done|]. apply recover_maintains.
  - by apply recover_maintains.
Qed.

Lemma on_response_maintains response w :
  claims_disjoint w →
  Task.maintains claims_disjoint
    (on_response scene_id scene_outline book_analysis response w).
Proof.
  intros Hw. unfold on_response.
  destruct response as [| |scene_text]; try by apply recover_maintains.
  destruct (json_loads_scene _) as [[scene| |truthy]|].
  - apply publish_maintains; [done|]. apply recover_maintains.
  - apply publish_maintains; [done|]. apply recover_maintains.
  - by apply recover_maintains.
  - destruct (decide _); [|by apply publish_placeholder_maintains].
    destruct (json_loads_scene _); [|by apply publish_placeholder_maintains].
    apply publish_maintains; [done|]. apply publish_placeholder_maintains.
Qed.

Lemma claim_and_generate_maintains w :
  claims_disjoint w → World.generated_scenes w !! scene_id = None →
  Task.maintains claims_disjoint
    (claim_and_generate scene_id scene_outline book_analysis w).
Proof.
  intros Hw Hnone. unfold claim_and_generate.
  pose proof (claims_disjoint_claim scene_id w Hw Hnone) as Hc.
  destruct (scene_characters _ _); [|by apply recover_maintains].
  simpl. destruct (_ && _).
  - constructor; [done|]. intros response w' Hw'. by apply on_response_maintains.
  - by apply recover_maintains.
Qed.

Lemma wait_for_scene_maintains n : ∀ w,
  claims_disjoint w → World.generated_scenes w !! scene_id = None →
  Task.maintains claims_disjoint
    (wait_for_scene scene_id scene_outline book_analysis n w).
Proof.
  induction n as [|n IH]; intros w Hw Hnone; simpl.
  - by apply claim_and_generate_maintains.
  - constructor; [done|]. intros w' Hw'.
    destruct (World.generated_scenes w' !! scene_id) eqn:Hl; [by constructor|].
    by apply IH.
Qed.

Lemma synthesize_maintains w :
  claims_disjoint w →
  Task.maintains claims_disjoint (synthesize scene_id scene_outline book_analysis w).
Proof.
  intros Hw. unfold synthesize.
  destruct (World.generated_scenes w !! scene_id) eqn:Hl; [by constructor|].
  destruct (decide _).
  - by apply wait_for_scene_maintains.
  - by apply claim_and_generate_maintains.
Qed.
End SynthesizerInvariant.

Lemma update_scene_graph_disjoint script_data w :
  claims_disjoint w →
  claims_disjoint (update_scene_graph script_data w) ↔
  ∀ scene, scene ∈ Script.scenes script_data →
           Scene.id scene ∉ World.in_progress_scenes w.
Proof.
  intros Hw. rewrite update_scene_graph_fields. unfold claims_disjoint. simpl.
  setoid_rewrite store_scenes_lookup. split.
  - intros Hdisj scene Hscene Hin. specialize (Hdisj _ Hin).
    destruct (last (filter (λ s, Scene.id s = Scene.id scene)
                      (Script.scenes script_data))) eqn:Hlast; [done|].
    apply last_None in Hlast.
    assert (Hmem : scene ∈ filter (λ s, Scene.id s = Scene.id scene)
                     (Script.scenes script_data))
      by (by apply list_elem_of_filter).
    rewrite Hlast in Hmem. by apply elem_of_nil in Hmem.
  - intros Hfree k Hk.
    destruct (last (filter (λ s, Scene.id s = k) (Script.scenes script_data)))
      as [scene|] eqn:Hlast; [|by apply Hw].
    apply last_Some_elem_of, list_elem_of_filter in Hlast as [<- Hscene].
    by destruct (Hfree scene Hscene).
Qed.

Lemma generate_placeholder_scene_disjoint `{Random} scene_id ba w :
  claims_disjoint w →
  claims_disjoint (Task.world (generate_placeholder_scene scene_id (Some ba) w)) ↔
  scene_id ∉ World.in_progress_scenes w.
Proof.
  intros Hw. unfold generate_placeholder_scene, claims_disjoint. simpl. split.
  - intros Hdisj Hin. specialize (Hdisj _ Hin). by rewrite lookup_insert_eq in Hdisj.
  - intros Hfree k Hk. rewrite lookup_insert_ne; [by apply Hw|]. by intros <-.
Qed.

(** C3, amended. Whenever the Scene Synthesizer yields control or ends,
    no scene id is both in the in-progress set and a key of the scenes map,
    provided that was so whenever it started or was resumed; and a request
    for an id that is a key of the scenes map returns the cached entry and
    writes neither the map nor the set. Two other writers of the map,
    [update_scene_graph] and [generate_placeholder_scene], do not look at
    the in-progress set: from a state in which no id is in both,
    [update_scene_graph] leads to such a state exactly when no scene id of
    the script is claimed, and [generate_placeholder_scene] exactly when
    the requested id is not claimed. *)
Theorem synthesizer_keeps_claims_disjoint `{Random} `{TextLib}
    scene_outline book_analysis w :
  claims_disjoint w →
  Task.maintains claims_disjoint
    (generate_scene_from_outline_with_gemini scene_outline book_analysis w) ∧
  (∀ scene_id cached,
     Outline.id scene_outline = Some scene_id →
     World.generated_scenes w !! scene_id = Some cached →
     ∃ w', generate_scene_from_outline_with_gemini scene_outline book_analysis w
             = Task.Return w' (Ok cached) ∧
           World.generated_scenes w' = World.generated_scenes w ∧
           World.in_progress_scenes w' = World.in_progress_scenes w) ∧
  (∀ script_data,
     claims_disjoint (update_scene_graph script_data w) ↔
     ∀ scene, scene ∈ Script.scenes script_data →
              Scene.id scene ∉ World.in_progress_scenes w) ∧
  (∀ scene_id ba,
     claims_disjoint (Task.world (generate_placeholder_scene scene_id (Some ba) w)) ↔
     scene_id ∉ World.in_progress_scenes w).
Proof.
  intros Hw. split; [|split; [|split]].
  - unfold generate_scene_from_outline_with_gemini. simpl. by apply synthesize_maintains.
  - unfold generate_scene_from_outline_with_gemini. simpl.
    intros scene_id cached -> Hl. simpl. unfold synthesize. simpl. rewrite Hl.
    by eexists.
  - intros script_data. by apply update_scene_graph_disjoint.
  - intros scene_id ba. by apply generate_placeholder_scene_disjoint.
Qed.

Lemma claims_disjoint_session book_analysis gemini :
  claims_disjoint (session book_analysis gemini).
Proof. intros k Hk. by apply not_elem_of_empty in Hk. Qed.

Lemma synthesizer_keeps_claims_disjoint_witness :
  Task.maintains claims_disjoint
    (@generate_scene_from_outline_with_gemini (constant_draws 0) stub_textlib
       hero_outline (Some empty_analysis) (session empty_analysis true)) ∧
  (∀ scene_id cached,
     Outline.id hero_outline = Some scene_id →
     World.generated_scenes (session empty_analysis true) !! scene_id = Some cached →
     ∃ w', @generate_scene_from_outline_with_gemini (constant_draws 0) stub_textlib
             hero_outline (Some empty_analysis) (session empty_analysis true)
             = Task.Return w' (Ok cached) ∧
           World.generated_scenes w' = World.generated_scenes (session empty_analysis true) ∧
           World.in_progress_scenes w' = World.in_progress_scenes (session empty_analysis true)) ∧
  (∀ script_data,
     claims_disjoint (update_scene_graph script_data (session empty_analysis true)) ↔
     ∀ scene, scene ∈ Script.scenes script_data →
              Scene.id scene ∉ World.in_progress_scenes (session empty_analysis true)) ∧
  (∀ scene_id ba,
     claims_disjoint
       (Task.world (@generate_placeholder_scene (constant_draws 0) scene_id (Some ba)
                      (session empty_analysis true))) ↔
     scene_id ∉ World.in_progress_scenes (session empty_analysis true)).
Proof.
  apply (@synthesizer_keeps_claims_disjoint (constant_draws 0) stub_textlib
           hero_outline (Some empty_analysis) (session empty_analysis true)).
  apply claims_disjoint_session.
Defined.

(** C3 fails as stated, in both its parts. After the first request of
    the race stored its scene under [scene_1], the second request, which
    went on after its timed-out wait, replaces that entry (in the end by a
    placeholder). And while a request holds the claim on [scene_1] and
    awaits the backend, no id being in both the set and the map, indexing a
    script that has a scene [scene_1] puts that id into the map as well. *)
Lemma cached_scene_overwritten :
  World.generated_scenes (fst stale_claim_race) !! "scene_1"
    = Some (SceneObj (generated_scene "scene_1")) ∧
  (∃ placeholder,
     @create_placeholder_scene stub_textlib "scene_1" hero_outline (Some empty_analysis)
       = Ok placeholder ∧
     World.generated_scenes (snd stale_claim_race) !! "scene_1"
       = Some (SceneObj placeholder)) ∧
  World.generated_scenes (snd stale_claim_race) !! "scene_1"
    ≠ World.generated_scenes (fst stale_claim_race) !! "scene_1" ∧
  (claims_disjoint claimed_scene_1 ∧
   "scene_1" ∈ World.in_progress_scenes claimed_scene_1 ∧
   "scene_1" ∈ World.in_progress_scenes (update_scene_graph dangling_script claimed_scene_1) ∧
   World.generated_scenes (update_scene_graph dangling_script claimed_scene_1) !! "scene_1"
     = Some (SceneObj (choice_scene "scene_1" [connection_choice "scene_2"])) ∧
   ¬ claims_disjoint (update_scene_graph dangling_script claimed_scene_1)).
Proof.
  split; [by vm_compute|]. split; [eexists; split; by vm_compute|].
  split; [vm_compute; discriminate|].
  assert (Hin : "scene_1" ∈ World.in_progress_scenes claimed_scene_1).
  { apply (bool_decide_unpack _). by vm_compute. }
  assert (Hdisj : claims_disjoint claimed_scene_1).
  { intros k Hk. simpl. apply lookup_empty. }
  assert (Hl : World.generated_scenes (update_scene_graph dangling_script claimed_scene_1)
               !! "scene_1"
               = Some (SceneObj (choice_scene "scene_1" [connection_choice "scene_2"])))
    by (by vm_compute).
  split; [done|]. split; [done|]. split; [by rewrite update_scene_graph_fields|].
  split; [done|].
  intros Hbad. specialize (Hbad "scene_1").
  rewrite Hl in Hbad. rewrite update_scene_graph_fields in Hbad. simpl in Hbad.
  by specialize (Hbad Hin).
Qed.

Lemma infer_characters_raises generated_scenes incoming : ∀ listed e,
  infer_characters generated_scenes incoming listed = Raise e →
  e = AttributeError ∧
  ∃ conn truthy, conn ∈ incoming ∧
                 generated_scenes !! Graph.source conn = Some (NonObj truthy).
Proof.
  induction incoming as [|conn incoming IH]; intros listed e; simpl; [done|].
  destruct (generated_scenes !! Graph.source conn) as [[scene| |truthy]|] eqn:Hsrc; simpl.
  - intros (-> & c & t & Hc & Hl)%IH. split; [done|]. exists c, t.
    split; [by apply list_elem_of_further|done].
  - intros (-> & c & t & Hc & Hl)%IH. split; [done|]. exists c, t.
    split; [by apply list_elem_of_further|done].
  - intros [= <-]. split; [done|]. exists conn, truthy. split; [apply list_elem_of_here|done].
  - intros (-> & c & t & Hc & Hl)%IH. split; [done|]. exists c, t.
    split; [by apply list_elem_of_further|done].
Qed.

(** ** C8: the runtime scene resolver *)




Set Warnings "-clear-no-such-hyp".

(** * Further properties *)

(** ** The validator *)

Lemma set_iter_nil `{PySet} : set_iter [] = [].
Proof.
  pose proof (set_iter_elem []) as Hs. destruct (set_iter []) as [|x l]; [done|].
  pose proof (proj1 (Hs x) (list_elem_of_here x l)) as Hin. by apply elem_of_nil in Hin.
Qed.

Lemma expand_pass_adds refs : ∀ reachable ref,
  ref ∈ refs → Ref.source_scene ref ∈ reachable → Ref.next_scene ref ≠ "exit" →
  Ref.next_scene ref ∈ expand_pass refs reachable.
Proof.
  unfold expand_pass. induction refs as [|ref0 refs IH]; intros r ref Hin Hsrc Hnx.
  - by apply elem_of_nil in Hin.
  - simpl. apply elem_of_cons in Hin as [->|Hin].
    + rewrite decide_True by done. apply (expand_pass_incl refs).
      apply set_add_elem. by left.
    + apply IH; [done| |done]. destruct (decide _); [|done].
      apply set_add_elem. by right.
Qed.

Lemma expand_closed refs : ∀ fuel reachable old_size result,
  NoDup reachable →
  (old_size < length reachable ∨
   ∃ previous, NoDup previous ∧ reachable = expand_pass refs previous ∧
               old_size = length previous) →
  expand fuel refs reachable old_size = Some result →
  closed_under refs result ∧ NoDup result.
Proof.
  induction fuel as [|fuel IH]; intros r old res Hnd Hcase; simpl;
    destruct (decide (old < length r)) as [Hlt|Hge]; try done.
  - intros [= <-]. destruct Hcase as [?|(prev & Hprev & -> & ->)]; [lia|].
    split; [|done]. intros ref Hin Hsrc Hnx.
    assert (Hperm : prev ≡ₚ expand_pass refs prev).
    { apply submseteq_length_Permutation; [|lia].
      apply NoDup_submseteq; [done|]. intros x. apply expand_pass_incl. }
    apply expand_pass_adds; [done| |done]. by rewrite Hperm.
  - apply IH; [by apply expand_pass_NoDup|]. right. by exists r.
  - intros [= <-]. destruct Hcase as [?|(prev & Hprev & -> & ->)]; [lia|].
    split; [|done]. intros ref Hin Hsrc Hnx.
    assert (Hperm : prev ≡ₚ expand_pass refs prev).
    { apply submseteq_length_Permutation; [|lia].
      apply NoDup_submseteq; [done|]. intros x. apply expand_pass_incl. }
    apply expand_pass_adds; [done| |done]. by rewrite Hperm.
Qed.

Lemma reachable_set_complete scene_ids refs reachable :
  reachable_set scene_ids refs = Ok reachable →
  NoDup reachable ∧
  ∀ x, ref_reachable refs (seeds_of scene_ids) x → x ∈ reachable.
Proof.
  intros Hr. unfold reachable_set, seeds_of in *.
  destruct (entry_set scene_ids) as [seeds|] eqn:Hseeds; [|done]. simpl in Hr.
  destruct (expand _ _ _ _) as [res|] eqn:Hrun; [|done]. injection Hr as <-.
  destruct (entry_set_shape _ _ Hseeds) as (Hne & Hnd & _).
  assert (Hc : closed_under refs res ∧ NoDup res).
  { eapply expand_closed; [exact Hnd| |exact Hrun]. left.
    destruct seeds; [done|simpl; lia]. }
  destruct Hc as [Hclosed Hnd']. split; [done|].
  induction 1 as [x Hx|ref Hin _ IH Hnx].
  - by eapply expand_incl.
  - by apply Hclosed.
Qed.

(** X1. The [while] loop of the validator stops on the closure: the set
    it returns has no duplicates and holds exactly the ids that the
    collected references lead to from the starting ids over non-exit
    edges. *)
Theorem reachable_set_is_closure scene_ids refs reachable :
  reachable_set scene_ids refs = Ok reachable →
  NoDup reachable ∧
  ∀ x, x ∈ reachable ↔ ref_reachable refs (seeds_of scene_ids) x.
Proof.
  intros Hr. destruct (reachable_set_sound _ _ _ Hr) as [_ Hsound].
  destruct (reachable_set_complete _ _ _ Hr) as [Hnd Hcomplete].
  split; [done|]. intros x. split; [|apply Hcomplete].
  apply (proj1 (Forall_forall _ _) Hsound).
Qed.

Lemma reachable_set_is_closure_witness :
  NoDup ["scene_intro"; "scene_1"; "scene_2"] ∧
  ∀ x, x ∈ ["scene_intro"; "scene_1"; "scene_2"] ↔
       ref_reachable (collect_refs (Script.scenes dangling_script))
         (seeds_of (@scene_ids_of first_seen_order (Script.scenes dangling_script))) x.
Proof.
  apply (reachable_set_is_closure
           (@scene_ids_of first_seen_order (Script.scenes dangling_script))
           (collect_refs (Script.scenes dangling_script))).
  reflexivity.
Defined.

Lemma invalid_refs_of_nil scene_ids refs :
  (∀ ref, ref ∈ refs → valid_target scene_ids (Ref.next_scene ref)) →
  invalid_refs_of scene_ids refs = [].
Proof.
  intros Hv. unfold invalid_refs_of.
  induction refs as [|ref refs IH]; [done|].
  rewrite filter_cons. rewrite decide_False.
  - apply IH. intros r Hr. by apply Hv, list_elem_of_further.
  - intros [H1 H2]. destruct (Hv ref (list_elem_of_here _ _)); done.
Qed.

Lemma validate_fixpoint `{PySet} `{Random} script_data :
  let scenes := Script.scenes script_data in
  let scene_ids := scene_ids_of scenes in
  scenes ≠ [] →
  (∀ ref, ref ∈ collect_refs scenes → valid_target scene_ids (Ref.next_scene ref)) →
  (∀ scene_id, scene_id ∈ Scene.id <$> scenes →
               ref_reachable (collect_refs scenes) (seeds_of scene_ids) scene_id) →
  validate_and_fix_scene_connections script_data = Ok script_data.
Proof.
  intros scenes scene_ids Hne Hvalid Hreach.
  destruct (validate_returns script_data Hne) as (reachable & out & Hr & Hrun & ->).
  fold scenes in Hr, Hrun. fold scene_ids in Hr, Hrun.
  rewrite (invalid_refs_of_nil _ _ Hvalid) in Hrun.
  assert (Hun : unreachable_of scene_ids reachable = []).
  { unfold unreachable_of.
    assert (Hf : ∀ l, (∀ x, x ∈ l → x ∈ reachable) →
                      filter (λ id, id ∉ reachable) l = []).
    { induction l as [|x l IH]; intros Hl; [done|].
      rewrite filter_cons, decide_False.
      - apply IH. intros y Hy. by apply Hl, list_elem_of_further.
      - intros Hx. apply Hx, Hl, list_elem_of_here. }
    rewrite Hf; [apply set_iter_nil|]. intros x Hx.
    apply (reachable_set_complete _ _ _ Hr), Hreach. by apply scene_ids_of_elem. }
  rewrite Hun in Hrun. simpl in Hrun. injection Hrun as <-.
  by destruct script_data.
Qed.

(** X2. Re-validation is a fixpoint: on a script with at least one scene
    in which every choice target is ["exit"] or a scene id and every scene
    id can be reached from the starting ids, the validator returns the
    script unchanged, whatever the iteration order of sets and the random
    draws. *)
Theorem valid_script_unchanged `{PySet} `{Random} script_data :
  let scenes := Script.scenes script_data in
  let scene_ids := scene_ids_of scenes in
  scenes ≠ [] →
  (∀ ref, ref ∈ collect_refs scenes → valid_target scene_ids (Ref.next_scene ref)) →
  (∀ scene_id, scene_id ∈ Scene.id <$> scenes →
               ref_reachable (collect_refs scenes) (seeds_of scene_ids) scene_id) →
  validate_and_fix_scene_connections script_data = Ok script_data.
Proof. apply validate_fixpoint. Qed.

Lemma valid_script_unchanged_witness :
  @validate_and_fix_scene_connections first_seen_order (constant_draws 0) linear_script
  = Ok linear_script.
Proof.
  apply (@valid_script_unchanged first_seen_order (constant_draws 0) linear_script).
  - simpl. discriminate.
  - intros ref Hin. simpl in Hin. apply list_elem_of_singleton in Hin as ->.
    left. simpl. apply list_elem_of_further, list_elem_of_here.
  - intros scene_id Hin. simpl in Hin.
    assert (Hseed : ref_reachable (collect_refs (Script.scenes linear_script))
              (seeds_of (@scene_ids_of first_seen_order (Script.scenes linear_script)))
              "scene_1").
    { apply ref_seed. simpl. apply list_elem_of_further, list_elem_of_here. }
    apply elem_of_cons in Hin as [->|Hin]; [exact Hseed|].
    apply list_elem_of_singleton in Hin as ->.
    apply (ref_step _ _ (Ref.mk "scene_1" "Continue to scene_3" "scene_3"));
      [apply list_elem_of_here|exact Hseed|done].
Defined.

Lemma pending_to_step scene_ids ref rest sid c0 c :
  ¬ valid_target scene_ids (Ref.next_scene ref) → scene_ids ≠ [] →
  pending_to scene_ids (ref :: rest) sid c0 c →
  pending_to scene_ids rest sid c0
    (if decide (sid = Ref.source_scene ref) then fix_choice scene_ids ref c else c).
Proof.
  intros Hinv Hne (Ht & Hc & Hp).
  assert (Hkeep : ref ≠ Ref.mk sid (Choice.text c) (Ref.next_scene ref) ∨
                  Choice.nextScene c ≠ Some (Ref.next_scene ref) →
                  pending_to scene_ids rest sid c0 c).
  { intros Hneq. split; [done|]. split; [done|]. intros n Hn Hbad.
    specialize (Hp n Hn Hbad). apply elem_of_cons in Hp as [Heq|]; [|done].
    exfalso. subst ref. simpl in *. destruct Hneq; congruence. }
  destruct (decide (sid = Ref.source_scene ref)) as [->|Hsid].
  - unfold fix_choice.
    destruct (decide (Choice.text c = Ref.choice_text ref
                      ∧ Choice.nextScene c = Some (Ref.next_scene ref))) as [[Htx Hnx]|Hno].
    + pose proof (replacement_id_elem scene_ids ref Hne) as Hrep.
      split; [done|]. split.
      * right. destruct Hc as [->|(n & Hn0 & Hbad & Hn)].
        -- exists (Ref.next_scene ref). split; [done|]. split; [done|]. simpl.
           rewrite Htx. by destruct ref.
        -- exfalso. rewrite Hnx in Hn. injection Hn as Hn. apply Hinv. left.
           rewrite Hn. apply replacement_id_elem, Hne.
      * simpl. intros n [= <-] Hbad. exfalso. apply Hbad. by left.
    + apply Hkeep. destruct (decide (Choice.nextScene c = Some (Ref.next_scene ref)));
        [left|by right].
      intros Heq. apply (f_equal Ref.choice_text) in Heq. simpl in Heq. by apply Hno.
  - apply Hkeep. left. intros Heq. apply (f_equal Ref.source_scene) in Heq. by simpl in Heq.
Qed.

Lemma pending_to_done scene_ids sid c0 c :
  pending_to scene_ids [] sid c0 c → repaired_to scene_ids sid c0 c.
Proof.
  intros (Ht & Hc & Hp). split; [done|].
  destruct (Choice.nextScene c0) as [n|] eqn:Hn0.
  - destruct (decide (valid_target scene_ids n)) as [Hv|Hv].
    + destruct Hc as [->|(m & Hm & Hbad & _)]; [done|]. congruence.
    + destruct Hc as [->|(m & Hm & Hbad & Hm')].
      * specialize (Hp n Hn0 Hv). by apply elem_of_nil in Hp.
      * rewrite Ht in *. congruence.
  - destruct Hc as [->|(m & Hm & _)]; [done|]. congruence.
Qed.

Lemma reference_repair_exact scene_ids ss :
  scene_ids ≠ [] →
  Forall2 (scene_rel (repaired_to scene_ids) (λ _, False)) ss
    (repair_references scene_ids (invalid_refs_of scene_ids (collect_refs ss)) ss).
Proof.
  intros Hne.
  assert (Hfold : ∀ refs ss',
    Forall (λ ref, ¬ valid_target scene_ids (Ref.next_scene ref)) refs →
    Forall2 (scene_rel (pending_to scene_ids refs) (λ _, False)) ss ss' →
    Forall2 (scene_rel (pending_to scene_ids []) (λ _, False)) ss
      (repair_references scene_ids refs ss')).
  { unfold repair_references.
    induction refs as [|ref refs IH]; intros ss' Hbad Hrel; [done|].
    simpl. apply Forall_cons in Hbad as [Hb Hbad]. apply IH; [done|].
    eapply fix_reference_rel; [|exact Hrel].
    intros sid c0 c. by apply pending_to_step. }
  eapply Forall2_impl.
  - apply Hfold; [apply invalid_refs_of_bad|].
    apply Forall_Forall2_diag, Forall_forall. intros s Hs.
    apply scene_rel_diag. intros d cs c Hd Hcs Hc.
    split; [done|]. split; [by left|]. intros n Hn Hbad.
    apply list_elem_of_filter. split.
    + simpl. split; intros ?; apply Hbad; [by left|by right].
    + apply collect_refs_elem. exists c. simpl. split; [|done]. by exists s, d, cs.
  - intros s s'. apply scene_rel_mono; [|done]. intros sid c c'. apply pending_to_done.
Qed.

Lemma replacement_id_similar scene_ids ref :
  let similar := λ sid, str_in (Ref.next_scene ref) sid || str_in sid (Ref.next_scene ref) in
  ((∃ sid, sid ∈ scene_ids ∧ similar sid = true) →
   similar (replacement_id scene_ids ref) = true) ∧
  ((∀ sid, sid ∈ scene_ids → similar sid = false) →
   replacement_id scene_ids ref = default EmptyString (head scene_ids)).
Proof.
  intros similar. unfold replacement_id, similar_ids_of. fold similar.
  destruct (List.filter similar scene_ids) as [|x l] eqn:Hf; split.
  - intros (sid & Hin & Hsim). exfalso.
    assert (Hx : In sid (List.filter similar scene_ids))
      by (apply filter_In; split; [by apply list_elem_of_In|done]).
    by rewrite Hf in Hx.
  - done.
  - intros _. assert (Hx : In x (List.filter similar scene_ids)) by (rewrite Hf; by left).
    by apply filter_In in Hx as [_ Hx].
  - intros Hnone. exfalso.
    assert (Hx : In x (List.filter similar scene_ids)) by (rewrite Hf; by left).
    apply filter_In in Hx as [Hin Hx]. apply list_elem_of_In in Hin.
    rewrite (Hnone x Hin) in Hx. done.
Qed.

(** X3. What the validator writes, exactly. On a script with at least
    one scene, every choice whose target was dangling now points to
    [replacement_id]: a scene id that contains the old target or is
    contained in it when there is one, and otherwise the first scene id in
    the iteration order of the id set; every other choice is untouched, and
    every appended choice leads to a scene that the closure over the
    references collected before the repair did not reach. *)
Theorem validate_rewrites_and_appends `{PySet} `{Random} script_data :
  let scenes := Script.scenes script_data in
  let scene_ids := scene_ids_of scenes in
  scenes ≠ [] →
  (∃ out reachable,
     validate_and_fix_scene_connections script_data = Ok out ∧
     reachable_set scene_ids (collect_refs scenes) = Ok reachable ∧
     Forall2 (scene_rel (repaired_to scene_ids)
                        (is_new_path (unreachable_of scene_ids reachable)))
             scenes (Script.scenes out)) ∧
  ∀ ref,
    let similar := λ sid, str_in (Ref.next_scene ref) sid || str_in sid (Ref.next_scene ref) in
    replacement_id scene_ids ref ∈ scene_ids ∧
    ((∃ sid, sid ∈ scene_ids ∧ similar sid = true) →
     similar (replacement_id scene_ids ref) = true) ∧
    ((∀ sid, sid ∈ scene_ids → similar sid = false) →
     head scene_ids = Some (replacement_id scene_ids ref)).
Proof.
  intros scenes scene_ids Hne.
  pose proof (scene_ids_of_nonempty scenes Hne) as Hids. fold scene_ids in Hids.
  split.
  - destruct (validate_returns script_data Hne) as (reachable & out & Hr & Hrun & ->).
    exists (Script.with_scenes script_data out), reachable.
    split; [done|]. split; [done|]. simpl.
    eapply connect_unreachable_rel; [| |exact Hrun].
    + apply Forall_forall. intros x Hx. by exists x.
    + eapply Forall2_impl; [by apply reference_repair_exact|].
      intros s s'. by apply scene_rel_mono.
  - intros ref similar. split; [by apply replacement_id_elem|].
    destruct (replacement_id_similar scene_ids ref) as [Hsim Hnone]. split; [done|].
    intros Hno. rewrite (Hnone Hno). by destruct scene_ids.
Qed.

Lemma validate_rewrites_and_appends_witness :
  ∃ out reachable,
    @validate_and_fix_scene_connections first_seen_order (constant_draws 1)
      dangling_script = Ok out ∧
    reachable_set (@scene_ids_of first_seen_order (Script.scenes dangling_script))
      (collect_refs (Script.scenes dangling_script)) = Ok reachable ∧
    Forall2 (scene_rel
               (repaired_to (@scene_ids_of first_seen_order (Script.scenes dangling_script)))
               (is_new_path
                  (@unreachable_of first_seen_order
                     (@scene_ids_of first_seen_order (Script.scenes dangling_script))
                     reachable)))
            (Script.scenes dangling_script) (Script.scenes out).
Proof.
  apply (@validate_rewrites_and_appends first_seen_order (constant_draws 1) dangling_script).
  simpl. discriminate.
Defined.

Lemma append_first_choices_none c ds :
  Forall (λ d, Dialogue.choices d = None) ds → append_first_choices c ds = ds.
Proof.
  induction 1 as [|d ds Hd _ IH]; simpl; [done|]. by rewrite Hd, IH.
Qed.

(** X4. The reachability repair extends the last decision point only:
    [append_last_choices] leaves a dialogue without any choices list as it
    is, and otherwise appends the new choice to the last entry that carries
    a choices list, every other entry and the order of the entries being
    kept. *)
Theorem append_last_choices_spec c ds :
  (Forall (λ d, Dialogue.choices d = None) ds → append_last_choices c ds = ds) ∧
  (∀ before d after cs,
     ds = before ++ d :: after → Dialogue.choices d = Some cs →
     Forall (λ d', Dialogue.choices d' = None) after →
     append_last_choices c ds
       = before ++ Dialogue.with_choices d (cs ++ [c]) :: after).
Proof.
  unfold append_last_choices. split.
  - intros Hnone. rewrite append_first_choices_none; [apply reverse_involutive|].
    apply Forall_reverse. done.
  - intros before d after cs -> Hcs Hafter.
    rewrite reverse_app, reverse_cons, <- app_assoc. simpl.
    assert (Hfirst : ∀ l k, Forall (λ d', Dialogue.choices d' = None) l →
      append_first_choices c (l ++ d :: k)
        = l ++ Dialogue.with_choices d (cs ++ [c]) :: k).
    { induction 1 as [|d' l Hd' _ IH]; simpl; [by rewrite Hcs|]. by rewrite Hd', IH. }
    rewrite Hfirst by (by apply Forall_reverse).
    rewrite reverse_app, reverse_cons, !reverse_involutive, <- app_assoc. done.
Qed.

Lemma append_last_choices_spec_witness :
  append_last_choices (new_path_choice "scene_3")
    ([narrator "The road forks."] ++ choice_prompt [] :: [narrator "Silence."])
  = [narrator "The road forks."]
    ++ Dialogue.with_choices (choice_prompt []) ([] ++ [new_path_choice "scene_3"])
    :: [narrator "Silence."].
Proof.
  apply (proj2 (append_last_choices_spec (new_path_choice "scene_3")
                  ([narrator "The road forks."] ++ choice_prompt []
                     :: [narrator "Silence."]))
           [narrator "The road forks."] (choice_prompt []) [narrator "Silence."] []);
    [reflexivity|reflexivity|].
  repeat constructor.
Defined.

(** ** The scene graph index *)

Lemma add_outgoing_out_iff g k target text a b :
  out_edge (add_outgoing k target text g) a b ↔
  out_edge g a b ∨ (a = k ∧ b = target ∧ is_Some (g !! k)).
Proof.
  unfold add_outgoing, out_edge. destruct (g !! k) as [node|] eqn:Hk.
  - destruct (decide (target ∈ Graph.target <$> Graph.outgoing node)) as [Hin|Hnew].
    + split; [by left|]. intros [?|(-> & -> & _)]; [done|]. by exists node.
    + destruct (decide (a = k)) as [->|Hne].
      * rewrite lookup_insert_eq, Hk. split.
        -- intros (n' & [= <-] & Hb). simpl in Hb. rewrite fmap_app in Hb.
           apply elem_of_app in Hb as [Hb|Hb]; [left; by exists node|].
           apply list_elem_of_singleton in Hb. right. by rewrite Hb.
        -- intros [(n' & [= <-] & Hb)|(_ & -> & _)]; eexists; (split; [done|]);
             simpl; rewrite fmap_app; apply elem_of_app; [by left|right].
           apply list_elem_of_here.
      * rewrite lookup_insert_ne by done. split; [by left|].
        intros [?|(? & _)]; done.
  - split; [by left|]. intros [?|(_ & _ & [? ?])]; done.
Qed.

Lemma add_outgoing_in_iff g k target text a b :
  in_edge (add_outgoing k target text g) a b ↔ in_edge g a b.
Proof.
  unfold add_outgoing, in_edge. destruct (g !! k) as [node|] eqn:Hk; [|done].
  destruct (decide _); [done|]. destruct (decide (a = k)) as [->|Hne].
  - rewrite lookup_insert_eq, Hk. split; intros (n' & [= <-] & Hb); by eexists.
  - by rewrite lookup_insert_ne.
Qed.

Lemma add_incoming_in_iff g k source text a b :
  in_edge (add_incoming k source text g) a b ↔
  in_edge g a b ∨ (a = k ∧ b = source ∧ is_Some (g !! k)).
Proof.
  unfold add_incoming, in_edge. destruct (g !! k) as [node|] eqn:Hk.
  - destruct (decide (source ∈ Graph.source <$> Graph.incoming node)) as [Hin|Hnew].
    + split; [by left|]. intros [?|(-> & -> & _)]; [done|]. by exists node.
    + destruct (decide (a = k)) as [->|Hne].
      * rewrite lookup_insert_eq, Hk. split.
        -- intros (n' & [= <-] & Hb). simpl in Hb. rewrite fmap_app in Hb.
           apply elem_of_app in Hb as [Hb|Hb]; [left; by exists node|].
           apply list_elem_of_singleton in Hb. right. by rewrite Hb.
        -- intros [(n' & [= <-] & Hb)|(_ & -> & _)]; eexists; (split; [done|]);
             simpl; rewrite fmap_app; apply elem_of_app; [by left|right].
           apply list_elem_of_here.
      * rewrite lookup_insert_ne by done. split; [by left|].
        intros [?|(? & _)]; done.
  - split; [by left|]. intros [?|(_ & _ & [? ?])]; done.
Qed.

Lemma add_incoming_out_iff g k source text a b :
  out_edge (add_incoming k source text g) a b ↔ out_edge g a b.
Proof.
  unfold add_incoming, out_edge. destruct (g !! k) as [node|] eqn:Hk; [|done].
  destruct (decide _); [done|]. destruct (decide (a = k)) as [->|Hne].
  - rewrite lookup_insert_eq, Hk. split; intros (n' & [= <-] & Hb); by eexists.
  - by rewrite lookup_insert_ne.
Qed.

Lemma ensure_node_out_iff g k a b : out_edge (ensure_node k g) a b ↔ out_edge g a b.
Proof.
  unfold ensure_node, out_edge. destruct (g !! k) eqn:Hk; [done|].
  destruct (decide (a = k)) as [->|Hne].
  - rewrite lookup_insert_eq, Hk. split; intros (n' & Hn & Hb); [|done].
    injection Hn as <-. by apply elem_of_nil in Hb.
  - by rewrite lookup_insert_ne.
Qed.

Lemma ensure_node_in_iff g k a b : in_edge (ensure_node k g) a b ↔ in_edge g a b.
Proof.
  unfold ensure_node, in_edge. destruct (g !! k) eqn:Hk; [done|].
  destruct (decide (a = k)) as [->|Hne].
  - rewrite lookup_insert_eq, Hk. split; intros (n' & Hn & Hb); [|done].
    injection Hn as <-. by apply elem_of_nil in Hb.
  - by rewrite lookup_insert_ne.
Qed.

Lemma connect_out_iff scene_id g c a b :
  is_Some (g !! scene_id) →
  out_edge (connect scene_id g c) a b ↔
  out_edge g a b ∨ (a = scene_id ∧ Choice.nextScene c = Some b ∧ b ≠ "exit").
Proof.
  intros Hsome. unfold connect. destruct (Choice.nextScene c) as [next|].
  - destruct (decide (next ≠ "exit")) as [Hne|Hex].
    + rewrite add_incoming_out_iff, ensure_node_out_iff, add_outgoing_out_iff.
      split; (intros [?|H]; [by left|right]).
      * destruct H as (-> & -> & _). done.
      * destruct H as (-> & [= <-] & _). done.
    + split; [by left|]. intros [?|(_ & [= <-] & ?)]; done.
  - split; [by left|]. intros [?|(_ & ? & _)]; done.
Qed.

Lemma connect_in_iff scene_id g c a b :
  in_edge (connect scene_id g c) b a ↔
  in_edge g b a ∨ (a = scene_id ∧ Choice.nextScene c = Some b ∧ b ≠ "exit").
Proof.
  unfold connect. destruct (Choice.nextScene c) as [next|].
  - destruct (decide (next ≠ "exit")) as [Hne|Hex].
    + rewrite add_incoming_in_iff, ensure_node_in_iff, add_outgoing_in_iff.
      split; (intros [?|H]; [by left|right]).
      * destruct H as (-> & -> & _). done.
      * destruct H as (-> & [= <-] & _). split; [done|]. split; [done|].
        apply ensure_node_is_Some.
    + split; [by left|]. intros [?|(_ & [= <-] & ?)]; done.
  - split; [by left|]. intros [?|(_ & ? & _)]; done.
Qed.

Lemma connect_choices_edges scene_id a b cs : ∀ g,
  is_Some (g !! scene_id) →
  (out_edge (foldl (connect scene_id) g cs) a b ↔
   out_edge g a b ∨
   (a = scene_id ∧ ∃ c, c ∈ cs ∧ Choice.nextScene c = Some b ∧ b ≠ "exit")) ∧
  (in_edge (foldl (connect scene_id) g cs) b a ↔
   in_edge g b a ∨
   (a = scene_id ∧ ∃ c, c ∈ cs ∧ Choice.nextScene c = Some b ∧ b ≠ "exit")).
Proof.
  induction cs as [|c cs IH]; intros g Hsome; simpl.
  - split; (split; [by left|]); intros [?|(_ & c & Hc & _)]; try done;
      by apply elem_of_nil in Hc.
  - destruct (IH (connect scene_id g c)) as [Hout Hin].
    { eapply graph_extends_is_Some; [apply connect_extends|done]. }
    rewrite Hout, Hin, connect_out_iff, connect_in_iff by done.
    split; setoid_rewrite elem_of_cons; naive_solver.
Qed.

Lemma connect_dialogues_edges scene_id a b ds : ∀ g,
  is_Some (g !! scene_id) →
  (out_edge (foldl (connect_dialogue scene_id) g ds) a b ↔
   out_edge g a b ∨
   (a = scene_id ∧ ∃ d cs c, d ∈ ds ∧ Dialogue.choices d = Some cs ∧ c ∈ cs ∧
                             Choice.nextScene c = Some b ∧ b ≠ "exit")) ∧
  (in_edge (foldl (connect_dialogue scene_id) g ds) b a ↔
   in_edge g b a ∨
   (a = scene_id ∧ ∃ d cs c, d ∈ ds ∧ Dialogue.choices d = Some cs ∧ c ∈ cs ∧
                             Choice.nextScene c = Some b ∧ b ≠ "exit")).
Proof.
  induction ds as [|d ds IH]; intros g Hsome; simpl.
  - split; (split; [by left|]); intros [?|(_ & d & cs & c & Hd & _)]; try done;
      by apply elem_of_nil in Hd.
  - destruct (IH (connect_dialogue scene_id g d)) as [Hout Hin].
    { eapply graph_extends_is_Some; [apply connect_dialogue_extends|done]. }
    rewrite Hout, Hin. clear Hout Hin IH. unfold connect_dialogue.
    destruct (Dialogue.choices d) as [cs|] eqn:Hcs.
    + destruct (connect_choices_edges scene_id a b cs g Hsome) as [-> ->].
      split; setoid_rewrite elem_of_cons; naive_solver.
    + split; setoid_rewrite elem_of_cons; naive_solver.
Qed.

Lemma index_graph_edges g scene a b :
  (out_edge (index_graph g scene) a b ↔ out_edge g a b ∨ edge [scene] a b) ∧
  (in_edge (index_graph g scene) b a ↔ in_edge g b a ∨ edge [scene] a b).
Proof.
  unfold index_graph.
  destruct (connect_dialogues_edges (Scene.id scene) a b (Scene.dialogue scene)
              (ensure_node (Scene.id scene) g) (ensure_node_is_Some _ _)) as [-> ->].
  rewrite ensure_node_out_iff, ensure_node_in_iff. unfold edge.
  split; setoid_rewrite list_elem_of_singleton; naive_solver.
Qed.

Lemma index_graphs_edges scenes a b : ∀ g,
  (out_edge (foldl index_graph g scenes) a b ↔ out_edge g a b ∨ edge scenes a b) ∧
  (in_edge (foldl index_graph g scenes) b a ↔ in_edge g b a ∨ edge scenes a b).
Proof.
  induction scenes as [|scene scenes IH]; intros g; simpl.
  - split; (split; [by left|]); intros [?|(s & d & cs & c & Hs & _)]; try done;
      by apply elem_of_nil in Hs.
  - destruct (IH (index_graph g scene)) as [-> ->].
    destruct (index_graph_edges g scene a b) as [-> ->]. unfold edge.
    split; repeat setoid_rewrite elem_of_cons; setoid_rewrite elem_of_nil;
      naive_solver.
Qed.

(** X5. The index after [update_scene_graph] has exactly the edges it had
    plus the forward edges of the script: a scene lists a target among its
    outgoing edges iff it did before or one of its choices leads there (the
    sentinel ["exit"] is never added), and likewise for incoming edges; so
    an index whose outgoing and incoming lists agree keeps agreeing. *)
Theorem update_scene_graph_edges script_data w a b :
  let g := World.scene_graph w in
  let g' := World.scene_graph (update_scene_graph script_data w) in
  (out_edge g' a b ↔ out_edge g a b ∨ edge (Script.scenes script_data) a b) ∧
  (in_edge g' b a ↔ in_edge g b a ∨ edge (Script.scenes script_data) a b) ∧
  (graph_symmetric g → graph_symmetric g').
Proof.
  intros g g'. unfold g'. rewrite update_scene_graph_fields. simpl. fold g.
  split; [apply index_graphs_edges|]. split; [apply index_graphs_edges|].
  intros Hsym x y.
  destruct (index_graphs_edges (Script.scenes script_data) x y g) as [-> ->].
  by rewrite (Hsym x y).
Qed.

Lemma update_scene_graph_edges_witness :
  graph_symmetric (World.scene_graph (World.initial true)) ∧
  graph_symmetric
    (World.scene_graph (update_scene_graph dangling_script (World.initial true))).
Proof.
  assert (Hempty : graph_symmetric (World.scene_graph (World.initial true))).
  { intros x y. split; intros (node & Hk & _); simpl in Hk; by rewrite lookup_empty in Hk. }
  split; [exact Hempty|].
  exact (proj2 (proj2 (update_scene_graph_edges dangling_script (World.initial true)
                         "scene_1" "scene_2")) Hempty).
Defined.

(** X6. Indexing then resolving. After [update_scene_graph] the scenes
    cache holds, under every id of the script, the last scene of the script
    with that id, and keeps its other entries; a request of the runtime
    resolver for such an id returns that scene at once, writing nothing and
    awaiting nothing. *)
Theorem indexed_scene_is_served `{Random} `{TextLib} script_data w scene_id :
  let w' := update_scene_graph script_data w in
  World.generated_scenes w' !! scene_id =
    match last (filter (λ scene, Scene.id scene = scene_id) (Script.scenes script_data)) with
    | Some scene => Some (SceneObj scene)
    | None => World.generated_scenes w !! scene_id
    end ∧
  ∀ scene,
    last (filter (λ scene, Scene.id scene = scene_id) (Script.scenes script_data))
      = Some scene →
    generate_next_scene scene_id w' = Task.Return w' (Ok (SceneObj scene)).
Proof.
  intros w'.
  assert (Hl : World.generated_scenes w' !! scene_id =
    match last (filter (λ scene, Scene.id scene = scene_id) (Script.scenes script_data)) with
    | Some scene => Some (SceneObj scene)
    | None => World.generated_scenes w !! scene_id
    end).
  { unfold w'. rewrite update_scene_graph_fields. simpl. apply store_scenes_lookup. }
  split; [exact Hl|]. intros scene Hlast. rewrite Hlast in Hl.
  unfold generate_next_scene. by rewrite Hl.
Qed.

Lemma indexed_scene_is_served_witness :
  @generate_next_scene (constant_draws 0) stub_textlib "scene_3"
    (update_scene_graph dangling_script (World.initial true))
  = Task.Return (update_scene_graph dangling_script (World.initial true))
      (Ok (SceneObj (choice_scene "scene_3" []))).
Proof.
  apply (proj2 (@indexed_scene_is_served (constant_draws 0) stub_textlib
                  dangling_script (World.initial true) "scene_3")).
  reflexivity.
Defined.

Lemma add_character_ids_spec chars : ∀ listed,
  NoDup listed →
  NoDup (add_character_ids listed chars) ∧
  ∀ x, x ∈ add_character_ids listed chars ↔
       x ∈ listed ∨ (x ≠ EmptyString ∧ x ∈ SceneCharacter.id <$> chars).
Proof.
  unfold add_character_ids. induction chars as [|char chars IH]; intros listed Hnd; simpl.
  - split; [done|]. intros x. split; [by left|]. intros [?|[_ Hx]]; [done|].
    by apply elem_of_nil in Hx.
  - destruct (decide (SceneCharacter.id char ≠ EmptyString
                      ∧ SceneCharacter.id char ∉ listed)) as [[Hne Hnew]|Hno].
    + destruct (IH (listed ++ [SceneCharacter.id char])) as [Hnd' Hiff].
      { apply NoDup_app. split; [done|]. split; [|apply NoDup_singleton].
        intros y Hy ->%list_elem_of_singleton. done. }
      split; [done|]. intros x. rewrite Hiff, elem_of_app, list_elem_of_singleton.
      rewrite elem_of_cons. naive_solver.
    + destruct (IH listed Hnd) as [Hnd' Hiff]. split; [done|].
      intros x. rewrite Hiff, elem_of_cons. split; [naive_solver|].
      intros [?|[Hx [->|?]]]; [by left| |by right].
      destruct (decide (SceneCharacter.id char ∈ listed)); [by left|].
      exfalso. apply Hno. done.
Qed.

(** X7. The characters the resolver infers for a known target are the
    union of the characters of the cached source scenes: when
    [infer_characters] returns, its result has no duplicates and holds
    exactly the ids listed before and the non-empty character ids of the
    cached scenes the incoming edges come from; it raises only when a
    cached source is not an object. *)
Theorem infer_characters_is_union generated_scenes incoming : ∀ listed,
  NoDup listed →
  match infer_characters generated_scenes incoming listed with
  | Ok result =>
      NoDup result ∧
      ∀ x, x ∈ result ↔
           x ∈ listed ∨
           (x ≠ EmptyString ∧
            ∃ conn source_scene chars,
              conn ∈ incoming ∧
              generated_scenes !! Graph.source conn = Some source_scene ∧
              data_characters source_scene = Ok chars ∧
              x ∈ SceneCharacter.id <$> chars)
  | Raise e =>
      e = AttributeError ∧
      ∃ conn truthy, conn ∈ incoming ∧
                     generated_scenes !! Graph.source conn = Some (NonObj truthy)
  end.
Proof.
  induction incoming as [|conn incoming IH]; intros listed Hnd; simpl.
  - split; [done|]. intros x. split; [by left|].
    intros [?|(_ & c & _ & _ & Hc & _)]; [done|]. by apply elem_of_nil in Hc.
  - destruct (generated_scenes !! Graph.source conn) as [source_scene|] eqn:Hsrc.
    + destruct (data_characters source_scene) as [chars|e] eqn:Hchars; simpl.
      * destruct (add_character_ids_spec chars listed Hnd) as [Hnd' Hadd].
        specialize (IH _ Hnd').
        destruct (infer_characters _ _ _) as [result|e].
        -- destruct IH as [Hres Hiff]. split; [done|]. intros x.
           rewrite Hiff, Hadd. setoid_rewrite elem_of_cons. split.
           ++ intros [[?|[? ?]]|(? & c & s & l & ? & ? & ? & ?)]; [by left| |].
              ** right. split; [done|]. by exists conn, source_scene, chars; auto.
              ** right. split; [done|]. exists c, s, l. auto.
           ++ intros [?|(? & c & s & l & [->|?] & Hs & Hl & ?)]; [by left; left| |].
              ** rewrite Hsrc in Hs. injection Hs as <-. rewrite Hchars in Hl.
                 injection Hl as <-. left. by right.
              ** right. split; [done|]. by exists c, s, l.
        -- destruct IH as (-> & c & t & Hc & Hs). split; [done|].
           exists c, t. split; [by apply list_elem_of_further|done].
      * destruct source_scene as [| |truthy]; try done. simpl in Hchars.
        injection Hchars as <-. split; [done|].
        exists conn, truthy. split; [apply list_elem_of_here|done].
    + specialize (IH _ Hnd). destruct (infer_characters _ _ _) as [result|e].
      * destruct IH as [Hres Hiff]. split; [done|]. intros x. rewrite Hiff.
        setoid_rewrite elem_of_cons. split.
        -- intros [?|(? & c & s & l & ? & ? & ? & ?)]; [by left|].
           right. split; [done|]. exists c, s, l. auto.
        -- intros [?|(? & c & s & l & [->|?] & Hs & Hl & ?)]; [by left|congruence|].
           right. split; [done|]. by exists c, s, l.
      * destruct IH as (-> & c & t & Hc & Hs). split; [done|].
        exists c, t. split; [by apply list_elem_of_further|done].
Qed.

Lemma infer_characters_is_union_witness :
  let generated_scenes :=
    World.generated_scenes
      (update_scene_graph script_with_pending_target (World.initial true)) in
  let incoming := [Graph.mkIn "scene_1" "Continue to scene_x"] in
  NoDup (@nil string) ∧
  infer_characters generated_scenes incoming [] = Ok ["hero"] ∧
  match infer_characters generated_scenes incoming [] with
  | Ok result =>
      NoDup result ∧
      ∀ x, x ∈ result ↔
           x ∈ @nil string ∨
           (x ≠ EmptyString ∧
            ∃ conn source_scene chars,
              conn ∈ incoming ∧
              generated_scenes !! Graph.source conn = Some source_scene ∧
              data_characters source_scene = Ok chars ∧
              x ∈ SceneCharacter.id <$> chars)
  | Raise e =>
      e = AttributeError ∧
      ∃ conn truthy, conn ∈ incoming ∧
                     generated_scenes !! Graph.source conn = Some (NonObj truthy)
  end.
Proof.
  intros generated_scenes incoming.
  split; [apply NoDup_nil_2|]. split; [by vm_compute|].
  apply (infer_characters_is_union generated_scenes incoming []), NoDup_nil_2.
Defined.

(** * Coroutines: results and awaits *)

Lemma ends_with_mono {R} (Q Q' : World.t → Result R → Prop) task :
  (∀ w r, Q w r → Q' w r) → ends_with Q task → ends_with Q' task.
Proof. intros HQ Hends. induction Hends; constructor; auto. Qed.

Lemma ends_with_bind {A B} (Q : World.t → Result A → Prop)
    (Q' : World.t → Result B → Prop) task k :
  ends_with Q task → (∀ w r, Q w r → ends_with Q' (k r w)) →
  ends_with Q' (Task.bind task k).
Proof. intros Hends Hk. induction Hends; simpl; [auto|constructor; auto..]. Qed.

Lemma ends_with_True {R} (task : Task.t R) : ends_with (λ _ _, True) task.
Proof. induction task; constructor; auto. Qed.

Lemma awaits_at_most_mono {R} (task : Task.t R) sleeps calls :
  awaits_at_most sleeps calls task →
  ∀ sleeps' calls', sleeps ≤ sleeps' → calls ≤ calls' →
                    awaits_at_most sleeps' calls' task.
Proof.
  induction 1 as [| sleeps calls w resume _ IH | sleeps calls w prompt resume _ IH];
    intros sleeps' calls' Hs Hc.
  - constructor.
  - destruct sleeps' as [|sleeps']; [lia|]. constructor. intros w'. apply IH; lia.
  - destruct calls' as [|calls']; [lia|]. constructor. intros response w'. apply IH; lia.
Qed.

Lemma awaits_at_most_bind {A B} (task : Task.t A) (k : Result A → World.t → Task.t B)
    sleeps calls :
  awaits_at_most sleeps calls task → (∀ r w, awaits_at_most 0 0 (k r w)) →
  awaits_at_most sleeps calls (Task.bind task k).
Proof.
  intros Hawaits Hk. induction Hawaits; simpl.
  - eapply awaits_at_most_mono; [apply Hk|lia..].
  - constructor. auto.
  - constructor. auto.
Qed.

(** ** What [create_placeholder_scene] needs *)

Lemma find_character_raises_AttributeError `{TextLib} char_id chars e :
  find_character char_id chars = Raise e → e = AttributeError.
Proof.
  induction chars as [|c chars IH]; simpl; [done|]. unfold char_matches.
  destruct (decide _); simpl; [done|].
  destruct (BookCharacter.name c); simpl; [|congruence].
  destruct (String.eqb _ _); [done|exact IH].
Qed.

Lemma find_character_named `{TextLib} char_id chars :
  (∀ c, c ∈ chars → is_Some (BookCharacter.name c)) →
  ∃ found, find_character char_id chars = Ok found.
Proof.
  induction chars as [|c chars IH]; intros Hnamed; simpl; [by eexists|].
  unfold char_matches. destruct (decide _); simpl; [by eexists|].
  destruct (Hnamed c) as [name' ->]; [apply list_elem_of_here|]. simpl.
  destruct (String.eqb _ _); [by eexists|].
  apply IH. intros c' Hc'. apply Hnamed. by apply list_elem_of_further.
Qed.

Lemma placeholder_characters_raises_AttributeError `{TextLib} book_analysis char_ids e :
  placeholder_characters book_analysis char_ids = Raise e → e = AttributeError.
Proof.
  induction char_ids as [|char_id char_ids IH]; simpl; [done|].
  destruct book_analysis as [ba|]; simpl; [|congruence].
  destruct (find_character _ _) as [found|e'] eqn:Hfind; simpl.
  - destruct (placeholder_characters _ _) as [others|e'']; simpl.
    + by destruct found.
    + intros [= <-]. by apply IH.
  - intros [= <-]. by eapply find_character_raises_AttributeError.
Qed.

Lemma placeholder_characters_named `{TextLib} ba char_ids :
  characters_named ba →
  ∃ found, placeholder_characters (Some ba) char_ids = Ok found.
Proof.
  intros Hnamed. induction char_ids as [|char_id char_ids [others IH]]; simpl; [by eexists|].
  destruct (find_character_named char_id _ Hnamed) as [found ->]. simpl.
  rewrite IH. simpl. destruct found; by eexists.
Qed.

Lemma create_placeholder_scene_raises_AttributeError `{TextLib}
    scene_id scene_outline book_analysis e :
  create_placeholder_scene scene_id scene_outline book_analysis = Raise e →
  e = AttributeError.
Proof.
  unfold create_placeholder_scene.
  destruct (placeholder_characters _ _) as [found|e'] eqn:Hfound; simpl; [done|].
  intros [= <-]. by eapply placeholder_characters_raises_AttributeError.
Qed.

Lemma create_placeholder_scene_named `{TextLib} scene_id scene_outline ba :
  characters_named ba →
  ∃ scene, create_placeholder_scene scene_id scene_outline (Some ba) = Ok scene.
Proof.
  intros Hnamed. unfold create_placeholder_scene.
  destruct (placeholder_characters_named ba
              (default [] (Outline.characters scene_outline)) Hnamed) as [found ->].
  simpl. by eexists.
Qed.

(** ** The synthesizer *)

Section SynthesizerResults.
Context `{Random} `{TextLib}.
Variables (scene_id : string) (scene_outline : Outline.t)
          (book_analysis : option BookAnalysis.t).

Lemma release_generated_scenes k w w' :
  World.release k w = Ok w' → World.generated_scenes w' = World.generated_scenes w.
Proof. unfold World.release. destruct (decide _); [|done]. by intros [= <-]. Qed.

Lemma recover_ends w :
  ends_with (synthesized scene_id scene_outline book_analysis) (recover scene_id scene_outline book_analysis w).
Proof.
  unfold recover.
  destruct (create_placeholder_scene _ _ _) as [p|e] eqn:Hp; constructor; simpl.
  - destruct (World.release _ _) as [w'|e] eqn:Hrel.
    + rewrite (release_generated_scenes _ _ _ Hrel). simpl. apply lookup_insert_eq.
    + simpl. apply lookup_insert_eq.
  - pose proof (create_placeholder_scene_raises_AttributeError _ _ _ _ Hp) as ->. done.
Qed.

Lemma publish_ends data on_key_error w :
  (∀ w1, ends_with (synthesized scene_id scene_outline book_analysis) (on_key_error w1)) →
  ends_with (synthesized scene_id scene_outline book_analysis) (publish scene_id data on_key_error w).
Proof.
  intros Hk. unfold publish. destruct (World.release _ _) as [w'|e] eqn:Hrel; [|apply Hk].
  constructor. simpl. rewrite (release_generated_scenes _ _ _ Hrel). simpl.
  apply lookup_insert_eq.
Qed.

Lemma publish_placeholder_ends w :
  ends_with (synthesized scene_id scene_outline book_analysis) (publish_placeholder scene_id scene_outline book_analysis w).
Proof.
  unfold publish_placeholder. destruct (create_placeholder_scene _ _ _).
  - apply publish_ends, recover_ends.
  - apply recover_ends.
Qed.

Lemma on_response_ends response w :
  ends_with (synthesized scene_id scene_outline book_analysis) (on_response scene_id scene_outline book_analysis response w).
Proof.
  unfold on_response. destruct response as [| |scene_text]; try apply recover_ends.
  destruct (json_loads_scene _) as [[scene| |truthy]|].
  - apply publish_ends, recover_ends.
  - apply publish_ends, recover_ends.
  - apply recover_ends.
  - destruct (decide _); [|apply publish_placeholder_ends].
    destruct (json_loads_scene _); [|apply publish_placeholder_ends].
    apply publish_ends, publish_placeholder_ends.
Qed.

Lemma claim_and_generate_ends w :
  ends_with (synthesized scene_id scene_outline book_analysis) (claim_and_generate scene_id scene_outline book_analysis w).
Proof.
  unfold claim_and_generate. destruct (scene_characters _ _); [|apply recover_ends].
  simpl. destruct (_ && _); [|apply recover_ends].
  constructor. intros response w'. apply on_response_ends.
Qed.

Lemma wait_for_scene_ends n : ∀ w,
  ends_with (synthesized scene_id scene_outline book_analysis) (wait_for_scene scene_id scene_outline book_analysis n w).
Proof.
  induction n as [|n IH]; intros w; simpl; [apply claim_and_generate_ends|].
  constructor. intros w'.
  destruct (World.generated_scenes w' !! scene_id) eqn:Hl; [by constructor|apply IH].
Qed.

Lemma synthesize_ends w :
  ends_with (synthesized scene_id scene_outline book_analysis) (synthesize scene_id scene_outline book_analysis w).
Proof.
  unfold synthesize.
  destruct (World.generated_scenes w !! scene_id) eqn:Hl; [by constructor|].
  destruct (decide _); [apply wait_for_scene_ends|apply claim_and_generate_ends].
Qed.

Lemma recover_awaits w :
  awaits_at_most 0 0 (recover scene_id scene_outline book_analysis w).
Proof. unfold recover. destruct (create_placeholder_scene _ _ _); constructor. Qed.

Lemma publish_awaits data on_key_error w :
  (∀ w1, awaits_at_most 0 0 (on_key_error w1)) →
  awaits_at_most 0 0 (publish scene_id data on_key_error w).
Proof.
  intros Hk. unfold publish. destruct (World.release _ _); [constructor|apply Hk].
Qed.

Lemma publish_placeholder_awaits w :
  awaits_at_most 0 0 (publish_placeholder scene_id scene_outline book_analysis w).
Proof.
  unfold publish_placeholder. destruct (create_placeholder_scene _ _ _).
  - apply publish_awaits, recover_awaits.
  - apply recover_awaits.
Qed.

Lemma on_response_awaits response w :
  awaits_at_most 0 0 (on_response scene_id scene_outline book_analysis response w).
Proof.
  unfold on_response. destruct response as [| |scene_text]; try apply recover_awaits.
  destruct (json_loads_scene _) as [[scene| |truthy]|].
  - apply publish_awaits, recover_awaits.
  - apply publish_awaits, recover_awaits.
  - apply recover_awaits.
  - destruct (decide _); [|apply publish_placeholder_awaits].
    destruct (json_loads_scene _); [|apply publish_placeholder_awaits].
    apply publish_awaits, publish_placeholder_awaits.
Qed.

Lemma claim_and_generate_awaits w :
  awaits_at_most 0 (if World.GEMINI_AVAILABLE w then 1 else 0)
    (claim_and_generate scene_id scene_outline book_analysis w).
Proof.
  unfold claim_and_generate.
  destruct (scene_characters _ _).
  - simpl. destruct (World.GEMINI_AVAILABLE w); simpl.
    + destruct (GenerativeModel _).
      * constructor. intros response w'. apply on_response_awaits.
      * eapply awaits_at_most_mono; [apply recover_awaits|lia..].
    + apply recover_awaits.
  - eapply awaits_at_most_mono; [apply recover_awaits|lia..].
Qed.

Lemma wait_for_scene_awaits n : ∀ w,
  awaits_at_most n 1 (wait_for_scene scene_id scene_outline book_analysis n w).
Proof.
  induction n as [|n IH]; intros w; simpl.
  - eapply awaits_at_most_mono; [apply claim_and_generate_awaits|lia|].
    destruct (World.GEMINI_AVAILABLE w); lia.
  - constructor. intros w'.
    destruct (World.generated_scenes w' !! scene_id); [constructor|apply IH].
Qed.

Lemma synthesize_awaits w :
  awaits_at_most 30 1 (synthesize scene_id scene_outline book_analysis w) ∧
  (scene_id ∉ World.in_progress_scenes w →
   awaits_at_most 0 (if World.GEMINI_AVAILABLE w then 1 else 0)
     (synthesize scene_id scene_outline book_analysis w)).
Proof.
  unfold synthesize. destruct (World.generated_scenes w !! scene_id).
  { split; [|intros _]; constructor. }
  destruct (decide _) as [Hin|Hout].
  - split; [apply wait_for_scene_awaits|done].
  - split; [|intros _; apply claim_and_generate_awaits].
    eapply awaits_at_most_mono; [apply claim_and_generate_awaits|lia|].
    destruct (World.GEMINI_AVAILABLE w); lia.
Qed.
End SynthesizerResults.

(** X8. Whatever the text backend answers and however the cache changes
    while the synthesizer is suspended, a scene it returns is the entry of
    the scenes cache under its scene id at that moment, and an exception
    that leaves it is the [AttributeError] that [create_placeholder_scene]
    raises on its arguments. *)
Theorem synthesizer_returns_cache_entry `{Random} `{TextLib} scene_outline book_analysis w :
  let scene_id := synthesis_id scene_outline w in
  ends_with (synthesized scene_id scene_outline book_analysis)
    (generate_scene_from_outline_with_gemini scene_outline book_analysis w).
Proof.
  intros scene_id. unfold generate_scene_from_outline_with_gemini. simpl.
  apply synthesize_ends.
Qed.

(** X9. The synthesizer sleeps at most thirty times and calls the text
    backend at most once; when the scene id is not claimed at entry it
    does not sleep at all, and if moreover the backend is flagged
    unavailable it returns without awaiting anything. *)
Theorem synthesizer_awaits `{Random} `{TextLib} scene_outline book_analysis w :
  awaits_at_most 30 1
    (generate_scene_from_outline_with_gemini scene_outline book_analysis w) ∧
  (synthesis_id scene_outline w ∉ World.in_progress_scenes w →
   awaits_at_most 0 (if World.GEMINI_AVAILABLE w then 1 else 0)
     (generate_scene_from_outline_with_gemini scene_outline book_analysis w)).
Proof.
  unfold generate_scene_from_outline_with_gemini. simpl.
  apply (synthesize_awaits (synthesis_id scene_outline w) scene_outline book_analysis
           (World.with_draws w (S (World.draws w)))).
Qed.

Lemma synthesizer_awaits_witness :
  awaits_at_most 0 0
    (@generate_scene_from_outline_with_gemini (constant_draws 0) stub_textlib
       hero_outline (Some empty_analysis) (session empty_analysis false)).
Proof.
  apply (proj2 (@synthesizer_awaits (constant_draws 0) stub_textlib hero_outline
                  (Some empty_analysis) (session empty_analysis false))).
  apply not_elem_of_empty.
Defined.

(** X10. With a book analysis all of whose characters have a name, no
    exception leaves the synthesizer: whatever happens while it is
    suspended, it returns a scene, the entry of the scenes cache under its
    scene id. *)
Theorem synthesizer_never_raises `{Random} `{TextLib} scene_outline ba w :
  characters_named ba →
  ends_with
    (λ w' r, ∃ data, r = Ok data ∧
                     World.generated_scenes w' !! synthesis_id scene_outline w = Some data)
    (generate_scene_from_outline_with_gemini scene_outline (Some ba) w).
Proof.
  intros Hnamed.
  apply (ends_with_mono (synthesized (synthesis_id scene_outline w) scene_outline (Some ba))).
  - intros w' [data|e]; simpl; [by eexists|]. intros [_ Hraise].
    destruct (create_placeholder_scene_named (synthesis_id scene_outline w)
                scene_outline ba Hnamed) as [scene Hscene].
    congruence.
  - exact (synthesize_ends (synthesis_id scene_outline w) scene_outline (Some ba)
             (World.with_draws w (S (World.draws w)))).
Qed.

Lemma synthesizer_never_raises_witness :
  characters_named analysis_with_named_character ∧
  ends_with
    (λ w' r, ∃ data, r = Ok data ∧ World.generated_scenes w' !! "scene_1" = Some data)
    (@generate_scene_from_outline_with_gemini (constant_draws 0) stub_textlib
       hero_outline (Some analysis_with_named_character)
       (session analysis_with_named_character true)).
Proof.
  assert (Hnamed : characters_named analysis_with_named_character).
  { intros c Hc. simpl in Hc. apply list_elem_of_singleton in Hc as ->. by eexists. }
  split; [exact Hnamed|].
  exact (@synthesizer_never_raises (constant_draws 0) stub_textlib hero_outline
           analysis_with_named_character (session analysis_with_named_character true)
           Hnamed).
Defined.

(** ** The resolver *)

Lemma generate_placeholder_scene_ends `{Random} scene_id book_analysis w :
  ends_with
    (λ w' r, match r with
             | Ok data => World.generated_scenes w' !! scene_id = Some data
             | Raise e => e = AttributeError ∧ book_analysis = None
             end)
    (generate_placeholder_scene scene_id book_analysis w).
Proof.
  unfold generate_placeholder_scene. destruct book_analysis as [ba|]; simpl.
  - constructor. simpl. apply lookup_insert_eq.
  - by constructor.
Qed.

Lemma after_synthesis_ends `{Random} next_scene_id book_analysis r w :
  ends_with
    (λ w' r, match r with
             | Ok data => World.generated_scenes w' !! next_scene_id = Some data
             | Raise e => e = AttributeError ∧ book_analysis = None
             end)
    (after_synthesis next_scene_id book_analysis r w).
Proof.
  unfold after_synthesis.
  destruct r as [[scene| |truthy]|e]; try apply generate_placeholder_scene_ends.
  constructor. simpl. apply lookup_insert_eq.
Qed.

Lemma after_synthesis_awaits `{Random} next_scene_id book_analysis r w :
  awaits_at_most 0 0 (after_synthesis next_scene_id book_analysis r w).
Proof.
  unfold after_synthesis, generate_placeholder_scene.
  destruct r as [[scene| |truthy]|e]; try constructor;
    destruct (analysis_characters _); constructor.
Qed.

Lemma synthesize_or_placeholder_ends `{Random} `{TextLib} next_scene_id scene_outline w :
  ends_with
    (λ w' r, match r with
             | Ok data => World.generated_scenes w' !! next_scene_id = Some data
             | Raise e => e = AttributeError ∧ World.book_analysis w = None
             end)
    (synthesize_or_placeholder next_scene_id scene_outline w).
Proof.
  unfold synthesize_or_placeholder.
  destruct (World.GEMINI_AVAILABLE w); [|apply generate_placeholder_scene_ends].
  eapply ends_with_bind with (Q := λ _ _, True).
  - apply ends_with_True.
  - intros w' r _. apply after_synthesis_ends.
Qed.

Lemma synthesize_or_placeholder_awaits `{Random} `{TextLib} next_scene_id scene_outline w :
  awaits_at_most 30 1 (synthesize_or_placeholder next_scene_id scene_outline w) ∧
  (World.GEMINI_AVAILABLE w = false →
   awaits_at_most 0 0 (synthesize_or_placeholder next_scene_id scene_outline w)).
Proof.
  unfold synthesize_or_placeholder. destruct (World.GEMINI_AVAILABLE w).
  - split; [|done]. apply awaits_at_most_bind; [|intros; apply after_synthesis_awaits].
    exact (proj1 (synthesize_awaits (synthesis_id scene_outline w) scene_outline
                    (World.book_analysis w) (World.with_draws w (S (World.draws w))))).
  - unfold generate_placeholder_scene.
    split; [|intros _]; destruct (analysis_characters _); constructor.
Qed.

(** X11. Whatever happens while the resolver is suspended, a scene it
    returns is the entry of the scenes cache under the requested id, and
    the only exception that leaves it is [AttributeError]; it sleeps at
    most thirty times and calls the text backend at most once, and with
    the backend flagged unavailable it returns without awaiting anything. *)
Theorem resolver_returns_cache_entry `{Random} `{TextLib} next_scene_id w :
  ends_with (resolved next_scene_id) (generate_next_scene next_scene_id w) ∧
  awaits_at_most 30 1 (generate_next_scene next_scene_id w) ∧
  (World.GEMINI_AVAILABLE w = false →
   awaits_at_most 0 0 (generate_next_scene next_scene_id w)).
Proof.
  assert (Hweaken : ∀ w0 task,
    ends_with (λ w' r, match r with
                       | Ok data => World.generated_scenes w' !! next_scene_id = Some data
                       | Raise e => e = AttributeError ∧ World.book_analysis w0 = None
                       end) task →
    ends_with (resolved next_scene_id) task).
  { intros w0 task. apply ends_with_mono. intros w' [data|e]; simpl; [done|]. by intros [-> _]. }
  unfold generate_next_scene.
  destruct (World.generated_scenes w !! next_scene_id) as [cached|] eqn:Hl.
  { split; [by constructor|]. split; [|intros _]; constructor. }
  destruct (World.scene_graph w !! next_scene_id) as [node|]; simpl.
  - destruct (infer_characters _ _ _) as [characters|e] eqn:Hinfer.
    + split; [eapply Hweaken, synthesize_or_placeholder_ends|].
      match goal with
      | |- context [synthesize_or_placeholder ?k ?o ?w0] =>
          destruct (synthesize_or_placeholder_awaits k o w0) as [Hbound Hnone]
      end.
      split; [exact Hbound|exact Hnone].
    + apply infer_characters_raises in Hinfer as [-> _].
      split; [by constructor|]. split; [|intros _]; constructor.
  - split; [eapply Hweaken, synthesize_or_placeholder_ends|].
    apply synthesize_or_placeholder_awaits.
Qed.

Lemma resolver_returns_cache_entry_witness :
  World.GEMINI_AVAILABLE (session empty_analysis false) = false ∧
  awaits_at_most 0 0
    (@generate_next_scene (constant_draws 0) stub_textlib "scene_x"
       (session empty_analysis false)).
Proof.
  split; [reflexivity|].
  apply (proj2 (proj2 (@resolver_returns_cache_entry (constant_draws 0) stub_textlib
                         "scene_x" (session empty_analysis false)))).
  reflexivity.
Defined.

(** X12. When the cache holds a book analysis and only scene objects, the
    resolver always answers: whatever happens while it is suspended, it
    returns a scene, the entry of the scenes cache under the requested
    id. *)
Theorem resolver_always_answers `{Random} `{TextLib} next_scene_id w :
  is_Some (World.book_analysis w) → caches_objects w →
  ends_with
    (λ w' r, ∃ data, r = Ok data ∧
                     World.generated_scenes w' !! next_scene_id = Some data)
    (generate_next_scene next_scene_id w).
Proof.
  intros [ba Hba] Hobjects.
  assert (Hweaken : ∀ w0 task,
    World.book_analysis w0 = Some ba →
    ends_with (λ w' r, match r with
                       | Ok data => World.generated_scenes w' !! next_scene_id = Some data
                       | Raise e => e = AttributeError ∧ World.book_analysis w0 = None
                       end) task →
    ends_with (λ w' r, ∃ data, r = Ok data ∧
                 World.generated_scenes w' !! next_scene_id = Some data) task).
  { intros w0 task Hw0. apply ends_with_mono. intros w' [data|e]; simpl; [by eexists|].
    rewrite Hw0. by intros [_ ?]. }
  unfold generate_next_scene.
  destruct (World.generated_scenes w !! next_scene_id) as [cached|] eqn:Hl.
  { constructor. by eexists. }
  destruct (World.scene_graph w !! next_scene_id) as [node|]; simpl.
  - destruct (infer_characters _ _ _) as [characters|e] eqn:Hinfer.
    + eapply Hweaken; [|apply synthesize_or_placeholder_ends]. done.
    + apply infer_characters_raises in Hinfer as (_ & conn & truthy & _ & Hnon).
      by destruct (Hobjects (Graph.source conn) truthy).
  - eapply Hweaken; [|apply synthesize_or_placeholder_ends]. done.
Qed.

Lemma resolver_always_answers_witness :
  is_Some (World.book_analysis (session analysis_with_nameless_character true)) ∧
  caches_objects (session analysis_with_nameless_character true) ∧
  ends_with
    (λ w' r, ∃ data, r = Ok data ∧ World.generated_scenes w' !! "scene_x" = Some data)
    (@generate_next_scene (constant_draws 0) stub_textlib "scene_x"
       (session analysis_with_nameless_character true)).
Proof.
  assert (Hba : is_Some (World.book_analysis
                           (session analysis_with_nameless_character true)))
    by (by eexists).
  assert (Hobjects : caches_objects (session analysis_with_nameless_character true)).
  { intros k truthy. simpl. by rewrite lookup_empty. }
  split; [exact Hba|]. split; [exact Hobjects|].
  exact (@resolver_always_answers (constant_draws 0) stub_textlib "scene_x"
           (session analysis_with_nameless_character true) Hba Hobjects).
Defined.

(** * Further properties of the helpers *)

(** ** attempt_json_repair *)

Lemma count_char_app c a : ∀ b,
  count_char c (a +:+ b) = count_char c a + count_char c b.
Proof. induction a as [|c' a IH]; intros b; simpl; [done|]. rewrite IH. lia. Qed.

Lemma count_char_repeat c c' n :
  count_char c (repeat_char c' n) = if decide (c' = c) then n else 0.
Proof.
  induction n as [|n IH]; simpl; [by destruct (decide _)|].
  rewrite IH. by destruct (decide _).
Qed.

Lemma append_empty_r (s : string) : s +:+ EmptyString = s.
Proof.
  induction s as [|c r IH]; [done|].
  change (String c (r +:+ EmptyString) = String c r). by f_equal.
Qed.

Lemma append_assoc (a b c : string) : (a +:+ b) +:+ c = a +:+ (b +:+ c).
Proof.
  induction a as [|x a IH]; [done|].
  change (String x ((a +:+ b) +:+ c) = String x (a +:+ (b +:+ c))). by f_equal.
Qed.

Lemma close_missing_spec opening closing json_text :
  close_missing opening closing json_text =
  json_text +:+ repeat_char closing
                  (count_char opening json_text - count_char closing json_text).
Proof.
  unfold close_missing. destruct (decide _) as [|Hge]; [done|].
  replace (_ - _) with 0 by lia. simpl. by rewrite append_empty_r.
Qed.

Lemma close_missing_count opening closing json_text c :
  count_char c (close_missing opening closing json_text) =
  count_char c json_text +
  (if decide (closing = c)
   then count_char opening json_text - count_char closing json_text else 0).
Proof. by rewrite close_missing_spec, count_char_app, count_char_repeat. Qed.

(** X13. [attempt_json_repair] only appends: its result is the text after
    the quote repair, followed by one closing brace for every opening brace
    that lacks one and then by one closing bracket for every opening
    bracket that lacks one. In the result no opening brace or bracket lacks
    a closing one, and a text in which none did is returned as the quote
    repair left it. *)
Theorem attempt_json_repair_closes `{TextLib} json_text :
  let quoted := sub_unclosed_quote json_text in
  let braces := count_char "{" quoted - count_char "}" quoted in
  let brackets := count_char "[" quoted - count_char "]" quoted in
  let repaired := attempt_json_repair json_text in
  repaired = quoted +:+ repeat_char "}" braces +:+ repeat_char "]" brackets ∧
  count_char "{" repaired = count_char "{" quoted ∧
  count_char "[" repaired = count_char "[" quoted ∧
  count_char "{" repaired ≤ count_char "}" repaired ∧
  count_char "[" repaired ≤ count_char "]" repaired ∧
  (braces = 0 → brackets = 0 → repaired = quoted).
Proof.
  intros quoted braces brackets repaired.
  assert (Hrep : repaired =
                 quoted +:+ repeat_char "}" braces +:+ repeat_char "]" brackets).
  { unfold repaired, attempt_json_repair. fold quoted.
    rewrite (close_missing_spec "[" "]"), !close_missing_count. simpl.
    rewrite (close_missing_spec "{" "}"), append_assoc, !Nat.add_0_r. done. }
  split; [exact Hrep|].
  rewrite Hrep, !count_char_app, !count_char_repeat. simpl.
  repeat split; try (unfold braces, brackets; lia).
  intros Hb Hk. rewrite Hb, Hk. simpl. by rewrite append_empty_r.
Qed.

Lemma attempt_json_repair_closes_witness :
  @attempt_json_repair quoting_textlib "[{}, {}]" = "[{}, {}]'".
Proof.
  apply (proj2 (proj2 (proj2 (proj2 (proj2
           (@attempt_json_repair_closes quoting_textlib "[{}, {}]")))))); reflexivity.
Defined.

(** ** generate_placeholder_scene *)

Lemma randint_bounds `{Random} k a b : a ≤ b → a ≤ randint k a b ≤ b.
Proof.
  intros Hab. unfold randint.
  pose proof (Nat.mod_upper_bound (entropy k) (b - a + 1)). lia.
Qed.

(** X14. Given a book analysis, [generate_placeholder_scene] returns at
    once a scene with the requested id, tagged as a placeholder, stored
    under that id; it shows the first two characters of the book at most,
    every line of dialogue names either no character, or a character the
    scene shows, or, the book having too few characters, one of the
    defaults; its two choices lead to scenes numbered between 1000 and
    9999; it touches neither the scene graph nor the in-progress set.
    Without a book analysis it raises [AttributeError] and changes
    nothing. *)
Theorem generate_placeholder_scene_spec `{Random} scene_id book_analysis w :
  match book_analysis with
  | None =>
      generate_placeholder_scene scene_id book_analysis w
        = Task.Return w (Raise AttributeError)
  | Some ba =>
      ∃ scene n1 n2,
        generate_placeholder_scene scene_id book_analysis w
          = Task.Return
              (World.store scene_id (SceneObj scene)
                 (World.with_draws w (2 + World.draws w)))
              (Ok (SceneObj scene)) ∧
        Scene.id scene = scene_id ∧
        Scene.generated_with scene = Some "Placeholder" ∧
        length (Scene.characters scene)
          = length (default [] (BookAnalysis.characters ba)) `min` 2 ∧
        (∀ d char_id, d ∈ Scene.dialogue scene → Dialogue.character d = Some char_id →
           char_id ∈ SceneCharacter.id <$> Scene.characters scene ∨
           (length (Scene.characters scene) < 2 ∧
            (char_id = "protagonist" ∨ char_id = "supporting"))) ∧
        collect_refs [scene] =
          [ Ref.mk scene_id "Continue the adventure" ("scene_" +:+ pretty n1);
            Ref.mk scene_id "Take a different path" ("scene_" +:+ pretty n2) ] ∧
        1000 ≤ n1 ≤ 9999 ∧ 1000 ≤ n2 ≤ 9999
  end.
Proof.
  destruct book_analysis as [ba|]; [|done].
  unfold generate_placeholder_scene. simpl.
  set (characters := default [] (BookAnalysis.characters ba)).
  eexists _, (randint (World.draws w) 1000 9999),
          (randint (S (World.draws w)) 1000 9999).
  split; [reflexivity|]. simpl. split; [done|]. split; [done|].
  split; [rewrite length_fmap, length_imap, length_take; lia|].
  split; [|split; [done|split; apply randint_bounds, Nat.leb_le; by vm_compute]].
  intros d char_id Hd Hchar. rewrite length_fmap, length_imap, length_take.
  rewrite !elem_of_cons in Hd. rewrite <-list_fmap_compose.
  destruct Hd as [->|[->|[->|[->|Hd]]]]; simpl in Hchar; try done.
  - destruct characters as [|c0 rest]; simpl in *.
    + right. split; [lia|]. left. congruence.
    + left. injection Hchar as <-. apply list_elem_of_here.
  - destruct characters as [|c0 [|c1 rest]]; simpl in *.
    + right. split; [lia|]. right. congruence.
    + right. split; [lia|]. right. congruence.
    + left. injection Hchar as <-. apply list_elem_of_further, list_elem_of_here.
  - by apply elem_of_nil in Hd.
Qed.

Lemma generate_placeholder_scene_spec_witness :
  ∃ scene,
    Task.result (@generate_placeholder_scene (constant_draws 0) "scene_x"
                   (Some analysis_with_nameless_character) (World.initial false))
      = Some (Ok (SceneObj scene)) ∧
    Scene.id scene = "scene_x" ∧ length (Scene.characters scene) = 1.
Proof.
  destruct (@generate_placeholder_scene_spec (constant_draws 0) "scene_x"
              (Some analysis_with_nameless_character) (World.initial false))
    as (scene & n1 & n2 & Hrun & Hid & _ & Hlen & _).
  exists scene. rewrite Hrun. done.
Defined.

(** * The placeholder script *)

Lemma character_images_from_spec characters : ∀ i character_images,
  match character_images_from i characters character_images with
  | Ok images =>
      (∀ c, c ∈ characters → is_Some (Profile.id c)) ∧
      (∀ c k, c ∈ characters → Profile.id c = Some k → is_Some (images !! k)) ∧
      (∀ k, is_Some (character_images !! k) → is_Some (images !! k))
  | Raise e => e = KeyError ∧ ∃ c, c ∈ characters ∧ Profile.id c = None
  end.
Proof.
  induction characters as [|c characters IH]; intros i character_images; simpl.
  - split; [|split; [|done]].
    + intros c Hc. by apply elem_of_nil in Hc.
    + intros c k Hc. by apply elem_of_nil in Hc.
  - destruct (Profile.id c) as [char_id|] eqn:Hid; simpl.
    + specialize (IH (S i) (<[char_id := character_svg i]> character_images)).
      destruct (character_images_from _ _ _) as [images|e].
      * destruct IH as (Hids & Hkeys & Hkeep).
        assert (Hown : is_Some (images !! char_id)).
        { apply Hkeep. rewrite lookup_insert_eq. by eexists. }
        split; [|split].
        -- intros c' [->|Hc']%elem_of_cons; [by rewrite Hid|by apply Hids].
        -- intros c' k [->|Hc']%elem_of_cons Hk; [|by eapply Hkeys].
           rewrite Hid in Hk. by injection Hk as <-.
        -- intros k Hk. apply Hkeep. destruct (decide (char_id = k)) as [->|Hne].
           ++ rewrite lookup_insert_eq. by eexists.
           ++ by rewrite lookup_insert_ne.
      * destruct IH as (-> & c' & Hc' & Hnone). split; [done|].
        exists c'. split; [by apply list_elem_of_further|done].
    + split; [done|]. exists c. split; [apply list_elem_of_here|done].
Qed.

Lemma character_names_from_spec characters : ∀ character_names,
  match character_names_from characters character_names with
  | Ok names => ∀ c, c ∈ characters → is_Some (Profile.id c) ∧ is_Some (Profile.name c)
  | Raise e =>
      e = KeyError ∧
      ∃ c, c ∈ characters ∧ (Profile.id c = None ∨ Profile.name c = None)
  end.
Proof.
  induction characters as [|c characters IH]; intros character_names; simpl.
  - intros c Hc. by apply elem_of_nil in Hc.
  - destruct (Profile.id c) as [char_id|] eqn:Hid; simpl.
    + destruct (Profile.name c) as [name|] eqn:Hname; simpl.
      * specialize (IH (<[char_id := name]> character_names)).
        destruct (character_names_from _ _) as [names|e].
        -- intros c' [->|Hc']%elem_of_cons; [|by apply IH].
           rewrite Hid, Hname. by split; eexists.
        -- destruct IH as (-> & c' & Hc' & Hnone). split; [done|].
           exists c'. split; [by apply list_elem_of_further|done].
      * split; [done|]. exists c. split; [apply list_elem_of_here|by right].
    + split; [done|]. exists c. split; [apply list_elem_of_here|by left].
Qed.

Lemma character_intros_spec characters :
  match character_intros characters with
  | Ok lines =>
      (∀ c, c ∈ characters → is_Some (Profile.description c)) ∧
      Forall (λ d, Dialogue.choices d = None ∧ Dialogue.character d = None) lines
  | Raise e =>
      e = KeyError ∧
      ∃ c, c ∈ characters ∧ (Profile.name c = None ∨ Profile.description c = None)
  end.
Proof.
  induction characters as [|c characters IH]; simpl.
  - split; [|done]. intros c Hc. by apply elem_of_nil in Hc.
  - unfold character_intro.
    destruct (Profile.name c) as [name|] eqn:Hname; simpl.
    + destruct (Profile.description c) as [description|] eqn:Hdesc; simpl.
      * destruct (character_intros characters) as [lines|e]; simpl.
        -- destruct IH as [Hdescs Hlines]. split; [|by constructor].
           intros c' [->|Hc']%elem_of_cons; [by rewrite Hdesc|by apply Hdescs].
        -- destruct IH as (-> & c' & Hc' & Hnone). split; [done|].
           exists c'. split; [by apply list_elem_of_further|done].
      * split; [done|]. exists c. split; [apply list_elem_of_here|by right].
    + split; [done|]. exists c. split; [apply list_elem_of_here|by left].
Qed.

Lemma basic_scene_spec characters character_images character_names i scene_info :
  (∀ c k, c ∈ characters → Profile.id c = Some k → is_Some (character_images !! k)) →
  match basic_scene characters character_images character_names i scene_info with
  | Ok scene =>
      Scene.id scene = scene_info.1 ∧
      scene_refs scene =
        [ Ref.mk scene_info.1 "Return to the beginning" "scene_1";
          Ref.mk scene_info.1 "Continue on this path" "scene_1" ] ∧
      speakers_shown scene
  | Raise e => e = KeyError ∧ ∃ c, c ∈ characters ∧ Profile.id c = None
  end.
Proof.
  intros Himages. unfold basic_scene.
  destruct (decide _) as [[Heven Hne]|Hno].
  - destruct (characters !! (i mod length characters)) as [char|] eqn:Hchar.
    + apply list_elem_of_lookup_2 in Hchar.
      destruct (Profile.id char) as [char_id|] eqn:Hid; simpl.
      * destruct (Himages char char_id Hchar Hid) as [image ->]. simpl.
        split; [done|]. split; [done|].
        intros d k Hd Hk. simpl in *. rewrite !elem_of_cons in Hd.
        destruct Hd as [->|[->|[->|Hd]]]; simpl in Hk; try done.
        -- injection Hk as <-. apply list_elem_of_here.
        -- by apply elem_of_nil in Hd.
      * split; [done|]. by exists char.
    + apply lookup_ge_None in Hchar.
      pose proof (Nat.mod_upper_bound i (length characters)).
      destruct characters; [done|]. simpl in *. lia.
  - split; [done|]. split; [done|].
    intros d k Hd Hk. simpl in *. rewrite !elem_of_cons in Hd.
    destruct Hd as [->|[->|Hd]]; simpl in Hk; try done. by apply elem_of_nil in Hd.
Qed.

Lemma populate_basic_scenes_spec characters character_images character_names infos :
  (∀ c k, c ∈ characters → Profile.id c = Some k → is_Some (character_images !! k)) →
  ∀ i,
  match populate_basic_scenes characters character_images character_names i infos with
  | Ok scenes =>
      Scene.id <$> scenes = fst <$> infos ∧
      collect_refs scenes =
        (infos ≫= λ scene_info,
           [ Ref.mk scene_info.1 "Return to the beginning" "scene_1";
             Ref.mk scene_info.1 "Continue on this path" "scene_1" ]) ∧
      Forall speakers_shown scenes
  | Raise e => e = KeyError ∧ ∃ c, c ∈ characters ∧ Profile.id c = None
  end.
Proof.
  intros Himages. induction infos as [|info infos IH]; intros i;
    unfold populate_basic_scenes; fold populate_basic_scenes; [done|].
  pose proof (basic_scene_spec characters character_images character_names i info
                Himages) as Hscene.
  destruct (basic_scene _ _ _ _ _) as [scene|e]; simpl; [|done].
  specialize (IH (S i)).
  destruct (populate_basic_scenes _ _ _ _ _) as [scenes|e]; simpl; [|done].
  destruct Hscene as (Hid & Hrefs & Hshown), IH as (Hids & Hrest & Hall).
  split; [simpl; f_equal; [exact Hid|exact Hids]|]. split; [|by constructor].
  unfold collect_refs in *. by rewrite Hrefs, Hrest.
Qed.

Lemma placeholder_cast_nonempty book_analysis : placeholder_cast book_analysis ≠ [].
Proof. unfold placeholder_cast. by destruct (default [] _). Qed.

Lemma narrator_lines_refs scene_id lines :
  Forall (λ d, Dialogue.choices d = None ∧ Dialogue.character d = None) lines →
  lines ≫= dialogue_refs scene_id = [].
Proof.
  induction 1 as [|d lines [Hd _] _ IH]; [done|].
  rewrite bind_cons, IH. unfold dialogue_refs. by rewrite Hd.
Qed.

(** The outcome of [generate_placeholder_script], with what it needs. *)
Lemma generate_placeholder_script_spec book_analysis :
  match generate_placeholder_script book_analysis with
  | Ok script =>
      keys_present book_analysis ∧
      Scene.id <$> Script.scenes script =
        ["scene_1"; "scene_2"; "scene_3"; "scene_4"; "scene_5";
         "scene_6"; "scene_7"; "scene_8"; "scene_9"; "scene_10"] ∧
      collect_refs (Script.scenes script) = placeholder_refs ∧
      Forall speakers_shown (Script.scenes script)
  | Raise e => e = KeyError ∧ ¬ keys_present book_analysis
  end.
Proof.
  unfold generate_placeholder_script, keys_present.
  destruct (Book.metadata book_analysis) as [metadata|]; simpl;
    [|split; [done|]; by intros [[? ?] _]].
  pose proof (placeholder_cast_nonempty book_analysis) as Hne.
  set (characters := placeholder_cast book_analysis) in *.
  pose proof (character_images_from_spec characters 0 ∅) as Himages.
  destruct (character_images_from 0 characters ∅) as [images|e]; simpl.
  2: { destruct Himages as (-> & c & Hc & Hnone). split; [done|].
       intros (_ & Hkeys & _). destruct (Hkeys c Hc) as [[? ?] _]. congruence. }
  destruct Himages as (Hids & Himages & _).
  pose proof (character_names_from_spec characters ∅) as Hnames.
  destruct (character_names_from characters ∅) as [names|e]; simpl.
  2: { destruct Hnames as (-> & c & Hc & Hnone). split; [done|].
       intros (_ & Hkeys & _). destruct (Hkeys c Hc) as [[? ?] [? ?]].
       destruct Hnone; congruence. }
  pose proof (character_intros_spec (take 2 characters)) as Hintros.
  destruct (character_intros (take 2 characters)) as [lines|e]; simpl.
  2: { destruct Hintros as (-> & c & Hc & Hnone). split; [done|].
       intros (_ & Hkeys & Hdescs). destruct (Hdescs c Hc) as [? ?].
       destruct (Hkeys c) as [_ [? ?]]; [by eapply subseteq_take|].
       destruct Hnone; congruence. }
  destruct Hintros as [Hdescs Hlines].
  destruct characters as [|main_char rest] eqn:Hcast; [done|].
  destruct (Hids main_char) as [main_id Hmain]; [apply list_elem_of_here|].
  rewrite Hmain. simpl.
  destruct (Himages main_char main_id) as [main_image ->]; [apply list_elem_of_here|done|].
  simpl.
  pose proof (populate_basic_scenes_spec (main_char :: rest) images names basic_scenes
                Himages 0) as Hbasic.
  destruct (populate_basic_scenes _ _ _ _ _) as [scenes|e].
  2: { destruct Hbasic as (-> & c & Hc & Hnone).
       destruct (Hids c Hc) as [? ?]. congruence. }
  destruct Hbasic as (Hbasic_ids & Hbasic_refs & Hbasic_shown).
  split; [split; [by eexists|split; [exact Hnames|exact Hdescs]]|].
  cbn [Script.scenes].
  split; [by rewrite !fmap_cons, Hbasic_ids|]. split.
  - unfold collect_refs in *. rewrite !bind_cons, Hbasic_refs.
    unfold scene_refs at 1. cbn [Scene.dialogue Scene.id].
    rewrite !bind_cons, bind_app, (narrator_lines_refs _ _ Hlines). done.
  - repeat apply Forall_cons_2; [| | | |exact Hbasic_shown].
    + intros d k Hd Hk. simpl in Hd. rewrite !elem_of_cons, elem_of_app in Hd.
      destruct Hd as [->|[->|[Hd|Hd]]]; try done.
      * rewrite Forall_forall in Hlines. destruct (Hlines d Hd). congruence.
      * apply list_elem_of_singleton in Hd as ->. done.
    + intros d k Hd Hk. simpl in *. rewrite !elem_of_cons in Hd.
      destruct Hd as [->|[->|[->|Hd]]]; simpl in Hk; try done.
      * injection Hk as <-. apply list_elem_of_here.
      * injection Hk as <-. apply list_elem_of_here.
      * by apply elem_of_nil in Hd.
    + intros d k Hd Hk. simpl in *. rewrite !elem_of_cons in Hd.
      destruct Hd as [->|[->|[->|Hd]]]; simpl in Hk; try done.
      * injection Hk as <-. apply list_elem_of_here.
      * injection Hk as <-. apply list_elem_of_here.
      * by apply elem_of_nil in Hd.
    + intros d k Hd Hk. simpl in *. rewrite !elem_of_cons in Hd.
      destruct Hd as [->|[->|[->|Hd]]]; simpl in Hk; try done.
      by apply elem_of_nil in Hd.
Qed.

Lemma ref_reachable_seeds refs seeds seeds' x :
  (∀ s, s ∈ seeds → s ∈ seeds') →
  ref_reachable refs seeds x → ref_reachable refs seeds' x.
Proof.
  intros Hsub. induction 1 as [x Hx|ref Hin _ IH Hne].
  - apply ref_seed. by apply Hsub.
  - by apply ref_step.
Qed.

Lemma ref_reachable_from scenes entry x :
  ref_reachable (collect_refs scenes) [entry] x → reachable_from scenes entry x.
Proof.
  induction 1 as [x Hx|ref Hin _ IH Hne].
  - apply list_elem_of_singleton in Hx as ->. constructor.
  - eapply reach_step; [exact IH|].
    apply collect_refs_elem in Hin as (c & (scene & d & cs & Hs & Hid & Hd & Hcs & Hc) & _ & Hn).
    by exists scene, d, cs, c.
Qed.

Lemma seeds_of_scene_1 scene_ids :
  "scene_1" ∈ scene_ids → seeds_of scene_ids = ["scene_intro"; "scene_1"].
Proof.
  intros Hin. unfold seeds_of, entry_set. simpl.
  rewrite (bool_decide_eq_true_2 _ Hin). by rewrite orb_true_r.
Qed.

Lemma placeholder_refs_reachable scene_id :
  scene_id ∈ ["scene_1"; "scene_2"; "scene_3"; "scene_4"; "scene_5";
              "scene_6"; "scene_7"; "scene_8"; "scene_9"; "scene_10"] →
  ref_reachable placeholder_refs ["scene_1"] scene_id.
Proof.
  assert (H1 : ref_reachable placeholder_refs ["scene_1"] "scene_1")
    by (apply ref_seed, list_elem_of_here).
  assert (Hstep : ∀ a text b,
            Ref.mk a text b ∈ placeholder_refs →
            ref_reachable placeholder_refs ["scene_1"] a → b ≠ "exit" →
            ref_reachable placeholder_refs ["scene_1"] b).
  { intros a text b Hin Ha Hb. by apply (ref_step _ _ (Ref.mk a text b)). }
  assert (H2 : ref_reachable placeholder_refs ["scene_1"] "scene_2").
  { apply (Hstep "scene_1" "With courage and determination"); [|done..].
    repeat first [apply list_elem_of_here | apply list_elem_of_further]. }
  assert (H3 : ref_reachable placeholder_refs ["scene_1"] "scene_3").
  { apply (Hstep "scene_1" "With caution and planning"); [|done..].
    repeat first [apply list_elem_of_here | apply list_elem_of_further]. }
  rewrite !elem_of_cons. intros [->|[->|[->|[->|[->|[->|[->|[->|[->|[->|Hnil]]]]]]]]]];
    [done|done|done| | | | | | | |by apply elem_of_nil in Hnil].
  - apply (Hstep "scene_1" "Let fate decide my path"); [|done..].
    repeat first [apply list_elem_of_here | apply list_elem_of_further].
  - apply (Hstep "scene_2" "The direct approach"); [|done..].
    repeat first [apply list_elem_of_here | apply list_elem_of_further].
  - apply (Hstep "scene_2" "Seek allies first"); [|done..].
    repeat first [apply list_elem_of_here | apply list_elem_of_further].
  - apply (Hstep "scene_2" "Gather more information"); [|done..].
    repeat first [apply list_elem_of_here | apply list_elem_of_further].
  - apply (Hstep "scene_3" "Study the situation"); [|done..].
    repeat first [apply list_elem_of_here | apply list_elem_of_further].
  - apply (Hstep "scene_3" "Prepare equipment"); [|done..].
    repeat first [apply list_elem_of_here | apply list_elem_of_further].
  - apply (Hstep "scene_3" "Consult with others"); [|done..].
    repeat first [apply list_elem_of_here | apply list_elem_of_further].
Qed.

Lemma placeholder_refs_valid ref :
  ref ∈ placeholder_refs →
  Ref.next_scene ref ∈ ["scene_1"; "scene_2"; "scene_3"; "scene_4"; "scene_5";
                        "scene_6"; "scene_7"; "scene_8"; "scene_9"; "scene_10"].
Proof.
  unfold placeholder_refs. simpl. intros Href. rewrite !elem_of_cons in Href.
  repeat (destruct Href as [->|Href];
          [simpl; repeat first [apply list_elem_of_here | apply list_elem_of_further]|]).
  by apply elem_of_nil in Href.
Qed.

(** X15. [generate_placeholder_script] raises exactly when a key it
    reads by subscript is missing, and then [KeyError]: it returns a
    script if and only if the book analysis has its metadata, every
    character of the cast has an id and a name, and the first two have a
    description. *)
Theorem placeholder_script_needs_keys book_analysis :
  match generate_placeholder_script book_analysis with
  | Ok _ => keys_present book_analysis
  | Raise e => e = KeyError ∧ ¬ keys_present book_analysis
  end.
Proof.
  pose proof (generate_placeholder_script_spec book_analysis) as Hspec.
  destruct (generate_placeholder_script book_analysis); [by destruct Hspec|done].
Qed.

(** X16. The fallback script needs no repair. Whatever the book, the
    script [generate_placeholder_script] returns has the ten scenes
    [scene_1] to [scene_10], every choice of it leads to one of them, every
    scene can be reached from [scene_1], every line of dialogue that names
    a character names one its scene shows, and
    [validate_and_fix_scene_connections] returns the script unchanged. *)
Theorem placeholder_script_is_valid `{PySet} `{Random} book_analysis script :
  generate_placeholder_script book_analysis = Ok script →
  let scenes := Script.scenes script in
  Scene.id <$> scenes =
    ["scene_1"; "scene_2"; "scene_3"; "scene_4"; "scene_5";
     "scene_6"; "scene_7"; "scene_8"; "scene_9"; "scene_10"] ∧
  (∀ ref, ref ∈ collect_refs scenes → Ref.next_scene ref ∈ Scene.id <$> scenes) ∧
  (∀ scene_id, scene_id ∈ Scene.id <$> scenes →
               reachable_from scenes "scene_1" scene_id) ∧
  Forall speakers_shown scenes ∧
  validate_and_fix_scene_connections script = Ok script.
Proof.
  intros Hgen scenes.
  pose proof (generate_placeholder_script_spec book_analysis) as Hspec.
  rewrite Hgen in Hspec. destruct Hspec as (_ & Hids & Hrefs & Hshown).
  fold scenes in Hids, Hrefs, Hshown.
  split; [exact Hids|]. split; [|split; [|split; [exact Hshown|]]].
  - intros ref Href. rewrite Hids. apply placeholder_refs_valid. by rewrite <-Hrefs.
  - intros scene_id Hid. apply ref_reachable_from. rewrite Hrefs.
    apply placeholder_refs_reachable. by rewrite <-Hids.
  - apply validate_fixpoint; fold scenes.
    + intros Hnil. by rewrite Hnil in Hids.
    + intros ref Href. left. apply scene_ids_of_elem. rewrite Hids.
      apply placeholder_refs_valid. by rewrite <-Hrefs.
    + intros scene_id Hid. rewrite seeds_of_scene_1.
      * eapply ref_reachable_seeds; [|rewrite Hrefs; apply placeholder_refs_reachable;
                                       by rewrite <-Hids].
        intros s ->%list_elem_of_singleton. apply list_elem_of_further, list_elem_of_here.
      * apply scene_ids_of_elem. rewrite Hids. apply list_elem_of_here.
Qed.

Lemma placeholder_script_needs_keys_witness :
  generate_placeholder_script book_with_nameless_character = Raise KeyError.
Proof.
  pose proof (placeholder_script_needs_keys book_with_nameless_character) as Hspec.
  destruct (generate_placeholder_script book_with_nameless_character) as [script|e].
  - exfalso. destruct Hspec as (_ & Hkeys & _).
    destruct (Hkeys _ (list_elem_of_here _ _)) as [_ [name Hname]]. discriminate Hname.
  - by destruct Hspec as [-> _].
Defined.

Lemma placeholder_script_is_valid_witness :
  ∃ script,
    generate_placeholder_script untold_book = Ok script ∧
    @validate_and_fix_scene_connections first_seen_order (constant_draws 0) script
      = Ok script.
Proof.
  assert (Hgen : ∃ script, generate_placeholder_script untold_book = Ok script)
    by (vm_compute; by eexists).
  destruct Hgen as [script Hgen]. exists script. split; [exact Hgen|].
  exact (proj2 (proj2 (proj2 (proj2
           (@placeholder_script_is_valid first_seen_order (constant_draws 0)
              untold_book script Hgen))))).
Defined.
